(** * atdis: priority scheduler, scheduled-task state machine, workers and
    the throttle policy of the request pool.

    A shallow embedding of
    - [atdis/src/scheduler.ts], lines 1-306: [Scheduler], [ScheduledTask] and
      the copy of the Promise methods; the same file goes on with task.ts
      ([TaskState], from line 307) and worker.ts ([Worker], [WorkerState],
      from line 433), and line numbers given for them are lines of that file;
    - [atdis-request/src/throttle-policy.ts]: [AbstractPolicy],
      [SuspendPolicy];
    - request-pool.ts and request.ts ([RequestPool], [Request]), lines of
      [unnamed/part_002], and throttle.ts ([ThrottleError]) in
      [unnamed/part_001].

    JavaScript objects are shared by reference: a [ScheduledTask] sits in the
    scheduler's queue, in the pool's cache and in the hands of the caller at
    the same time.  The embedding therefore keeps every task in one store,
    keyed by its [id], and queue, cache and callers hold ids. *)

From Stdlib Require Import ZArith QArith Qcanon Lia.
From stdpp Require Import gmap strings list.
From Equations Require Import Equations.

Local Open Scope Z_scope.

(** ** Values, errors, outcomes *)

(** The payload types [R] and [T] of the source are instantiated by strings. *)
Definition Value : Type := string.

(** What a task can fail with: an ordinary [Error] carrying its message, or
    the request pool's [ThrottleError] carrying its [until] time stamp
    (milliseconds, as [Date.getTime] gives it). *)
Inductive JsError : Type :=
  | JsErr (msg : string)
  | ThrottleError (until : Z).

Global Instance JsError_eq_dec : EqDecision JsError.
Proof. solve_decision. Defined.

(** How a promise settles. *)
Inductive Outcome : Type :=
  | Fulfilled (v : Value)
  | Rejected (e : JsError).

Global Instance Outcome_eq_dec : EqDecision Outcome.
Proof. solve_decision. Defined.

(** [TaskState] of task.ts (scheduler.ts 337-364). *)
Inductive TaskState : Type := QUEUED | RUNNING | COMPLETED | FAILED | CANCELLED.

Global Instance TaskState_eq_dec : EqDecision TaskState.
Proof. solve_decision. Defined.

(** [this.state.toLowerCase()] *)
Definition toLowerCase (s : TaskState) : string :=
  match s with
  | QUEUED => "queued"
  | RUNNING => "running"
  | COMPLETED => "completed"
  | FAILED => "failed"
  | CANCELLED => "cancelled"
  end.

(** ** Tasks *)

(** What one call of a task's executor does: return a plain value, throw, or
    return a promise (anything with a [then]) that later settles. *)
Inductive ExecResult : Type :=
  | Returns (v : Value)
  | Throws (e : JsError)
  | Async (o : Outcome).

(** A [Task]: a function of the input data (or an object with such a [run]),
    with an optional default priority.  A JavaScript function may answer
    differently from call to call (see [flaky] in the example), so the
    executor also receives the number of calls made before this one. *)
Record Task : Type := {
  executor : option Value -> nat -> ExecResult;
  task_priority : option Qc
}.

(** [CommonScheduleOptions & {data}]; an absent options object is the record
    with every field absent. *)
Record ScheduleOptions : Type := {
  opt_priority : option Qc;
  opt_retries : option Z;
  opt_data : option Value
}.

(** ** Promises *)

(** A native promise: pending or settled, with the continuations (named by
    numbers) waiting for it. *)
Record JsPromise : Type := {
  settled : option Outcome;
  reactions : list nat
}.

(** [new Promise((resolve, reject) => ...)] *)
Definition new_Promise : JsPromise := {| settled := None; reactions := [] |}.

(** ** Scheduled tasks *)

(** The fields of the class [ScheduledTask].  [_resolve] and [_reject] are not
    fields here: they are [NOOP] exactly as long as [_promise] is [null], and
    the resolving functions of [_promise] afterwards, since the three are only
    ever assigned together.  [invocations] counts the calls of the executor,
    and [inflight] is the promise an asynchronous executor has returned and
    that has not called back yet. *)
Record ScheduledTask : Type := {
  _task : Task;
  _retries : Z;
  _promise : option JsPromise;
  state : TaskState;
  attempt : Z;
  id : nat;
  data : option Value;
  priority : option Qc;
  scheduled : Z;
  invocations : nat;
  inflight : option Outcome
}.

Definition with_state (s : TaskState) (t : ScheduledTask) : ScheduledTask :=
  {| _task := _task t; _retries := _retries t; _promise := _promise t;
     state := s; attempt := attempt t; id := id t; data := data t;
     priority := priority t; scheduled := scheduled t;
     invocations := invocations t; inflight := inflight t |}.

Definition with_promise (p : option JsPromise) (t : ScheduledTask) : ScheduledTask :=
  {| _task := _task t; _retries := _retries t; _promise := p;
     state := state t; attempt := attempt t; id := id t; data := data t;
     priority := priority t; scheduled := scheduled t;
     invocations := invocations t; inflight := inflight t |}.

(** [this._retries--; this.attempt++] *)
Definition consume_retry (t : ScheduledTask) : ScheduledTask :=
  {| _task := _task t; _retries := _retries t - 1; _promise := _promise t;
     state := state t; attempt := attempt t + 1; id := id t; data := data t;
     priority := priority t; scheduled := scheduled t;
     invocations := invocations t; inflight := inflight t |}.

Definition with_inflight (o : option Outcome) (t : ScheduledTask) : ScheduledTask :=
  {| _task := _task t; _retries := _retries t; _promise := _promise t;
     state := state t; attempt := attempt t; id := id t; data := data t;
     priority := priority t; scheduled := scheduled t;
     invocations := invocations t; inflight := o |}.

Definition count_invocation (t : ScheduledTask) : ScheduledTask :=
  {| _task := _task t; _retries := _retries t; _promise := _promise t;
     state := state t; attempt := attempt t; id := id t; data := data t;
     priority := priority t; scheduled := scheduled t;
     invocations := S (invocations t); inflight := inflight t |}.

(** The constructor of [ScheduledTask] (scheduler.ts 178-195); [now] is
    [Date.now()] and [i] the value of [_ID_COUNTER]. *)
Definition new_ScheduledTask (task : Task) (options : ScheduleOptions)
    (now : Z) (i : nat) : ScheduledTask :=
  {| _task := task;
     _retries := default 0 (opt_retries options);
     _promise := None;
     state := QUEUED;
     attempt := 0;
     id := i;
     data := opt_data options;
     priority := match opt_priority options with
                 | Some p => Some p
                 | None => task_priority task
                 end;
     scheduled := now;
     invocations := 0%nat;
     inflight := None |}.

(** ** The scheduler and the store *)

(** The three events of the scheduler's emitter. *)
Inductive Event : Type :=
  | EvSchedule (task : nat)
  | EvFailedAttempt (task : nat) (error : JsError)
  | EvFailedTask (task : nat) (error : JsError).

Global Instance Event_eq_dec : EqDecision Event.
Proof. solve_decision. Defined.

(** One scheduler together with the objects it reaches: the store of scheduled
    tasks, the queue of references into it, the log of emitted events (oldest
    first), the static [_ID_COUNTER], and the log of continuation calls (which
    continuation was called with which outcome, oldest first). *)
Record World : Type := {
  tasks : gmap nat ScheduledTask;
  _queue : list nat;
  emitted : list Event;
  _ID_COUNTER : nat;
  called : list (nat * Outcome)
}.

Definition with_tasks (m : gmap nat ScheduledTask) (w : World) : World :=
  {| tasks := m; _queue := _queue w; emitted := emitted w;
     _ID_COUNTER := _ID_COUNTER w; called := called w |}.

Definition with_queue (q : list nat) (w : World) : World :=
  {| tasks := tasks w; _queue := q; emitted := emitted w;
     _ID_COUNTER := _ID_COUNTER w; called := called w |}.

Definition with_emitted (l : list Event) (w : World) : World :=
  {| tasks := tasks w; _queue := _queue w; emitted := l;
     _ID_COUNTER := _ID_COUNTER w; called := called w |}.

Definition with_counter (n : nat) (w : World) : World :=
  {| tasks := tasks w; _queue := _queue w; emitted := emitted w;
     _ID_COUNTER := n; called := called w |}.

Definition with_called (l : list (nat * Outcome)) (w : World) : World :=
  {| tasks := tasks w; _queue := _queue w; emitted := emitted w;
     _ID_COUNTER := _ID_COUNTER w; called := l |}.

(** [new Scheduler()] in a fresh process. *)
Definition new_Scheduler : World :=
  {| tasks := ∅; _queue := []; emitted := []; _ID_COUNTER := 0%nat; called := [] |}.

(** ** Methods as state transformers that may throw *)

(** A method call runs on the world and either throws or returns; what it
    changed before throwing stays changed. *)
Definition M (A : Type) : Type := World -> (JsError + A) * World.

Global Instance M_ret : MRet M := fun A a w => (inr a, w).
Global Instance M_bind : MBind M := fun A B k m w =>
  match m w with
  | (inl e, w') => (inl e, w')
  | (inr a, w') => k a w'
  end.

Definition throw {A : Type} (e : JsError) : M A := fun w => (inl e, w).

(** [try { m } catch (error) { h error }] *)
Definition try_catch {A : Type} (m : M A) (h : JsError -> M A) : M A := fun w =>
  match m w with
  | (inl e, w') => h e w'
  | (inr a, w') => (inr a, w')
  end.

Definition update (f : World -> World) : M unit := fun w => (inr tt, f w).

(** Following a reference.  References of the source cannot dangle; an id
    without a task behaves like a method call on [undefined]. *)
Definition deref (i : nat) : M ScheduledTask := fun w =>
  match tasks w !! i with
  | Some t => (inr t, w)
  | None => (inl (JsErr "TypeError: undefined is not an object"), w)
  end.

(** Assigning to fields of the task behind a reference. *)
Definition assign (i : nat) (f : ScheduledTask -> ScheduledTask) : M unit :=
  update (fun w => with_tasks (alter f i (tasks w)) w).

(** [this.emit(...)] *)
Definition emit (e : Event) : M unit :=
  update (fun w => with_emitted (emitted w ++ [e]) w).

(** Where the result of running is all that matters. *)
Definition exec {A : Type} (m : M A) (w : World) : World := snd (m w).

(** ** The promise face of a scheduled task *)

(** Calling [this._resolve(x)] or [this._reject(x)] (scheduler.ts 203, 224,
    248).  With [_promise] still [null] both are [NOOP]; otherwise they are
    the resolving functions of [_promise], which settle it once and call the
    continuations waiting for it. *)
Definition call_resolver (i : nat) (o : Outcome) : M unit :=
  t ← deref i;
  match _promise t with
  | None => mret tt
  | Some p =>
      match settled p with
      | Some _ => mret tt
      | None =>
          assign i (with_promise (Some {| settled := Some o; reactions := [] |}));;
          update (fun w =>
            with_called (called w ++ map (fun k => (k, o)) (reactions p)) w)
      end
  end.

Definition _resolve (i : nat) (v : Value) : M unit := call_resolver i (Fulfilled v).
Definition _reject (i : nat) (e : JsError) : M unit := call_resolver i (Rejected e).

(** The methods copied from [Promise.prototype] (scheduler.ts 291-306), here
    [then] with the continuation [k]: the promise is made on first use, and
    the call is passed on to it.  A settled promise calls the continuation
    with its outcome, a pending one keeps it. *)
Definition then_ (i : nat) (k : nat) : M unit :=
  t ← deref i;
  let p := match _promise t with
           | None => new_Promise
           | Some p => p
           end in
  match settled p with
  | Some o =>
      assign i (with_promise (Some p));;
      update (fun w => with_called (called w ++ [(k, o)]) w)
  | None =>
      assign i (with_promise
        (Some {| settled := None; reactions := reactions p ++ [k] |}))
  end.

(** ** Scheduler *)

(** [summary()] of [calculate(task)] inside [compare] (scheduler.ts 96-106). *)
Definition summary (now : Z) (task : ScheduledTask) : Qc :=
  (default 0 (priority task) + Qc_of_Z (now - scheduled task) / Qc_of_Z 5000)%Qc.

(** [Scheduler.compare] (scheduler.ts 93-112), with [now] for [Date.now()]. *)
Definition compare (now : Z) (first second : ScheduledTask) : Qc :=
  (summary now first - summary now second)%Qc.

(** The comparator handed to the queue, on references. *)
Definition comparator (now : Z) (m : gmap nat ScheduledTask) (a b : nat) : Qc :=
  match m !! a, m !! b with
  | Some first, Some second => compare now first second
  | _, _ => 0%Qc
  end.

(** Modelled from the spec: the queue is an instance of the package
    [priorityqueue], which is not part of the repository.  Its [pop] removes
    and returns an entry that the comparator ranks highest ("higher score
    wins"); [push] adds an entry; [length] counts them.  The queue is kept as
    the list of its entries; among entries that compare equal the one pushed
    first is taken (the order among equals is left open). *)
Fixpoint pq_pop {A : Type} (cmp : A -> A -> Qc) (q : list A) : option (A * list A) :=
  match q with
  | [] => None
  | x :: q' =>
      match pq_pop cmp q' with
      | None => Some (x, [])
      | Some (y, rest) =>
          if decide (0 ≤ cmp x y)%Qc then Some (x, q') else Some (y, x :: rest)
      end
  end.

Definition pq_push {A : Type} (x : A) (q : list A) : list A := q ++ [x].

(** [Scheduler.schedule] (scheduler.ts 52-57). *)
Definition schedule (now : Z) (task : Task) (options : ScheduleOptions) : M nat :=
  fun w =>
    let i := _ID_COUNTER w in
    let scheduled := new_ScheduledTask task options now i in
    (inr i,
     with_emitted (emitted w ++ [EvSchedule i])
       (with_queue (pq_push i (_queue w))
         (with_counter (S i) (with_tasks (<[i := scheduled]> (tasks w)) w)))).

(** The handle [schedule] returns is the task just made. *)
Definition scheduled_handle (w : World) : nat := _ID_COUNTER w.

(** [task.state === TaskState.QUEUED] for the task behind a reference. *)
Definition is_queued (m : gmap nat ScheduledTask) (i : nat) : bool :=
  match m !! i with
  | Some t => bool_decide (state t = QUEUED)
  | None => false
  end.

Definition inspect {A : Type} (a : A) : {b : A | a = b} := exist _ a eq_refl.

Lemma pq_pop_length {A : Type} (cmp : A -> A -> Qc) (q : list A) x rest :
  pq_pop cmp q = Some (x, rest) -> length q = S (length rest).
Proof.
  revert x rest. induction q as [|y q IH]; intros x rest; simpl; [discriminate|].
  destruct (pq_pop cmp q) as [[z r]|] eqn:E.
  - specialize (IH _ _ eq_refl). case_decide; intros [= <- <-]; simpl; lia.
  - destruct q; [|simpl in E; destruct (pq_pop cmp q) as [[? ?]|]; [case_decide|]; discriminate].
    intros [= <- <-]. reflexivity.
Qed.

(** The loop of [Scheduler.next] (scheduler.ts 80-84) on the queue. *)
Equations? next_loop (cmp : nat -> nat -> Qc) (queued : nat -> bool) (q : list nat)
    : option nat * list nat by wf (length q) lt :=
  next_loop cmp queued q with inspect (pq_pop cmp q) := {
    | exist _ None _ := (None, q);
    | exist _ (Some (task, rest)) Hpop with queued task := {
        | true := (Some task, rest);
        | false := next_loop cmp queued rest } }.
Proof. apply pq_pop_length in Hpop. lia. Qed.

(** [Scheduler.next] (scheduler.ts 79-85). *)
Definition next (now : Z) : M (option nat) := fun w =>
  let r := next_loop (comparator now (tasks w)) (is_queued (tasks w)) (_queue w) in
  (inr (fst r), with_queue (snd r) w).

(** [Scheduler._reschedule] (scheduler.ts 120-123). *)
Definition _reschedule (i : nat) : M unit :=
  update (fun w => with_queue (pq_push i (_queue w)) w);;
  emit (EvSchedule i).

(** The body of [Scheduler.cancel] (scheduler.ts 63-71), with the task's own
    [cancel] passed in: the two methods call each other. *)
Definition Scheduler_cancel_with (task_cancel : nat -> M unit) (i : nat) : M unit :=
  t ← deref i;
  if decide (state t ≠ CANCELLED) then task_cancel i else mret tt.

(** ** Scheduled task *)

(** [ScheduledTask._finishSuccess] (scheduler.ts 201-204). *)
Definition _finishSuccess (i : nat) (v : Value) : M unit :=
  assign i (with_state COMPLETED);;
  _resolve i v.

(** [ScheduledTask._finishError] (scheduler.ts 212-226). *)
Definition _finishError (i : nat) (error : JsError) : M unit :=
  t ← deref i;
  if decide (0 < _retries t) then
    assign i (with_state QUEUED);;
    assign i consume_retry;;
    _reschedule i;;
    emit (EvFailedAttempt i error)
  else
    assign i (with_state FAILED);;
    _reject i error;;
    emit (EvFailedTask i error).

(** [ScheduledTask.cancel] (scheduler.ts 241-249).  The call back into
    [Scheduler.cancel] finds the task CANCELLED already and so never calls
    [cancel] again (see [cancel_reentry]); the method passed for that call is
    therefore never run. *)
Definition ScheduledTask_cancel (i : nat) : M unit :=
  t ← deref i;
  if decide (state t ≠ QUEUED) then
    throw (JsErr ("Attempted to cancel a " +:+ toLowerCase (state t) +:+ " task."))
  else
    assign i (with_state CANCELLED);;
    Scheduler_cancel_with (fun _ => mret tt) i;;
    _reject i (JsErr "Event cancelled.").

(** [Scheduler.cancel] (scheduler.ts 63-71). *)
Definition Scheduler_cancel (i : nat) : M unit :=
  Scheduler_cancel_with ScheduledTask_cancel i.

(** What [run] hands back: the value of a synchronous task, or a promise. *)
Inductive RunResult : Type :=
  | RunValue (v : Value)
  | RunPromise.

(** [ScheduledTask.run] (scheduler.ts 254-287) up to its return.  For an
    asynchronous executor the returned promise is recorded in [inflight];
    [run_callback] is what happens when it calls back. *)
Definition run (i : nat) : M RunResult :=
  t ← deref i;
  if decide (state t ≠ QUEUED) then
    throw (JsErr ("Attempted to start a " +:+ toLowerCase (state t) +:+ " task."))
  else
    assign i (with_state RUNNING);;
    assign i count_invocation;;
    match executor (_task t) (data t) (invocations t) with
    | Returns v => _finishSuccess i v;; mret (RunValue v)
    | Throws error => _finishError i error;; throw error
    | Async o => assign i (with_inflight (Some o));; mret RunPromise
    end.

(** The two functions passed to [result.then] (scheduler.ts 273-279). *)
Definition run_callback (i : nat) : M unit :=
  t ← deref i;
  match inflight t with
  | None => mret tt
  | Some o =>
      assign i (with_inflight None);;
      match o with
      | Fulfilled v => _finishSuccess i v
      | Rejected error => _finishError i error
      end
  end.

(** [await task.run()] inside [try { } catch { }] ([Worker._main],
    scheduler.ts 631-636): the attempt is run to its end, and whatever it
    throws is swallowed. *)
Definition await_run (i : nat) : M unit :=
  try_catch
    (r ← run i;
     match r with
     | RunValue _ => mret tt
     | RunPromise => run_callback i
     end)
    (fun _ => mret tt).

(** One turn of the worker loop with no stall pending: take the next task
    and, if there is one, run a single attempt of it. *)
Definition dispatch (now : Z) : M unit :=
  task ← next now;
  match task with
  | None => mret tt
  | Some i => await_run i
  end.

(** ** Workers *)

Module WorkerState.
(** [WorkerState] of worker.ts (scheduler.ts 645-667). *)
Inductive t : Type := IDLE | RUNNING | STALLED | STOPPED.

Global Instance eq_dec : EqDecision t.
Proof. solve_decision. Defined.

Definition toLowerCase (s : t) : string :=
  match s with
  | IDLE => "idle"
  | RUNNING => "running"
  | STALLED => "stalled"
  | STOPPED => "stopped"
  end.
End WorkerState.

(** The fields of [Worker] that its synchronous methods read and write.
    [_stall] holds the pending stall timeout, by the time it is due.
    [_wakeFunction] and [_stallPromise] only serve to resume a suspended loop
    in a later turn of the event loop and carry no state of their own here. *)
Record Worker : Type := {
  _running : bool;
  _stall : option Z;
  _state : WorkerState.t
}.

(** [new Worker(scheduler)] *)
Definition new_Worker : Worker :=
  {| _running := false; _stall := None; _state := WorkerState.STOPPED |}.

Definition with_worker_state (s : WorkerState.t) (w : Worker) : Worker :=
  {| _running := _running w; _stall := _stall w; _state := s |}.

(** [Worker.stall] (scheduler.ts 481-505): arm a stall for [milliseconds]. *)
Definition Worker_stall (now milliseconds : Z) (w : Worker) : Worker :=
  if decide (milliseconds ≤ 0) then w
  else {| _running := _running w; _stall := Some (now + milliseconds);
          _state := _state w |}.

(** [Worker.stop]: throws unless the worker is running. *)
Definition Worker_stop (w : Worker) : JsError + Worker :=
  if negb (_running w) then
    inl (JsErr ("Attempted to stop a " +:+ WorkerState.toLowerCase (_state w) +:+ " worker."))
  else
    inr {| _running := false; _stall := None; _state := _state w |}.

(** [Worker.tryStop]: [stop] is only called on a running worker, where it
    does not throw. *)
Definition Worker_tryStop (w : Worker) : bool * Worker :=
  if negb (_running w) then (false, w)
  else match Worker_stop w with
       | inr w' => (true, w')
       | inl _ => (true, w)
       end.

(** What the [finally] handler of a finished loop does ([Worker.start],
    scheduler.ts 535-539). *)
Definition Worker_finally (w : Worker) : Worker :=
  {| _running := false; _stall := None; _state := WorkerState.STOPPED |}.

(** ** Request pool and throttle policy *)

(** [SuspendPolicy] with the [throttleLimit] of [AbstractPolicy]. *)
Record SuspendPolicy : Type := {
  throttleLimit : option Z;
  _rate : Z
}.

(** The constructors of [AbstractPolicy] and [SuspendPolicy]
    (throttle-policy.ts 18-20, 83-86). *)
Definition new_SuspendPolicy (opt_throttleLimit opt_rate : option Z) : SuspendPolicy :=
  {| throttleLimit := opt_throttleLimit; _rate := default 5000 opt_rate |}.

(** [pool.metadata.throttle]: the recorded [until], the armed timeout (by the
    time it is due) and the armed interval (by its period).  An absent
    property and [null] are both [None]: the source tests them with [== null]
    and [!= null]. *)
Record ThrottleState : Type := {
  until : option Z;
  timer : option Z;
  interval : option Z
}.

(** A request: its cache key, whether it may be cached, its retry budget, and
    how its (asynchronous) [run] settles at each call. *)
Record Request : Type := {
  key : string;
  cacheable : bool;
  retries : Z;
  request_run : nat -> Outcome
}.

(** A [Request] seen as a [Task]: [run] is declared [async], so every call
    returns a promise. *)
Definition Request_task (r : Request) : Task :=
  {| executor := fun _ n => Async (request_run r n); task_priority := None |}.

(** Modelled from the spec: the cache is an instance of the package
    [lru-cache], which is not part of the repository: a map from cache keys to
    scheduled-task handles, bounded by entry count and age.  The bounds are
    left out; an entry that [get] finds is one that is in the map. *)
Record RequestPool : Type := {
  _workers : list Worker;
  _scheduler : World;
  _cache : gmap string nat;
  metadata_throttle : ThrottleState;
  _throttlePolicy : SuspendPolicy
}.

Definition with_workers (l : list Worker) (p : RequestPool) : RequestPool :=
  {| _workers := l; _scheduler := _scheduler p; _cache := _cache p;
     metadata_throttle := metadata_throttle p; _throttlePolicy := _throttlePolicy p |}.

Definition with_scheduler (s : World) (p : RequestPool) : RequestPool :=
  {| _workers := _workers p; _scheduler := s; _cache := _cache p;
     metadata_throttle := metadata_throttle p; _throttlePolicy := _throttlePolicy p |}.

Definition with_cache (c : gmap string nat) (p : RequestPool) : RequestPool :=
  {| _workers := _workers p; _scheduler := _scheduler p; _cache := c;
     metadata_throttle := metadata_throttle p; _throttlePolicy := _throttlePolicy p |}.

Definition with_throttle (t : ThrottleState) (p : RequestPool) : RequestPool :=
  {| _workers := _workers p; _scheduler := _scheduler p; _cache := _cache p;
     metadata_throttle := t; _throttlePolicy := _throttlePolicy p |}.

(** [AbstractPolicy.canThrottle] (throttle-policy.ts 30-33); [throttle_until]
    is [throttle.until.getTime()]. *)
Definition canThrottle (throttle_until : Z) (pool : RequestPool) : bool :=
  match until (metadata_throttle pool) with
  | None => true
  | Some pool_until => bool_decide (pool_until > throttle_until)
  end.

(** [SuspendPolicy.doThrottle] (throttle-policy.ts 88-124) up to arming the
    new timeout; what the timeout does when it fires is [timer_fires]. *)
Definition doThrottle (now : Z) (throttle_until : Z) (pool : RequestPool) : RequestPool :=
  with_throttle
    {| until := Some throttle_until;
       interval := None;
       timer := Some (now + (throttle_until - now)) |}
    (with_workers (map (fun worker => snd (Worker_tryStop worker)) (_workers pool)) pool).

(** [AbstractPolicy.throttle] (throttle-policy.ts 44-55). *)
Definition throttle (now : Z) (throttle_until : Z) (pool : RequestPool) : RequestPool :=
  let ms := throttle_until - now in
  if bool_decide (ms ≤ 0) || negb (canThrottle throttle_until pool) then pool
  else
    let limited :=
      match throttleLimit (_throttlePolicy pool) with
      | Some limit => if bool_decide (ms > limit) then now + limit else throttle_until
      | None => throttle_until
      end in
    doThrottle now limited pool.

(** [RequestPool._tryThrottle] (part_002 65-69). *)
Definition _tryThrottle (now : Z) (error : JsError) (pool : RequestPool) : RequestPool :=
  match error with
  | ThrottleError throttle_until => throttle now throttle_until pool
  | JsErr _ => pool
  end.

(** The listeners the pool's constructor puts on its scheduler
    (part_002 53-54). *)
Definition listener (now : Z) (pool : RequestPool) (e : Event) : RequestPool :=
  match e with
  | EvFailedAttempt _ error => _tryThrottle now error pool
  | EvFailedTask _ error => _tryThrottle now error pool
  | EvSchedule _ => pool
  end.

(** A method of the scheduler or of a task called inside a pool: the
    listeners hear what it emits.  Both emits they listen to are the last
    thing [_finishError] does, so hearing them after the call changes
    nothing. *)
Definition in_pool {A : Type} (now : Z) (m : M A) (pool : RequestPool)
    : (JsError + A) * RequestPool :=
  let heard := length (emitted (_scheduler pool)) in
  let r := m (_scheduler pool) in
  (fst r,
   foldl (listener now) (with_scheduler (snd r) pool) (drop heard (emitted (snd r)))).

(** ** The worker loop inside a pool *)

(** Workers of a pool are named by their position in [pool.workers]. *)
Definition alter_worker (f : Worker -> Worker) (j : nat) (pool : RequestPool) : RequestPool :=
  with_workers (alter f j (_workers pool)) pool.

(** How one turn of the loop of [Worker._main] ends: the loop is left, the
    loop is suspended at an [await], or the next turn follows at once. *)
Inductive Turn : Type :=
  | Exits (pool : RequestPool)
  | Awaits (pool : RequestPool)
  | Continues (pool : RequestPool).

(** One turn of [while (this._running) { ... }] in [Worker._main]
    (scheduler.ts 616-637), for the worker at position [j]. *)
Definition _main_turn (now : Z) (j : nat) (pool : RequestPool) : Turn :=
  match _workers pool !! j with
  | None => Exits pool
  | Some w =>
      if negb (_running w) then Exits pool
      else if bool_decide (_stall w ≠ None) then
        Awaits (alter_worker (with_worker_state WorkerState.STALLED) j pool)
      else
        let pool := alter_worker (with_worker_state WorkerState.IDLE) j pool in
        match next now (_scheduler pool) with
        | (inr None, s) => Awaits (with_scheduler s pool)
        | (inr (Some task), s) =>
            let pool :=
              alter_worker (with_worker_state WorkerState.RUNNING) j
                (with_scheduler s pool) in
            match in_pool now (run task) pool with
            | (inr _, pool) => Awaits pool
            | (inl _, pool) => Continues pool
            end
        | (inl _, s) => Exits (with_scheduler s pool)
        end
  end.

(** The loop comes to an end because every turn that is followed by another
    one has used up a queue entry or a retry. *)
Definition entry_weight (m : gmap nat ScheduledTask) (i : nat) : nat :=
  S (Z.to_nat (from_option _retries 0 (m !! i))).

Definition queue_weight (w : World) : nat :=
  sum_list_with (entry_weight (tasks w)) (_queue w).

(** ** Reasoning about method calls *)

Lemma bind_unfold {A B : Type} (m : M A) (k : A -> M B) (w : World) :
  (m ≫= k) w = match m w with
               | (inl e, w') => (inl e, w')
               | (inr a, w') => k a w'
               end.
Proof. reflexivity. Qed.

Lemma deref_Some (i : nat) (t : ScheduledTask) (w : World) :
  tasks w !! i = Some t -> deref i w = (inr t, w).
Proof. intros H. unfold deref. by rewrite H. Qed.

Lemma deref_None (i : nat) (w : World) :
  tasks w !! i = None ->
  deref i w = (inl (JsErr "TypeError: undefined is not an object"), w).
Proof. intros H. unfold deref. by rewrite H. Qed.

Lemma assign_Some (i : nat) (f : ScheduledTask -> ScheduledTask) (t : ScheduledTask) (w : World) :
  tasks w !! i = Some t ->
  assign i f w = (inr tt, with_tasks (<[i := f t]> (tasks w)) w).
Proof.
  intros H. unfold assign, update. f_equal. f_equal.
  apply map_eq. intros j. destruct (decide (i = j)) as [<-|Hne].
  - by rewrite lookup_alter_eq, lookup_insert_eq, H.
  - by rewrite lookup_alter_ne, lookup_insert_ne.
Qed.

Ltac step :=
  first
    [ rewrite bind_unfold
    | erewrite deref_Some by (simpl; first [eassumption | apply lookup_insert_eq])
    | erewrite assign_Some by (simpl; first [eassumption | apply lookup_insert_eq])
    | progress (unfold emit, update, throw, with_tasks, with_queue, with_emitted,
                  with_counter, with_called, pq_push)
    | progress (cbn [tasks _queue emitted _ID_COUNTER called mret M_ret fst snd])
    | rewrite insert_insert_eq ].

(** What resolving or rejecting does to the promise of a task, and which
    continuations it calls. *)
Definition settle_promise (o : Outcome) (p : option JsPromise) : option JsPromise :=
  match p with
  | Some q => match settled q with
              | None => Some {| settled := Some o; reactions := [] |}
              | Some _ => p
              end
  | None => None
  end.

Definition notified (o : Outcome) (p : option JsPromise) : list (nat * Outcome) :=
  match p with
  | Some q => match settled q with
              | None => map (fun k => (k, o)) (reactions q)
              | Some _ => []
              end
  | None => []
  end.

Lemma with_promise_id (t : ScheduledTask) : with_promise (_promise t) t = t.
Proof. by destruct t. Qed.

Lemma call_resolver_spec (i : nat) (o : Outcome) (t : ScheduledTask) (w : World) :
  tasks w !! i = Some t ->
  call_resolver i o w =
    (inr tt,
     with_called (called w ++ notified o (_promise t))
       (with_tasks (<[i := with_promise (settle_promise o (_promise t)) t]> (tasks w)) w)).
Proof.
  intros Ht. unfold call_resolver. repeat step.
  unfold settle_promise, notified.
  destruct (_promise t) as [p|] eqn:Hp.
  - destruct (settled p) eqn:Hs; repeat step.
    + rewrite <- Hp, with_promise_id, insert_id, app_nil_r by done. by destruct w.
    + done.
  - repeat step.
    rewrite <- Hp, with_promise_id, insert_id, app_nil_r by done. by destruct w.
Qed.

Lemma _finishSuccess_spec (i : nat) (v : Value) (t : ScheduledTask) (w : World) :
  tasks w !! i = Some t ->
  _finishSuccess i v w =
    (inr tt,
     with_called (called w ++ notified (Fulfilled v) (_promise t))
       (with_tasks
          (<[i := with_promise (settle_promise (Fulfilled v) (_promise t))
                    (with_state COMPLETED t)]> (tasks w)) w)).
Proof.
  intros Ht. unfold _finishSuccess, _resolve. repeat step.
  erewrite call_resolver_spec by apply lookup_insert_eq.
  repeat step. done.
Qed.

Lemma _finishError_retry (i : nat) (e : JsError) (t : ScheduledTask) (w : World) :
  tasks w !! i = Some t ->
  0 < _retries t ->
  _finishError i e w =
    (inr tt,
     with_emitted (emitted w ++ [EvSchedule i; EvFailedAttempt i e])
       (with_queue (_queue w ++ [i])
          (with_tasks (<[i := consume_retry (with_state QUEUED t)]> (tasks w)) w))).
Proof.
  intros Ht Hr. unfold _finishError, _reschedule. repeat step.
  rewrite decide_True by done. repeat step.
  by rewrite <- app_assoc.
Qed.

Lemma _finishError_final (i : nat) (e : JsError) (t : ScheduledTask) (w : World) :
  tasks w !! i = Some t ->
  ¬ 0 < _retries t ->
  _finishError i e w =
    (inr tt,
     with_emitted (emitted w ++ [EvFailedTask i e])
       (with_called (called w ++ notified (Rejected e) (_promise t))
          (with_tasks
             (<[i := with_promise (settle_promise (Rejected e) (_promise t))
                       (with_state FAILED t)]> (tasks w)) w))).
Proof.
  intros Ht Hr. unfold _finishError, _reject. repeat step.
  rewrite decide_False by done. repeat step.
  erewrite call_resolver_spec by apply lookup_insert_eq.
  repeat step. done.
Qed.

Lemma run_not_queued (i : nat) (t : ScheduledTask) (w : World) :
  tasks w !! i = Some t ->
  state t ≠ QUEUED ->
  run i w =
    (inl (JsErr ("Attempted to start a " +:+ toLowerCase (state t) +:+ " task.")), w).
Proof.
  intros Ht Hs. unfold run. repeat step. by rewrite decide_True by done.
Qed.

(** The task as the executor leaves it: RUNNING, one more call counted. *)
Definition started (t : ScheduledTask) : ScheduledTask :=
  count_invocation (with_state RUNNING t).

Lemma run_queued (i : nat) (t : ScheduledTask) (w : World) :
  tasks w !! i = Some t ->
  state t = QUEUED ->
  run i w =
    let w1 := with_tasks (<[i := started t]> (tasks w)) w in
    match executor (_task t) (data t) (invocations t) with
    | Returns v => (inr (RunValue v), snd (_finishSuccess i v w1))
    | Throws e => (inl e, snd (_finishError i e w1))
    | Async o =>
        (inr RunPromise,
         with_tasks (<[i := with_inflight (Some o) (started t)]> (tasks w)) w)
    end.
Proof.
  intros Ht Hs. unfold run. repeat step.
  rewrite decide_False by (by rewrite Hs; intros []).
  repeat step. fold (started t).
  destruct (executor _ _ _) as [v|e|o]; repeat step.
  - erewrite _finishSuccess_spec by apply lookup_insert_eq. done.
  - destruct (decide (0 < _retries (started t))).
    + erewrite _finishError_retry by first [apply lookup_insert_eq | done]. done.
    + erewrite _finishError_final by first [apply lookup_insert_eq | done]. done.
  - done.
Qed.

(** ** The queue *)

Lemma pq_pop_perm {A : Type} (cmp : A -> A -> Qc) (q : list A) x rest :
  pq_pop cmp q = Some (x, rest) -> q ≡ₚ x :: rest.
Proof.
  revert x rest. induction q as [|y q IH]; intros x rest; simpl; [discriminate|].
  destruct (pq_pop cmp q) as [[z r]|] eqn:E.
  - specialize (IH _ _ eq_refl). case_decide; intros [= <- <-]; [done|].
    rewrite IH. apply perm_swap.
  - destruct q as [|y' q]; [by intros [= <- <-]|].
    simpl in E. destruct (pq_pop cmp q) as [[? ?]|]; [case_decide|]; discriminate.
Qed.

Lemma pq_pop_None {A : Type} (cmp : A -> A -> Qc) (q : list A) :
  pq_pop cmp q = None -> q = [].
Proof.
  destruct q as [|y q]; [done|]. simpl.
  destruct (pq_pop cmp q) as [[? ?]|]; [case_decide|]; discriminate.
Qed.

(** What the loop of [next] returns: the entries it has popped and thrown
    away were not QUEUED, the one it returns is, and nothing else has left
    the queue. *)
Lemma next_loop_Some cmp queued q i rest :
  next_loop cmp queued q = (Some i, rest) ->
  queued i = true ∧
  ∃ discarded, q ≡ₚ discarded ++ i :: rest ∧ Forall (fun j => queued j = false) discarded.
Proof.
  funelim (next_loop cmp queued q).
  - discriminate.
  - intros [= <- <-]. split; [done|]. exists []. split; [|constructor].
    by eapply pq_pop_perm.
  - intros Hrec.
    match goal with IH : forall _ _, _ -> _ ∧ _ |- _ =>
      destruct (IH _ _ Hrec) as [Hq (d & Hperm & Hd)] end.
    split; [done|]. exists (task :: d). split; [|by constructor].
    match goal with Hpop : pq_pop _ _ = Some _ |- _ =>
      rewrite (pq_pop_perm _ _ _ _ Hpop), Hperm end.
    done.
Qed.

Lemma next_loop_None cmp queued q rest :
  next_loop cmp queued q = (None, rest) ->
  rest = [] ∧ Forall (fun j => queued j = false) q.
Proof.
  funelim (next_loop cmp queued q).
  - intros [= <-].
    match goal with Hpop : pq_pop _ _ = None |- _ =>
      pose proof (pq_pop_None _ _ Hpop) as Hq end.
    by rewrite Hq.
  - discriminate.
  - intros Hrec.
    match goal with IH : forall _, _ -> _ ∧ _ |- _ =>
      destruct (IH _ Hrec) as [-> Hd] end.
    split; [done|].
    match goal with Hpop : pq_pop _ _ = Some _ |- _ =>
      rewrite (pq_pop_perm _ _ _ _ Hpop) end.
    by constructor.
Qed.

(** ** The worker loop comes to an end *)

Lemma sum_list_with_le {A : Type} (f g : A -> nat) (l : list A) :
  (forall x, (f x <= g x)%nat) -> (sum_list_with f l <= sum_list_with g l)%nat.
Proof.
  intros Hfg. induction l as [|x l IH]; simpl; [lia|]. specialize (Hfg x). lia.
Qed.

Lemma entry_weight_insert_le (m : gmap nat ScheduledTask) (i : nat) (t t' : ScheduledTask) (k : nat) :
  m !! i = Some t -> _retries t' ≤ _retries t ->
  (entry_weight (<[i := t']> m) k <= entry_weight m k)%nat.
Proof.
  intros Ht Hle. unfold entry_weight. destruct (decide (i = k)) as [<-|Hne].
  - rewrite lookup_insert_eq, Ht. simpl. lia.
  - by rewrite lookup_insert_ne.
Qed.

Lemma entry_weight_Some (m : gmap nat ScheduledTask) (i : nat) (t : ScheduledTask) :
  m !! i = Some t -> entry_weight m i = S (Z.to_nat (_retries t)).
Proof. intros Ht. unfold entry_weight. by rewrite Ht. Qed.

Lemma next_weight (now : Z) (w : World) (i : nat) :
  fst (next now w) = inr (Some i) ->
  (queue_weight (snd (next now w)) + entry_weight (tasks w) i <= queue_weight w)%nat.
Proof.
  unfold next, queue_weight. simpl.
  destruct (next_loop _ _ _) as [o rest] eqn:E. simpl. intros [= ->].
  apply next_loop_Some in E as (_ & d & Hperm & _).
  rewrite Hperm, sum_list_with_app. cbn [sum_list_with]. lia.
Qed.

Lemma queue_weight_insert_le (m : gmap nat ScheduledTask) (i : nat) (t t' : ScheduledTask) (q : list nat) :
  m !! i = Some t -> _retries t' ≤ _retries t ->
  (sum_list_with (entry_weight (<[i := t']> m)) q <= sum_list_with (entry_weight m) q)%nat.
Proof.
  intros Ht Hle. apply sum_list_with_le. intros k. by eapply entry_weight_insert_le.
Qed.

Ltac weigh_insert Ht :=
  match goal with
  | |- context [sum_list_with (entry_weight (<[?i := ?x]> ?m)) ?q] =>
      let H := fresh "Hle" in
      pose proof (queue_weight_insert_le m i _ x q Ht) as H;
      simpl in H; specialize (H ltac:(lia))
  end.

Lemma run_weight (i : nat) (w : World) :
  (queue_weight (snd (run i w)) < queue_weight w + entry_weight (tasks w) i)%nat.
Proof.
  assert (Hpos : (0 < entry_weight (tasks w) i)%nat) by (unfold entry_weight; lia).
  destruct (tasks w !! i) as [t|] eqn:Ht.
  2:{ unfold run. rewrite bind_unfold, deref_None by done. simpl. lia. }
  destruct (decide (state t = QUEUED)) as [Hs|Hs].
  2:{ rewrite (run_not_queued _ _ _ Ht Hs). simpl. lia. }
  rewrite (run_queued _ _ _ Ht Hs). cbv zeta.
  destruct (executor _ _ _) as [v|e|o]; simpl.
  - erewrite _finishSuccess_spec by apply lookup_insert_eq.
    unfold queue_weight. simpl. rewrite insert_insert_eq.
    weigh_insert Ht. lia.
  - destruct (decide (0 < _retries (started t))) as [Hr|Hr].
    + erewrite _finishError_retry by first [apply lookup_insert_eq | done].
      unfold queue_weight. simpl. rewrite insert_insert_eq, sum_list_with_app. cbn [sum_list_with].
      weigh_insert Ht.
      rewrite (entry_weight_Some _ _ _ Ht) in *.
      rewrite (entry_weight_Some _ i _ (lookup_insert_eq _ _ _)). simpl in *. lia.
    + erewrite _finishError_final by first [apply lookup_insert_eq | done].
      unfold queue_weight. simpl. rewrite insert_insert_eq.
      weigh_insert Ht. lia.
  - unfold queue_weight. simpl. weigh_insert Ht. lia.
Qed.

Lemma throttle_scheduler (now u : Z) (pool : RequestPool) :
  _scheduler (throttle now u pool) = _scheduler pool.
Proof. unfold throttle. by case_match. Qed.

Lemma listener_scheduler (now : Z) (pool : RequestPool) (e : Event) :
  _scheduler (listener now pool e) = _scheduler pool.
Proof.
  destruct e as [|? [|]|? [|]]; simpl; try done; apply throttle_scheduler.
Qed.

Lemma listeners_scheduler (now : Z) (l : list Event) (pool : RequestPool) :
  _scheduler (foldl (listener now) pool l) = _scheduler pool.
Proof.
  revert pool. induction l as [|e l IH]; intros pool; simpl; [done|].
  by rewrite IH, listener_scheduler.
Qed.

Lemma in_pool_scheduler {A : Type} (now : Z) (m : M A) (pool : RequestPool) :
  _scheduler (snd (in_pool now m pool)) = snd (m (_scheduler pool)).
Proof. unfold in_pool. simpl. by rewrite listeners_scheduler. Qed.

Lemma alter_worker_scheduler (f : Worker -> Worker) (j : nat) (pool : RequestPool) :
  _scheduler (alter_worker f j pool) = _scheduler pool.
Proof. reflexivity. Qed.

Lemma next_tasks (now : Z) (w : World) : tasks (snd (next now w)) = tasks w.
Proof. reflexivity. Qed.

Lemma _main_turn_weight (now : Z) (j : nat) (pool pool' : RequestPool) :
  _main_turn now j pool = Continues pool' ->
  (queue_weight (_scheduler pool') < queue_weight (_scheduler pool))%nat.
Proof.
  unfold _main_turn. destruct (_workers pool !! j) as [w|]; [|discriminate].
  destruct (negb (_running w)); [discriminate|].
  case_bool_decide; [discriminate|].
  cbv zeta. rewrite alter_worker_scheduler.
  pose proof (next_weight now (_scheduler pool)) as Hnext.
  pose proof (next_tasks now (_scheduler pool)) as Htasks.
  destruct (next now (_scheduler pool)) as [[e|[i|]] s]; try discriminate.
  simpl in Hnext, Htasks. specialize (Hnext i eq_refl).
  match goal with |- context [in_pool now (run i) ?p] =>
    pose proof (in_pool_scheduler now (run i) p) as Hsch;
    destruct (in_pool now (run i) p) as [[e|r] p'] end; [|discriminate].
  intros [= <-]. simpl in Hsch. rewrite Hsch.
  pose proof (run_weight i s) as Hrun.
  rewrite Htasks in Hrun. lia.
Qed.

(** ** Starting a worker of a pool *)

(** [Worker._main] from its call to its first [await] (or its end). *)
Equations? _main_sync (now : Z) (j : nat) (pool : RequestPool) : RequestPool
    by wf (queue_weight (_scheduler pool)) lt :=
  _main_sync now j pool with inspect (_main_turn now j pool) := {
    | exist _ (Exits pool') _ := pool';
    | exist _ (Awaits pool') _ := pool';
    | exist _ (Continues pool') Hturn := _main_sync now j pool' }.
Proof. by eapply _main_turn_weight. Qed.

(** [Worker.start] (scheduler.ts 523-544) for the worker at position [j] of
    the pool.
    The handlers put on the promise of [_main] run in a later turn of the
    event loop ([Worker_finally]); [_wake] resumes a suspended loop and
    changes no field that is kept here. *)
Definition Worker_start (now : Z) (j : nat) (pool : RequestPool)
    : (JsError + unit) * RequestPool :=
  match _workers pool !! j with
  | None => (inl (JsErr "TypeError: undefined is not an object"), pool)
  | Some w =>
      if _running w && bool_decide (_stall w = None) then
        (inl (JsErr ("Attempted to start a "
                     +:+ WorkerState.toLowerCase (_state w) +:+ " worker.")), pool)
      else
        let pool :=
          alter_worker (fun w => {| _running := _running w; _stall := None;
                                    _state := _state w |}) j pool in
        if negb (_running w) then
          let pool :=
            alter_worker (fun w => {| _running := true; _stall := _stall w;
                                      _state := _state w |}) j pool in
          (inr tt, _main_sync now j pool)
        else (inr tt, pool)
  end.

(** [Worker.tryStart] *)
Definition Worker_tryStart (now : Z) (j : nat) (pool : RequestPool) : bool * RequestPool :=
  match _workers pool !! j with
  | None => (false, pool)
  | Some w =>
      if _running w && bool_decide (_stall w = None) then (false, pool)
      else (true, snd (Worker_start now j pool))
  end.

(** ** Waking the pool up again *)

(** The function [wake] inside [doThrottle] (throttle-policy.ts 107-118). *)
Definition wake (now : Z) (pool : RequestPool) : RequestPool :=
  match list_find (fun f => _state f = WorkerState.STOPPED) (_workers pool) with
  | Some (j, _) => snd (Worker_tryStart now j pool)
  | None =>
      with_throttle
        {| until := until (metadata_throttle pool);
           timer := timer (metadata_throttle pool);
           interval := None |} pool
  end.

(** The function given to [setTimeout] in [doThrottle] (throttle-policy.ts
    106-123), run when the timeout fires. *)
Definition timer_fires (now : Z) (pool : RequestPool) : RequestPool :=
  let pool := wake now pool in
  with_throttle
    {| until := until (metadata_throttle pool);
       timer := None;
       interval := Some (_rate (_throttlePolicy pool)) |} pool.

(** One tick of the interval armed by [timer_fires]: [wake] again. *)
Definition interval_ticks (now : Z) (pool : RequestPool) : RequestPool :=
  wake now pool.

(** ** Requests *)

(** [RequestPool.request] (part_002 113-137), for the request
    [instance] that [new type(...args)] has built. *)
Definition request (now : Z) (instance : Request) (pool : RequestPool)
    : nat * RequestPool :=
  let cacheKey := key instance in
  let hit :=
    if cacheable instance then
      match _cache pool !! cacheKey with
      | Some cached =>
          match tasks (_scheduler pool) !! cached with
          | Some t =>
              if negb (bool_decide (state t = FAILED)
                       || bool_decide (state t ≠ CANCELLED))
              then Some cached else None
          | None => None
          end
      | None => None
      end
    else None in
  match hit with
  | Some cached => (cached, pool)
  | None =>
      let scheduled := scheduled_handle (_scheduler pool) in
      let pool :=
        with_scheduler
          (exec (schedule now (Request_task instance)
                   {| opt_priority := None; opt_retries := Some (retries instance);
                      opt_data := None |}) (_scheduler pool)) pool in
      (scheduled,
       if cacheable instance then with_cache (<[cacheKey := scheduled]> (_cache pool)) pool
       else pool)
  end.

(** [RequestPool.setWorkerLimit] (part_002 82-98).  A new worker is
    started and then pushed; here it is pushed and then started, which is the
    same as long as nothing looks at [pool.workers] while it starts. *)
Fixpoint add_workers (now : Z) (n : nat) (pool : RequestPool) : RequestPool :=
  match n with
  | O => pool
  | S n =>
      let j := length (_workers pool) in
      add_workers now n
        (snd (Worker_tryStart now j (with_workers (_workers pool ++ [new_Worker]) pool)))
  end.

Definition setWorkerLimit (now : Z) (limit : nat) (pool : RequestPool) : RequestPool :=
  if decide (limit < length (_workers pool))%nat then
    with_workers (take limit (_workers pool)) pool
  else add_workers now (limit - length (_workers pool)) pool.

(** The constructor of [RequestPool] (part_002 38-55), with the options
    [workers] and [policy] when they are given. *)
Definition new_RequestPool (now : Z) (opt_workers : option nat)
    (opt_policy : option SuspendPolicy) : RequestPool :=
  setWorkerLimit now (default 5%nat opt_workers)
    {| _workers := [];
       _scheduler := new_Scheduler;
       _cache := ∅;
       metadata_throttle := {| until := None; timer := None; interval := None |};
       _throttlePolicy := default (new_SuspendPolicy None None) opt_policy |}.

(** ** Histories *)

(** What can be done to a scheduler and its tasks from outside, and what the
    event loop does to them. *)
Inductive Op : Type :=
  | OpSchedule (now : Z) (task : Task) (options : ScheduleOptions)
  | OpNext (now : Z)
  | OpSchedulerCancel (i : nat)
  | OpCancel (i : nat)
  | OpRun (i : nat)
  | OpRunCallback (i : nat)
  | OpThen (i k : nat)
  | OpDispatch (now : Z).

Definition perform (w : World) (op : Op) : World :=
  match op with
  | OpSchedule now task options => exec (schedule now task options) w
  | OpNext now => exec (next now) w
  | OpSchedulerCancel i => exec (Scheduler_cancel i) w
  | OpCancel i => exec (ScheduledTask_cancel i) w
  | OpRun i => exec (run i) w
  | OpRunCallback i => exec (run_callback i) w
  | OpThen i k => exec (then_ i k) w
  | OpDispatch now => exec (dispatch now) w
  end.

(** A worker taking one turn after the other, at the given times. *)
Definition run_worker (nows : list Z) (w : World) : World :=
  foldl (fun w now => exec (dispatch now) w) w nows.

(** A task whose every execution fails with [e], at once or later. *)
Definition always_fails (e : JsError) (task : Task) : Prop :=
  forall d n, executor task d n = Throws e ∨ executor task d n = Async (Rejected e).

(** A worker that shows STOPPED has no loop running:  the constructor and the
    [finally] handler set both fields, and [start] leaves STOPPED at once. *)
Definition worker_settled (w : Worker) : Prop :=
  _state w = WorkerState.STOPPED -> _running w = false.

(** No executor throws synchronously; for the [Request]s of a pool this is
    what [async run()] gives. *)
Definition no_synchronous_throw (w : World) : Prop :=
  forall i t d n e, tasks w !! i = Some t -> executor (_task t) d n ≠ Throws e.

(** * Properties *)

(** ** Throttling only tightens *)

(** C6: [canThrottle] answers true exactly when the pool has no recorded
    [until], or the recorded [until] is strictly later than the one of the new
    signal.  Hence [throttle] never moves a recorded [until] to a later time:
    afterwards it is the old one, or a strictly earlier one. *)
Theorem canThrottle_only_tightens (now throttle_until : Z) (pool : RequestPool) :
  (canThrottle throttle_until pool = true <->
     until (metadata_throttle pool) = None ∨
     exists active, until (metadata_throttle pool) = Some active ∧ throttle_until < active)
  ∧ (forall active, until (metadata_throttle pool) = Some active ->
       until (metadata_throttle (throttle now throttle_until pool)) = Some active ∨
       exists tightened,
         until (metadata_throttle (throttle now throttle_until pool)) = Some tightened
         ∧ tightened < active).
Proof.
  split.
  - unfold canThrottle. destruct (until (metadata_throttle pool)) as [active|].
    + rewrite bool_decide_eq_true. split.
      * intros Hgt. right. exists active. split; [done|lia].
      * intros [?|(a & [= <-] & Hlt)]; [done|lia].
    + split; [by left|done].
  - intros active Hactive. unfold throttle.
    destruct (bool_decide (throttle_until - now ≤ 0)) eqn:Hms; simpl; [by left|].
    destruct (canThrottle throttle_until pool) eqn:Hcan; simpl; [|by left].
    right. unfold canThrottle in Hcan. rewrite Hactive in Hcan.
    apply bool_decide_eq_true in Hcan. apply bool_decide_eq_false in Hms.
    destruct (throttleLimit (_throttlePolicy pool)) as [limit|]; simpl.
    + case_bool_decide; eexists; (split; [reflexivity|lia]).
    + eexists; (split; [reflexivity|lia]).
Qed.

(** ** Order of the queue *)

Lemma next_loop_nil cmp queued : next_loop cmp queued [] = (None, []).
Proof. by simp next_loop. Qed.

Lemma next_loop_take cmp queued q i rest :
  pq_pop cmp q = Some (i, rest) -> queued i = true ->
  next_loop cmp queued q = (Some i, rest).
Proof.
  intros Hpop Hq. funelim (next_loop cmp queued q); congruence.
Qed.

Lemma next_loop_discard cmp queued q i rest :
  pq_pop cmp q = Some (i, rest) -> queued i = false ->
  next_loop cmp queued q = next_loop cmp queued rest.
Proof.
  intros Hpop Hq. funelim (next_loop cmp queued q); congruence.
Qed.

Lemma Qc_of_Z_minus (a b : Z) : Qc_of_Z (a - b) = (Qc_of_Z a - Qc_of_Z b)%Qc.
Proof.
  apply Qc_is_canon. unfold Qcminus, Qcplus, Qcopp, Qc_of_Z. simpl.
  rewrite !Qred_correct. unfold Z.sub. by rewrite inject_Z_plus, inject_Z_opp.
Qed.

(** The two waiting times are taken at the same [now], which cancels out:
    the order of two tasks is the same whenever they are compared, so the
    queue is never ordered by an outdated comparison. *)
Lemma compare_any_time (now now' : Z) (a b : ScheduledTask) :
  compare now a b = compare now' a b.
Proof.
  unfold compare, summary. rewrite !Qc_of_Z_minus. field. by vm_compute.
Qed.

Lemma compare_same_instant (now : Z) (a b : ScheduledTask) :
  scheduled a = scheduled b ->
  compare now a b = (default 0 (priority a) - default 0 (priority b))%Qc.
Proof. intros H. unfold compare, summary. rewrite H. ring. Qed.


(** C8: [next] never throws.  It returns [null] exactly when no entry of the
    queue is a QUEUED task, and then the queue is empty afterwards.  Otherwise
    it returns an entry of the queue that is a QUEUED task; that entry and the
    entries thrown away on the way, none of them QUEUED, are what has left the
    queue. *)
Theorem next_returns_queued_or_null (now : Z) (w : World) :
  (exists r, fst (next now w) = inr r)
  ∧ (fst (next now w) = inr None <->
       Forall (fun i => forall t, tasks w !! i = Some t -> state t ≠ QUEUED) (_queue w))
  ∧ (fst (next now w) = inr None -> _queue (snd (next now w)) = [])
  ∧ (forall i, fst (next now w) = inr (Some i) ->
       i ∈ _queue w
       ∧ (exists t, tasks w !! i = Some t ∧ state t = QUEUED)
       ∧ tasks (snd (next now w)) = tasks w
       ∧ exists discarded,
           _queue w ≡ₚ discarded ++ i :: _queue (snd (next now w))
           ∧ Forall (fun j => forall t, tasks w !! j = Some t -> state t ≠ QUEUED)
               discarded).
Proof.
  assert (Hq : forall j, is_queued (tasks w) j = false <->
                 forall t, tasks w !! j = Some t -> state t ≠ QUEUED).
  { intros j. unfold is_queued. destruct (tasks w !! j) as [t|].
    - rewrite bool_decide_eq_false. split; [by intros ? ? [= <-]|eauto].
    - split; [done|eauto]. }
  assert (Hq' : forall j, is_queued (tasks w) j = true ->
                  exists t, tasks w !! j = Some t ∧ state t = QUEUED).
  { intros j. unfold is_queued. destruct (tasks w !! j) as [t|]; [|done].
    rewrite bool_decide_eq_true. eauto. }
  unfold next. simpl.
  destruct (next_loop _ _ _) as [[i|] rest] eqn:E; simpl.
  - apply next_loop_Some in E as (Hi & d & Hperm & Hd).
    split; [eauto|]. split; [|split; [done|]].
    + split; [done|]. intros Hall. exfalso.
      assert (i ∈ _queue w) as Hin
        by (rewrite Hperm, elem_of_app, elem_of_cons; auto).
      rewrite Forall_forall in Hall. specialize (Hall i Hin).
      apply Hq in Hall. congruence.
    + intros ? [= <-]. split; [rewrite Hperm, elem_of_app, elem_of_cons; auto|].
      split; [by apply Hq'|]. split; [done|].
      exists d. split; [done|]. eapply Forall_impl; [exact Hd|]. intros j. apply Hq.
  - apply next_loop_None in E as (-> & Hall).
    split; [eauto|]. split; [|split; [done|done]].
    split; [|done]. intros _. eapply Forall_impl; [exact Hall|]. intros j. apply Hq.
Qed.

Lemma Qc_difference_nonneg (a b : Qc) : (0 ≤ a - b)%Qc <-> (b ≤ a)%Qc.
Proof. unfold Qcminus. symmetry. apply Qcle_minus_iff. Qed.

(** On a queue whose comparator is the difference of a score, [pop] returns
    an entry of highest score. *)
Lemma pq_pop_highest {A : Type} (cmp : A -> A -> Qc) (score : A -> Qc) (q : list A) x rest :
  (forall a b, a ∈ q -> b ∈ q -> cmp a b = (score a - score b)%Qc) ->
  pq_pop cmp q = Some (x, rest) ->
  forall y, y ∈ q -> (score y ≤ score x)%Qc.
Proof.
  revert x rest. induction q as [|z q IH]; intros x rest Hcmp; simpl; [discriminate|].
  assert (Hcmp' : forall a b, a ∈ q -> b ∈ q -> cmp a b = (score a - score b)%Qc)
    by (intros a b Ha Hb; apply Hcmp; by apply list_elem_of_further).
  destruct (pq_pop cmp q) as [[m r]|] eqn:E.
  - specialize (IH _ _ Hcmp' eq_refl).
    assert (m ∈ q) as Hm by (rewrite (pq_pop_perm _ _ _ _ E); apply list_elem_of_here).
    rewrite Hcmp by (first [apply list_elem_of_here | by apply list_elem_of_further]).
    case_decide as Hle; rewrite Qc_difference_nonneg in Hle;
      intros [= <- <-] y [->|Hy]%elem_of_cons.
    + reflexivity.
    + etrans; [by apply IH|done].
    + by apply Qclt_le_weak, Qclt_nge.
    + by apply IH.
  - apply pq_pop_None in E as ->. intros [= <- <-] y [->|Hy]%elem_of_cons; [done|].
    by apply elem_of_nil in Hy.
Qed.

(** [next] hands out a QUEUED task that no QUEUED task of the queue outranks. *)
Lemma next_loop_highest (cmp : nat -> nat -> Qc) (score : nat -> Qc) queued q i rest :
  (forall a b, a ∈ q -> b ∈ q -> cmp a b = (score a - score b)%Qc) ->
  next_loop cmp queued q = (Some i, rest) ->
  forall j, j ∈ q -> queued j = true -> (score j ≤ score i)%Qc.
Proof.
  funelim (next_loop cmp queued q); intros Hcmp.
  - discriminate.
  - intros [= <- <-] j Hj _. by eapply pq_pop_highest.
  - intros Hrec j Hj Hqj.
    match goal with Hpop : pq_pop _ _ = Some _ |- _ =>
      pose proof (pq_pop_perm _ _ _ _ Hpop) as Hperm end.
    match goal with IH : forall _ _ _, _ -> _ -> _ |- _ =>
      eapply (IH score); [|exact Hrec| |exact Hqj] end.
    + intros a b Ha Hb. apply Hcmp; rewrite Hperm; by apply list_elem_of_further.
    + rewrite Hperm in Hj. apply elem_of_cons in Hj as [->|Hj]; [congruence|done].
Qed.

Lemma next_highest_score (now : Z) (w : World) (i j : nat) (ti tj : ScheduledTask) :
  (forall k, k ∈ _queue w -> is_Some (tasks w !! k)) ->
  fst (next now w) = inr (Some i) ->
  tasks w !! i = Some ti ->
  j ∈ _queue w -> tasks w !! j = Some tj -> state tj = QUEUED ->
  (summary now tj ≤ summary now ti)%Qc.
Proof.
  intros Hrefs Hnext Hti Hj Htj Hsj. unfold next in Hnext. simpl in Hnext.
  destruct (next_loop _ _ _) as [o rest] eqn:E. simpl in Hnext. injection Hnext as ->.
  assert (Hcmp : forall a b, a ∈ _queue w -> b ∈ _queue w ->
            comparator now (tasks w) a b
            = (from_option (summary now) 0 (tasks w !! a)
               - from_option (summary now) 0 (tasks w !! b))%Qc).
  { intros a b [ta Ha]%Hrefs [tb Hb]%Hrefs. unfold comparator. by rewrite Ha, Hb. }
  pose proof (next_loop_highest _ _ _ _ _ _ Hcmp E j Hj) as Hhigh.
  simpl in Hhigh. rewrite Hti, Htj in Hhigh. apply Hhigh.
  unfold is_queued. rewrite Htj. by apply bool_decide_eq_true.
Qed.

(** ** Cancelling *)

(** The call from [ScheduledTask.cancel] back into [Scheduler.cancel] finds
    the task CANCELLED and does nothing. *)
Lemma cancel_reentry (task_cancel : nat -> M unit) (i : nat) (t : ScheduledTask) (w : World) :
  tasks w !! i = Some t -> state t = CANCELLED ->
  Scheduler_cancel_with task_cancel i w = (inr tt, w).
Proof.
  intros Ht Hs. unfold Scheduler_cancel_with. repeat step.
  by rewrite decide_False by (by rewrite Hs; intros []).
Qed.

Lemma ScheduledTask_cancel_not_queued (i : nat) (t : ScheduledTask) (w : World) :
  tasks w !! i = Some t -> state t ≠ QUEUED ->
  ScheduledTask_cancel i w =
    (inl (JsErr ("Attempted to cancel a " +:+ toLowerCase (state t) +:+ " task.")), w).
Proof.
  intros Ht Hs. unfold ScheduledTask_cancel. repeat step. by rewrite decide_True.
Qed.

Lemma ScheduledTask_cancel_queued (i : nat) (t : ScheduledTask) (w : World) :
  tasks w !! i = Some t -> state t = QUEUED ->
  ScheduledTask_cancel i w =
    (inr tt,
     with_called (called w ++ notified (Rejected (JsErr "Event cancelled.")) (_promise t))
       (with_tasks
          (<[i := with_promise
                    (settle_promise (Rejected (JsErr "Event cancelled.")) (_promise t))
                    (with_state CANCELLED t)]> (tasks w)) w)).
Proof.
  intros Ht Hs. unfold ScheduledTask_cancel, _reject. repeat step.
  rewrite decide_False by (by rewrite Hs; intros []). repeat step.
  erewrite cancel_reentry by first [apply lookup_insert_eq | done].
  erewrite call_resolver_spec by apply lookup_insert_eq.
  repeat step. done.
Qed.

(** C3, as the code has it: for a task that is RUNNING, COMPLETED or FAILED,
    [Scheduler.cancel] throws the error of the task's own [cancel]
    ("Attempted to cancel a ... task."); for a task that is CANCELLED it
    returns normally.  In both cases nothing is changed, the state of the
    task included. *)
Theorem Scheduler_cancel_not_queued (i : nat) (t : ScheduledTask) (w : World) :
  tasks w !! i = Some t ->
  state t ≠ QUEUED ->
  Scheduler_cancel i w =
    (if decide (state t = CANCELLED) then inr tt
     else inl (JsErr ("Attempted to cancel a " +:+ toLowerCase (state t) +:+ " task.")),
     w).
Proof.
  intros Ht Hs. unfold Scheduler_cancel. case_decide as Hc.
  - by erewrite cancel_reentry.
  - unfold Scheduler_cancel_with. repeat step. rewrite decide_True by done.
    by apply ScheduledTask_cancel_not_queued.
Qed.

(** A task that never settles, and the options that leave everything open. *)
Definition hanging_task : Task :=
  {| executor := fun _ _ => Async (Fulfilled "late"); task_priority := None |}.

Definition no_options : ScheduleOptions :=
  {| opt_priority := None; opt_retries := None; opt_data := None |}.

(** A scheduler whose only task, number 0, is RUNNING. *)
Definition one_running : World :=
  exec (schedule 0 hanging_task no_options;; next 1;; run 0%nat) new_Scheduler.

Lemma Scheduler_cancel_not_queued_witness :
  Scheduler_cancel 0%nat one_running =
    (inl (JsErr "Attempted to cancel a running task."), one_running).
Proof.
  apply (Scheduler_cancel_not_queued 0%nat
           (with_inflight (Some (Fulfilled "late"))
              (started (new_ScheduledTask hanging_task no_options 0 0%nat)))
           one_running).
  - reflexivity.
  - discriminate.
Defined.

(** C3, as stated, fails: [Scheduler.cancel] on a RUNNING task does not
    return normally, it throws. *)
Lemma Scheduler_cancel_running_throws :
  (state <$> tasks one_running !! 0%nat) = Some RUNNING
  ∧ fst (Scheduler_cancel 0%nat one_running)
    = inl (JsErr "Attempted to cancel a running task.")
  ∧ fst (Scheduler_cancel 0%nat one_running) ≠ inr tt.
Proof. split; [reflexivity|]. split; [reflexivity|discriminate]. Qed.

(** ** Requeueing *)

(** C4, as the code has it: a task requeued after a failure that had a retry
    left is QUEUED again, is pushed onto the queue, and the schedule event is
    emitted (followed by failedAttempt); its [scheduled] time stamp stays the
    one its constructor has set. *)
Theorem requeue_keeps_scheduled (i : nat) (error : JsError) (t : ScheduledTask) (w : World) :
  tasks w !! i = Some t ->
  0 < _retries t ->
  exists t',
    tasks (exec (_finishError i error) w) !! i = Some t'
    ∧ scheduled t' = scheduled t
    ∧ state t' = QUEUED
    ∧ _queue (exec (_finishError i error) w) = _queue w ++ [i]
    ∧ emitted (exec (_finishError i error) w)
      = emitted w ++ [EvSchedule i; EvFailedAttempt i error]
    ∧ exec (_reschedule i) w
      = with_emitted (emitted w ++ [EvSchedule i]) (with_queue (_queue w ++ [i]) w).
Proof.
  intros Ht Hr. unfold exec. rewrite (_finishError_retry _ _ _ _ Ht Hr). simpl.
  eexists. split; [apply lookup_insert_eq|]. done.
Qed.

(** A task that always fails, later. *)
Definition failing_task : Task :=
  {| executor := fun _ _ => Async (Rejected (JsErr "Failed.")); task_priority := None |}.

Definition with_retries (n : Z) : ScheduleOptions :=
  {| opt_priority := None; opt_retries := Some n; opt_data := None |}.

Lemma requeue_keeps_scheduled_witness :
  exists t',
    tasks (exec (_finishError 0%nat (JsErr "Failed."))
             (exec (schedule 0 failing_task (with_retries 1)) new_Scheduler)) !! 0%nat
      = Some t'
    ∧ scheduled t' = 0.
Proof.
  destruct (requeue_keeps_scheduled 0%nat (JsErr "Failed.")
              (new_ScheduledTask failing_task (with_retries 1) 0 0%nat)
              (exec (schedule 0 failing_task (with_retries 1)) new_Scheduler))
    as (t' & Ht' & Hs & _).
  - reflexivity.
  - simpl. lia.
  - exists t'. split; [exact Ht'|exact Hs].
Defined.

(** C4, as stated, fails: a task scheduled at time 0 and requeued by the
    worker turn at time 1000 is back in the queue, QUEUED, and its
    [scheduled] is still 0. *)
Lemma requeue_does_not_update_scheduled :
  let w := exec (schedule 0 failing_task (with_retries 1);; dispatch 1000) new_Scheduler in
  _queue w = [0%nat]
  ∧ (state <$> tasks w !! 0%nat) = Some QUEUED
  ∧ (attempt <$> tasks w !! 0%nat) = Some 1
  ∧ (scheduled <$> tasks w !! 0%nat) = Some 0
  ∧ (scheduled <$> tasks w !! 0%nat) ≠ Some 1000.
Proof. repeat split; try reflexivity. discriminate. Qed.

(** ** The cache of the request pool *)

(** The test of [request] on a cached entry lets only a CANCELLED one
    through. *)
Lemma cache_test_is_cancelled (s : TaskState) :
  negb (bool_decide (s = FAILED) || bool_decide (s ≠ CANCELLED))
  = bool_decide (s = CANCELLED).
Proof. by destruct s. Qed.

Lemma request_cached (now : Z) (instance : Request) (pool : RequestPool)
    (cached : nat) (t : ScheduledTask) :
  cacheable instance = true ->
  _cache pool !! key instance = Some cached ->
  tasks (_scheduler pool) !! cached = Some t ->
  (state t = CANCELLED -> request now instance pool = (cached, pool))
  ∧ (state t ≠ CANCELLED ->
       fst (request now instance pool) = _ID_COUNTER (_scheduler pool)
       ∧ _queue (_scheduler (snd (request now instance pool)))
         = _queue (_scheduler pool) ++ [_ID_COUNTER (_scheduler pool)]
       ∧ _cache (snd (request now instance pool)) !! key instance
         = Some (_ID_COUNTER (_scheduler pool))).
Proof.
  intros Hc Hk Ht. unfold request. rewrite Hc, Hk, Ht, cache_test_is_cancelled.
  split; intros Hs.
  - by rewrite bool_decide_eq_true_2.
  - rewrite bool_decide_eq_false_2 by done. simpl.
    split; [done|]. split; [done|]. apply lookup_insert_eq.
Qed.

(** A cacheable request with key "a". *)
Definition request_a : Request :=
  {| key := "a"; cacheable := true; retries := 0;
     request_run := fun _ => Fulfilled "ok" |}.

(** C5 on the code: the same cacheable request made twice in a row.  The
    first call schedules task 0 and caches it; at the second call the cached
    task 0 is QUEUED, neither FAILED nor CANCELLED, and yet the pool schedules
    a second task and returns handle 1 instead of the cached handle 0. *)
Theorem request_twice_schedules_twice :
  let pool0 := new_RequestPool 0 (Some 0%nat) None in
  let first := request 1 request_a pool0 in
  let second := request 2 request_a (snd first) in
  fst first = 0%nat
  ∧ _cache (snd first) !! "a" = Some 0%nat
  ∧ (state <$> tasks (_scheduler (snd first)) !! 0%nat) = Some QUEUED
  ∧ fst second = 1%nat
  ∧ _queue (_scheduler (snd second)) = [0%nat; 1%nat].
Proof. repeat split; reflexivity. Qed.

(** ** Continuations *)

Lemma then__spec (i k : nat) (t : ScheduledTask) (w : World) :
  tasks w !! i = Some t ->
  then_ i k w =
    match _promise t ≫= settled with
    | Some o =>
        (inr tt, with_called (called w ++ [(k, o)]) w)
    | None =>
        (inr tt,
         with_tasks
           (<[i := with_promise
                     (Some {| settled := None;
                              reactions := from_option reactions [] (_promise t) ++ [k] |})
                     t]> (tasks w)) w)
    end.
Proof.
  intros Ht. unfold then_. repeat step.
  destruct (_promise t) as [p|] eqn:Hp; simpl.
  - destruct (settled p) eqn:Hs; repeat step; [|done].
    replace (with_promise (Some p) t) with t by (by rewrite <- Hp, with_promise_id).
    rewrite insert_id by done. by destruct w.
  - repeat step. done.
Qed.

(** A continuation put on a task whose promise has been made and has
    settled is called with the outcome. *)
Lemma then_on_settled_promise (i k : nat) (t : ScheduledTask) (p : JsPromise)
    (o : Outcome) (w : World) :
  tasks w !! i = Some t -> _promise t = Some p -> settled p = Some o ->
  then_ i k w = (inr tt, with_called (called w ++ [(k, o)]) w).
Proof. intros Ht Hp Hs. rewrite (then__spec _ _ _ _ Ht), Hp. simpl. by rewrite Hs. Qed.

(** A continuation put on a task on which no promise method has been called
    yet is not called, whatever the state of the task: the promise is made
    then, pending. *)
Lemma then_without_promise (i k : nat) (t : ScheduledTask) (w : World) :
  tasks w !! i = Some t -> _promise t = None ->
  then_ i k w =
    (inr tt,
     with_tasks
       (<[i := with_promise (Some {| settled := None; reactions := [k] |}) t]> (tasks w)) w).
Proof. intros Ht Hp. rewrite (then__spec _ _ _ _ Ht), Hp. done. Qed.

(** ** What every operation keeps *)

(** A relation between a task before and after that every assignment of the
    source respects is respected by every method, and so by every history. *)
Section Evolution.
Variable R : relation ScheduledTask.
Context `{!PreOrder R}.

Hypothesis R_state : forall s t, R t (with_state s t).
Hypothesis R_promise : forall p t, R t (with_promise p t).
Hypothesis R_inflight : forall o t, R t (with_inflight o t).
Hypothesis R_invocation : forall t, R t (count_invocation t).
Hypothesis R_retry : forall t, R t (consume_retry t).

(** Tasks that exist stay, related by [R]; ids are never handed out twice. *)
Definition evolves (w w' : World) : Prop :=
  (_ID_COUNTER w <= _ID_COUNTER w')%nat
  ∧ forall i t, (i < _ID_COUNTER w)%nat -> tasks w !! i = Some t ->
      exists t', tasks w' !! i = Some t' ∧ R t t'.

Definition preserves {A : Type} (m : M A) : Prop :=
  forall w, evolves w (snd (m w)).

Lemma evolves_refl (w : World) : evolves w w.
Proof. split; [lia|]. intros i t _ Ht. exists t. split; [done|reflexivity]. Qed.

Lemma evolves_trans (w1 w2 w3 : World) :
  evolves w1 w2 -> evolves w2 w3 -> evolves w1 w3.
Proof.
  intros [Hc1 H1] [Hc2 H2]. split; [lia|]. intros i t Hi Ht.
  destruct (H1 i t Hi Ht) as (t2 & Ht2 & HR2).
  destruct (H2 i t2 ltac:(lia) Ht2) as (t3 & Ht3 & HR3).
  exists t3. split; [done|]. by etrans.
Qed.

Lemma preserves_ret {A : Type} (a : A) : preserves (mret a).
Proof. intros w. apply evolves_refl. Qed.

Lemma preserves_throw {A : Type} (e : JsError) : preserves (@throw A e).
Proof. intros w. apply evolves_refl. Qed.

Lemma preserves_bind {A B : Type} (m : M A) (k : A -> M B) :
  preserves m -> (forall a, preserves (k a)) -> preserves (m ≫= k).
Proof.
  intros Hm Hk w. rewrite bind_unfold. specialize (Hm w).
  destruct (m w) as [[e|a] w1]; simpl in *; [done|].
  eapply evolves_trans; [exact Hm|apply Hk].
Qed.

Lemma preserves_try_catch {A : Type} (m : M A) (h : JsError -> M A) :
  preserves m -> (forall e, preserves (h e)) -> preserves (try_catch m h).
Proof.
  intros Hm Hh w. unfold try_catch. specialize (Hm w).
  destruct (m w) as [[e|a] w1]; simpl in *; [|done].
  eapply evolves_trans; [exact Hm|apply Hh].
Qed.

Lemma preserves_deref (i : nat) : preserves (deref i).
Proof. intros w. unfold deref. destruct (tasks w !! i); apply evolves_refl. Qed.

Lemma preserves_assign (i : nat) (f : ScheduledTask -> ScheduledTask) :
  (forall t, R t (f t)) -> preserves (assign i f).
Proof.
  intros Hf w. split; [simpl; lia|]. intros j t _ Ht. simpl.
  destruct (decide (i = j)) as [<-|Hne].
  - exists (f t). by rewrite lookup_alter_eq, Ht.
  - exists t. rewrite lookup_alter_ne by done. split; [done|reflexivity].
Qed.

Lemma preserves_update (f : World -> World) :
  (forall w, tasks (f w) = tasks w) ->
  (forall w, _ID_COUNTER (f w) = _ID_COUNTER w) ->
  preserves (update f).
Proof.
  intros Ht Hc w. split; simpl; [by rewrite Hc|].
  intros i t _ Hi. exists t. rewrite Ht. split; [done|reflexivity].
Qed.

Lemma preserves_emit (e : Event) : preserves (emit e).
Proof. by apply preserves_update. Qed.

Lemma preserves_schedule (now : Z) (task : Task) (options : ScheduleOptions) :
  preserves (schedule now task options).
Proof.
  intros w. split; simpl; [lia|]. intros i t Hi Ht. exists t.
  rewrite lookup_insert_ne by lia. split; [done|reflexivity].
Qed.

Lemma preserves_next (now : Z) : preserves (next now).
Proof.
  intros w. split; simpl; [lia|]. intros i t _ Ht. exists t.
  split; [done|reflexivity].
Qed.

Ltac preserve :=
  repeat first
    [ apply preserves_ret
    | apply preserves_throw
    | apply preserves_deref
    | apply preserves_emit
    | apply preserves_schedule
    | apply preserves_next
    | apply preserves_assign; solve [auto]
    | apply preserves_update; solve [auto]
    | apply preserves_bind; [|intros ?]
    | apply preserves_try_catch; [|intros ?]
    | case_decide
    | case_match ].

Lemma preserves_call_resolver (i : nat) (o : Outcome) : preserves (call_resolver i o).
Proof. unfold call_resolver. preserve. Qed.

Lemma preserves_then (i k : nat) : preserves (then_ i k).
Proof. unfold then_. preserve. Qed.

Lemma preserves__reschedule (i : nat) : preserves (_reschedule i).
Proof. unfold _reschedule. preserve. Qed.

Lemma preserves__finishSuccess (i : nat) (v : Value) : preserves (_finishSuccess i v).
Proof. unfold _finishSuccess, _resolve. preserve; apply preserves_call_resolver. Qed.

Lemma preserves__finishError (i : nat) (e : JsError) : preserves (_finishError i e).
Proof.
  unfold _finishError, _reject. preserve;
    first [apply preserves__reschedule | apply preserves_call_resolver].
Qed.

Lemma preserves_ScheduledTask_cancel (i : nat) : preserves (ScheduledTask_cancel i).
Proof.
  unfold ScheduledTask_cancel, Scheduler_cancel_with, _reject.
  preserve; apply preserves_call_resolver.
Qed.

Lemma preserves_Scheduler_cancel (i : nat) : preserves (Scheduler_cancel i).
Proof.
  unfold Scheduler_cancel, Scheduler_cancel_with.
  preserve; apply preserves_ScheduledTask_cancel.
Qed.

Lemma preserves_run (i : nat) : preserves (run i).
Proof.
  unfold run. preserve;
    first [apply preserves__finishSuccess | apply preserves__finishError].
Qed.

Lemma preserves_run_callback (i : nat) : preserves (run_callback i).
Proof.
  unfold run_callback. preserve;
    first [apply preserves__finishSuccess | apply preserves__finishError].
Qed.

Lemma preserves_dispatch (now : Z) : preserves (dispatch now).
Proof.
  unfold dispatch, await_run. preserve;
    first [apply preserves_run | apply preserves_run_callback].
Qed.

Lemma evolves_perform (w : World) (op : Op) : evolves w (perform w op).
Proof.
  destruct op; simpl; unfold exec.
  - apply preserves_schedule.
  - apply preserves_next.
  - apply preserves_Scheduler_cancel.
  - apply preserves_ScheduledTask_cancel.
  - apply preserves_run.
  - apply preserves_run_callback.
  - apply preserves_then.
  - apply preserves_dispatch.
Qed.

Lemma evolves_history (ops : list Op) (w : World) : evolves w (foldl perform w ops).
Proof.
  revert w. induction ops as [|op ops IH]; intros w; simpl; [apply evolves_refl|].
  eapply evolves_trans; [apply evolves_perform|apply IH].
Qed.
End Evolution.

(** ** The retry budget *)

(** Retries are only ever turned into attempts, one for one. *)
Definition spends_retries (t t' : ScheduledTask) : Prop :=
  exists k : nat, _retries t' = _retries t - Z.of_nat k ∧ attempt t' = attempt t + Z.of_nat k.

Global Instance spends_retries_preorder : PreOrder spends_retries.
Proof.
  split.
  - intros t. exists 0%nat. lia.
  - intros t1 t2 t3 [k1 [? ?]] [k2 [? ?]]. exists (k1 + k2)%nat. lia.
Qed.

(** C10: a task scheduled with [retries = N] starts with N retries and 0
    attempts, and after any history of method calls and event-loop turns, on
    it or on other tasks, its retries and its attempts still add up to N:
    retries have only been turned into attempts, one for one. *)
Theorem retries_plus_attempt_constant (w : World) (now : Z) (task : Task)
    (options : ScheduleOptions) (ops : list Op) :
  let N := default 0 (opt_retries options) in
  let i := scheduled_handle w in
  let w0 := exec (schedule now task options) w in
  (exists t0, tasks w0 !! i = Some t0 ∧ _retries t0 = N ∧ attempt t0 = 0)
  ∧ (exists t, tasks (foldl perform w0 ops) !! i = Some t
       ∧ _retries t + attempt t = N
       ∧ exists k : nat, _retries t = N - Z.of_nat k ∧ attempt t = Z.of_nat k).
Proof.
  intros N i w0.
  assert (Ht0 : tasks w0 !! i = Some (new_ScheduledTask task options now i))
    by apply lookup_insert_eq.
  split; [by eexists|].
  destruct (evolves_history spends_retries) with (ops := ops) (w := w0)
    as [_ Hev].
  - by exists 0%nat; simpl; lia.
  - by exists 0%nat; simpl; lia.
  - by exists 0%nat; simpl; lia.
  - by exists 0%nat; simpl; lia.
  - by exists 1%nat; simpl; lia.
  - destruct (Hev i _ ltac:(simpl; unfold i, scheduled_handle; lia) Ht0)
      as (t & Ht & k & Hr & Ha).
    exists t. simpl in Hr, Ha. split; [done|]. split; [fold N in Hr; lia|].
    exists k. fold N in Hr. split; lia.
Qed.

(** ** Retrying until the budget is spent *)

Lemma next_single (now : Z) (i : nat) (t : ScheduledTask) (w : World) :
  _queue w = [i] -> tasks w !! i = Some t -> state t = QUEUED ->
  next now w = (inr (Some i), with_queue [] w).
Proof.
  intros Hq Ht Hs. unfold next. rewrite Hq.
  erewrite next_loop_take; [done|done|].
  unfold is_queued. rewrite Ht. by apply bool_decide_eq_true.
Qed.

Lemma next_empty (now : Z) (w : World) :
  _queue w = [] -> next now w = (inr None, w).
Proof.
  intros Hq. unfold next. rewrite Hq, next_loop_nil. simpl.
  rewrite <- Hq. by destruct w.
Qed.

Lemma dispatch_empty (now : Z) (w : World) :
  _queue w = [] -> exec (dispatch now) w = w.
Proof.
  intros Hq. unfold exec, dispatch. by rewrite bind_unfold, next_empty.
Qed.

(** One turn of the worker on a queue that holds just one task, which
    fails while it has a retry left. *)
Lemma dispatch_failed_attempt (now : Z) (i : nat) (e : JsError) (t : ScheduledTask) (w : World) :
  _queue w = [i] -> tasks w !! i = Some t -> state t = QUEUED ->
  always_fails e (_task t) -> 0 < _retries t ->
  exists t',
    tasks (exec (dispatch now) w) !! i = Some t'
    ∧ _task t' = _task t ∧ data t' = data t ∧ _promise t' = _promise t
    ∧ state t' = QUEUED
    ∧ _retries t' = _retries t - 1
    ∧ attempt t' = attempt t + 1
    ∧ invocations t' = S (invocations t)
    ∧ _queue (exec (dispatch now) w) = [i]
    ∧ emitted (exec (dispatch now) w) = emitted w ++ [EvSchedule i; EvFailedAttempt i e]
    ∧ called (exec (dispatch now) w) = called w.
Proof.
  intros Hq Ht Hs Hfail Hr. unfold exec, dispatch.
  rewrite bind_unfold, (next_single _ _ _ _ Hq Ht Hs).
  unfold await_run, try_catch. rewrite bind_unfold.
  rewrite (run_queued i t) by done. cbv zeta.
  destruct (Hfail (data t) (invocations t)) as [-> | ->].
  - eexists. simpl.
    erewrite _finishError_retry; [ | apply lookup_insert_eq | simpl; lia ].
    simpl. rewrite insert_insert_eq, lookup_insert_eq. split; [done|].
    simpl. done.
  - eexists. unfold run_callback. repeat step. simpl. repeat step. simpl.
    erewrite _finishError_retry; [ | apply lookup_insert_eq | simpl; lia ].
    simpl. rewrite !insert_insert_eq, lookup_insert_eq. split; [done|].
    simpl. done.
Qed.

(** The same turn when no retry is left. *)
Lemma dispatch_failed_task (now : Z) (i : nat) (e : JsError) (t : ScheduledTask) (w : World) :
  _queue w = [i] -> tasks w !! i = Some t -> state t = QUEUED ->
  always_fails e (_task t) -> ¬ 0 < _retries t ->
  exists t',
    tasks (exec (dispatch now) w) !! i = Some t'
    ∧ _promise t' = settle_promise (Rejected e) (_promise t)
    ∧ state t' = FAILED
    ∧ _retries t' = _retries t
    ∧ attempt t' = attempt t
    ∧ invocations t' = S (invocations t)
    ∧ _queue (exec (dispatch now) w) = []
    ∧ emitted (exec (dispatch now) w) = emitted w ++ [EvFailedTask i e]
    ∧ called (exec (dispatch now) w) = called w ++ notified (Rejected e) (_promise t).
Proof.
  intros Hq Ht Hs Hfail Hr. unfold exec, dispatch.
  rewrite bind_unfold, (next_single _ _ _ _ Hq Ht Hs).
  unfold await_run, try_catch. rewrite bind_unfold.
  rewrite (run_queued i t) by done. cbv zeta.
  destruct (Hfail (data t) (invocations t)) as [-> | ->].
  - eexists. simpl.
    erewrite _finishError_final; [ | apply lookup_insert_eq | simpl; lia ].
    simpl. rewrite insert_insert_eq, lookup_insert_eq. split; [done|].
    simpl. done.
  - eexists. unfold run_callback. repeat step. simpl. repeat step. simpl.
    erewrite _finishError_final; [ | apply lookup_insert_eq | simpl; lia ].
    simpl. rewrite !insert_insert_eq, lookup_insert_eq. split; [done|].
    simpl. done.
Qed.

Lemma run_worker_snoc (nows : list Z) (now : Z) (w : World) :
  run_worker (nows ++ [now]) w = exec (dispatch now) (run_worker nows w).
Proof. unfold run_worker. by rewrite foldl_app. Qed.

(** The two events of a failed attempt, [k] times over. *)
Definition failed_attempts (i : nat) (e : JsError) (k : nat) : list Event :=
  mjoin (replicate k [EvSchedule i; EvFailedAttempt i e]).

Lemma failed_attempts_S (i : nat) (e : JsError) (k : nat) :
  failed_attempts i e (S k) = failed_attempts i e k ++ [EvSchedule i; EvFailedAttempt i e].
Proof.
  unfold failed_attempts. induction k as [|k IH]; [done|].
  simpl in *. by rewrite IH.
Qed.

Section AlwaysFailing.
Variables (w : World) (i : nat) (t : ScheduledTask) (N : Z) (e : JsError).
Hypothesis Hqueue : _queue w = [i].
Hypothesis Htask : tasks w !! i = Some t.
Hypothesis Hstate : state t = QUEUED.
Hypothesis Hretries : _retries t = N.
Hypothesis HN : 0 ≤ N.
Hypothesis Hfails : always_fails e (_task t).

(** After [k] turns, [k] up to [N]: [k] failed attempts. *)
Lemma run_worker_retrying (nows : list Z) :
  Z.of_nat (length nows) ≤ N ->
  exists t',
    tasks (run_worker nows w) !! i = Some t'
    ∧ _task t' = _task t ∧ data t' = data t ∧ _promise t' = _promise t
    ∧ state t' = QUEUED
    ∧ _retries t' = N - Z.of_nat (length nows)
    ∧ attempt t' = attempt t + Z.of_nat (length nows)
    ∧ invocations t' = (invocations t + length nows)%nat
    ∧ _queue (run_worker nows w) = [i]
    ∧ emitted (run_worker nows w) = emitted w ++ failed_attempts i e (length nows)
    ∧ called (run_worker nows w) = called w.
Proof.
  induction nows as [|now nows IH] using rev_ind; intros Hlen.
  - exists t. simpl. rewrite app_nil_r, Nat.add_0_r.
    repeat split; first [done | lia].
  - rewrite length_app in *. simpl in *.
    destruct IH as (t1 & Ht1 & Htk & Hd & Hp & Hs & Hr & Ha & Hi & Hq & He & Hc); [lia|].
    rewrite run_worker_snoc.
    destruct (dispatch_failed_attempt now i e t1 (run_worker nows w))
      as (t2 & Ht2 & Htk2 & Hd2 & Hp2 & Hs2 & Hr2 & Ha2 & Hi2 & Hq2 & He2 & Hc2);
      [done|done|done|by rewrite Htk|lia|].
    exists t2. rewrite Nat.add_1_r, failed_attempts_S.
    repeat split; try congruence; try lia.
    by rewrite He2, He, <- app_assoc.
Qed.

(** After more than [N] turns: [N] failed attempts and the failure. *)
Lemma run_worker_exhausted (nows : list Z) :
  N < Z.of_nat (length nows) ->
  exists t',
    tasks (run_worker nows w) !! i = Some t'
    ∧ _promise t' = settle_promise (Rejected e) (_promise t)
    ∧ state t' = FAILED
    ∧ _retries t' = 0
    ∧ attempt t' = attempt t + N
    ∧ invocations t' = (invocations t + Z.to_nat N + 1)%nat
    ∧ _queue (run_worker nows w) = []
    ∧ emitted (run_worker nows w)
      = emitted w ++ failed_attempts i e (Z.to_nat N) ++ [EvFailedTask i e]
    ∧ called (run_worker nows w) = called w ++ notified (Rejected e) (_promise t).
Proof.
  induction nows as [|now nows IH] using rev_ind; intros Hlen; [simpl in Hlen; lia|].
  rewrite length_app in Hlen. simpl in Hlen. rewrite run_worker_snoc.
  destruct (decide (N < Z.of_nat (length nows))) as [Hlt|Hge].
  - destruct (IH Hlt) as (t1 & Ht1 & ? & ? & ? & ? & ? & Hq & ? & ?).
    rewrite dispatch_empty by done. by exists t1.
  - destruct (run_worker_retrying nows)
      as (t1 & Ht1 & Htk & Hd & Hp & Hs & Hr & Ha & Hi & Hq & He & Hc); [lia|].
    assert (Z.of_nat (length nows) = N) as Hk by lia.
    destruct (dispatch_failed_task now i e t1 (run_worker nows w))
      as (t2 & Ht2 & Hp2 & Hs2 & Hr2 & Ha2 & Hi2 & Hq2 & He2 & Hc2);
      [done|done|done|by rewrite Htk|lia|].
    exists t2. rewrite <- Hk, Nat2Z.id in *.
    split_and!; [done|congruence|done|lia|lia|lia|done| |].
    + by rewrite He2, He, <- app_assoc.
    + by rewrite Hc2, Hc, Hp.
Qed.
End AlwaysFailing.



(** ** Suspending the pool and waking it up *)

Lemma list_alter_insert {A : Type} (f : A -> A) (j : nat) (l : list A) (x : A) :
  l !! j = Some x -> alter f j l = <[j := f x]> l.
Proof.
  intros Hx. apply list_eq. intros k. destruct (decide (j = k)) as [<-|Hne].
  - rewrite list_lookup_alter_eq, Hx, list_lookup_insert_eq; [done|].
    by eapply lookup_lt_Some.
  - by rewrite list_lookup_alter_ne, list_lookup_insert_ne.
Qed.

Lemma next_Some_queued (now : Z) (w s : World) (i : nat) :
  next now w = (inr (Some i), s) ->
  tasks s = tasks w ∧ emitted s = emitted w
  ∧ exists t, tasks w !! i = Some t ∧ state t = QUEUED.
Proof.
  unfold next. destruct (next_loop _ _ _) as [o rest] eqn:E. simpl.
  intros [= -> <-]. split; [done|]. split; [done|].
  apply next_loop_Some in E as [Hq _]. unfold is_queued in Hq.
  destruct (tasks w !! i) as [t|]; [|done].
  apply bool_decide_eq_true in Hq. eauto.
Qed.

Lemma no_synchronous_throw_insert (w w' : World) (i : nat) (t t' : ScheduledTask) :
  no_synchronous_throw w ->
  tasks w !! i = Some t -> _task t' = _task t ->
  tasks w' = <[i := t']> (tasks w) ->
  no_synchronous_throw w'.
Proof.
  intros Hquiet Ht Htask Hw' k tk d n e. rewrite Hw'.
  intros [[<- <-]|[_ Hk]]%lookup_insert_Some.
  - rewrite Htask. by eapply Hquiet.
  - by eapply Hquiet.
Qed.

(** A run that does not throw at once emits nothing before it returns. *)
Lemma run_quiet (i : nat) (t : ScheduledTask) (w : World) :
  tasks w !! i = Some t -> state t = QUEUED ->
  no_synchronous_throw w ->
  exists r w',
    run i w = (inr r, w') ∧ emitted w' = emitted w ∧ no_synchronous_throw w'.
Proof.
  intros Ht Hs Hquiet. rewrite (run_queued _ _ _ Ht Hs). cbv zeta.
  destruct (executor _ _ _) as [v|e|o] eqn:E.
  - erewrite _finishSuccess_spec by apply lookup_insert_eq. do 2 eexists.
    split; [done|]. split; [done|].
    eapply (no_synchronous_throw_insert w _ i t
              (with_promise (settle_promise (Fulfilled v) (_promise (started t)))
                 (with_state COMPLETED (started t)))); [done|done|done|].
    simpl. by rewrite insert_insert_eq.
  - by destruct (Hquiet i t (data t) (invocations t) e).
  - do 2 eexists. split; [done|]. split; [done|].
    by eapply (no_synchronous_throw_insert w _ i t (with_inflight (Some o) (started t))).
Qed.

Lemma _main_sync_Awaits (now : Z) (j : nat) (pool pool' : RequestPool) :
  _main_turn now j pool = Awaits pool' -> _main_sync now j pool = pool'.
Proof. intros H. funelim (_main_sync now j pool); congruence. Qed.

Lemma _main_sync_Exits (now : Z) (j : nat) (pool pool' : RequestPool) :
  _main_turn now j pool = Exits pool' -> _main_sync now j pool = pool'.
Proof. intros H. funelim (_main_sync now j pool); congruence. Qed.

(** The first turn of a loop just started, with no executor that throws at
    once: the worker is left IDLE with nothing to run, or RUNNING the task it
    has taken; no other worker and nothing of the throttle is touched. *)
Lemma _main_sync_first_turn (now : Z) (j : nat) (w : Worker) (pool : RequestPool) :
  _workers pool !! j = Some w ->
  _running w = true -> _stall w = None ->
  no_synchronous_throw (_scheduler pool) ->
  exists st,
    (st = WorkerState.IDLE ∨ st = WorkerState.RUNNING)
    ∧ _workers (_main_sync now j pool) = <[j := with_worker_state st w]> (_workers pool)
    ∧ metadata_throttle (_main_sync now j pool) = metadata_throttle pool
    ∧ _throttlePolicy (_main_sync now j pool) = _throttlePolicy pool
    ∧ _cache (_main_sync now j pool) = _cache pool
    ∧ no_synchronous_throw (_scheduler (_main_sync now j pool)).
Proof.
  intros Hw Hrun Hstall Hquiet.
  assert (exists st p,
    (st = WorkerState.IDLE ∨ st = WorkerState.RUNNING)
    ∧ _main_turn now j pool = Awaits p
    ∧ _workers p = <[j := with_worker_state st w]> (_workers pool)
    ∧ metadata_throttle p = metadata_throttle pool
    ∧ _throttlePolicy p = _throttlePolicy pool
    ∧ _cache p = _cache pool
    ∧ no_synchronous_throw (_scheduler p)) as (st & p & Hst & Hturn & Hp).
  { unfold _main_turn. rewrite Hw, Hrun. cbn [negb].
    rewrite bool_decide_eq_false_2 by (by rewrite Hstall; intros []).
    cbv zeta. rewrite alter_worker_scheduler.
    destruct (next now (_scheduler pool)) as [[e|[i|]] s] eqn:Hnext.
    - unfold next in Hnext. discriminate.
    - apply next_Some_queued in Hnext as (Htasks & Hemitted & t & Ht & Hs).
      destruct (run_quiet i t s) as (r & s' & Hr & He & Hquiet');
        [by rewrite Htasks|done|intros k tk; rewrite Htasks; by apply Hquiet|].
      exists WorkerState.RUNNING. eexists. split; [by right|].
      unfold in_pool. cbn [_scheduler alter_worker with_workers with_scheduler].
      rewrite Hr. cbn [fst snd]. rewrite He, drop_all. cbn [foldl].
      split; [done|].
      cbn [_workers with_scheduler metadata_throttle _throttlePolicy _cache _scheduler].
      split; [|done]. unfold alter_worker, with_workers, with_scheduler. cbn [_workers].
      rewrite (list_alter_insert _ _ _ _ Hw).
      erewrite list_alter_insert
        by (apply list_lookup_insert_eq; by eapply lookup_lt_Some).
      by rewrite list_insert_insert_eq.
    - exists WorkerState.IDLE. eexists. split; [by left|]. split; [done|].
      cbn [_workers with_scheduler alter_worker with_workers metadata_throttle
           _throttlePolicy _cache _scheduler].
      split; [|split_and!; try done].
      + unfold alter_worker, with_workers, with_scheduler. cbn [_workers].
        by apply list_alter_insert.
      + pose proof (next_tasks now (_scheduler pool)) as Htasks.
        rewrite Hnext in Htasks. simpl in Htasks.
        intros k tk. rewrite Htasks. by apply Hquiet. }
  exists st. rewrite (_main_sync_Awaits _ _ _ _ Hturn). by split.
Qed.

(** Starting a worker that shows STOPPED and has no loop running. *)
Lemma Worker_tryStart_stopped (now : Z) (j : nat) (w : Worker) (pool : RequestPool) :
  _workers pool !! j = Some w ->
  _running w = false ->
  no_synchronous_throw (_scheduler pool) ->
  exists st,
    (st = WorkerState.IDLE ∨ st = WorkerState.RUNNING)
    ∧ fst (Worker_tryStart now j pool) = true
    ∧ _workers (snd (Worker_tryStart now j pool))
      = <[j := {| _running := true; _stall := None; _state := st |}]> (_workers pool)
    ∧ metadata_throttle (snd (Worker_tryStart now j pool)) = metadata_throttle pool
    ∧ _throttlePolicy (snd (Worker_tryStart now j pool)) = _throttlePolicy pool
    ∧ _cache (snd (Worker_tryStart now j pool)) = _cache pool
    ∧ no_synchronous_throw (_scheduler (snd (Worker_tryStart now j pool))).
Proof.
  intros Hw Hrun Hquiet.
  unfold Worker_tryStart, Worker_start. rewrite Hw, Hrun. cbn [andb negb fst snd].
  match goal with |- context [_main_sync now j ?p] => set (started := p) end.
  assert (Hj : (j < length (_workers pool))%nat) by (by eapply lookup_lt_Some).
  assert (Hstarted : _workers started
            = <[j := {| _running := true; _stall := None; _state := _state w |}]>
                (_workers pool)).
  { unfold started, alter_worker, with_workers. cbn [_workers].
    rewrite (list_alter_insert _ _ _ _ Hw).
    erewrite list_alter_insert by (by apply list_lookup_insert_eq).
    by rewrite list_insert_insert_eq. }
  destruct (_main_sync_first_turn now j
              {| _running := true; _stall := None; _state := _state w |} started)
    as (st & Hst & Hworkers & Hmeta & Hpolicy & Hcache & Hquiet');
    [by rewrite Hstarted, list_lookup_insert_eq|done|done|done|].
  exists st. split; [done|]. split; [done|].
  rewrite Hworkers, Hstarted, list_insert_insert_eq. by split.
Qed.

(** [tryStop] on a worker leaves it with no loop to go on. *)
Lemma Worker_tryStop_running (w : Worker) :
  _running (snd (Worker_tryStop w)) = false
  ∧ _state (snd (Worker_tryStop w)) = _state w.
Proof. unfold Worker_tryStop, Worker_stop. by destruct (_running w) eqn:E. Qed.

Lemma doThrottle_stops_all (now throttle_until : Z) (pool : RequestPool) :
  Forall (fun worker => _running worker = false) (_workers (doThrottle now throttle_until pool))
  ∧ length (_workers (doThrottle now throttle_until pool)) = length (_workers pool)
  ∧ (_state <$> _workers (doThrottle now throttle_until pool)) = (_state <$> _workers pool).
Proof.
  unfold doThrottle. cbn [_workers with_throttle with_workers]. split; [|split].
  - apply Forall_forall. intros w' Hin. apply list_elem_of_fmap in Hin as (w & -> & _).
    apply Worker_tryStop_running.
  - apply length_map.
  - change (map ?f ?l) with (f <$> l). rewrite <- list_fmap_compose.
    apply list_fmap_ext. intros _ w _. apply Worker_tryStop_running.
Qed.

(** What [wake] does. *)
Lemma wake_spec (now : Z) (pool : RequestPool) :
  Forall worker_settled (_workers pool) ->
  no_synchronous_throw (_scheduler pool) ->
  match list_find (fun f => _state f = WorkerState.STOPPED) (_workers pool) with
  | Some (j, _) =>
      exists st,
        (st = WorkerState.IDLE ∨ st = WorkerState.RUNNING)
        ∧ _workers (wake now pool)
          = <[j := {| _running := true; _stall := None; _state := st |}]> (_workers pool)
        ∧ metadata_throttle (wake now pool) = metadata_throttle pool
  | None =>
      _workers (wake now pool) = _workers pool
      ∧ metadata_throttle (wake now pool)
        = {| until := until (metadata_throttle pool);
             timer := timer (metadata_throttle pool);
             interval := None |}
  end
  ∧ _throttlePolicy (wake now pool) = _throttlePolicy pool
  ∧ no_synchronous_throw (_scheduler (wake now pool)).
Proof.
  intros Hsettled Hquiet. unfold wake.
  destruct (list_find _ _) as [[j w]|] eqn:Hfind; [|done].
  apply list_find_Some in Hfind as (Hw & Hstopped & _).
  assert (_running w = false) as Hrun.
  { rewrite Forall_forall in Hsettled. apply Hsettled; [|done].
    by eapply list_elem_of_lookup_2. }
  destruct (Worker_tryStart_stopped now j w pool Hw Hrun Hquiet)
    as (st & Hst & _ & Hworkers & Hmeta & Hpolicy & _ & Hquiet').
  split; [|done]. by exists st.
Qed.

(** The invariants of the wake-up are kept by what the policy does. *)
Lemma throttle_settled (now throttle_until : Z) (pool : RequestPool) :
  Forall worker_settled (_workers pool) ->
  Forall worker_settled (_workers (throttle now throttle_until pool)).
Proof.
  intros Hsettled. unfold throttle. case_match; [done|].
  eapply Forall_impl; [apply doThrottle_stops_all|].
  intros w Hrun _. exact Hrun.
Qed.

Lemma Worker_finally_settled (w : Worker) : worker_settled (Worker_finally w).
Proof. by intros _. Qed.

Lemma wake_settled (now : Z) (pool : RequestPool) :
  Forall worker_settled (_workers pool) ->
  no_synchronous_throw (_scheduler pool) ->
  Forall worker_settled (_workers (wake now pool)).
Proof.
  intros Hsettled Hquiet. destruct (wake_spec now pool Hsettled Hquiet) as [Hwake _].
  destruct (list_find _ _) as [[j w]|].
  - destruct Hwake as (st & Hst & -> & _). apply Forall_insert; [done|].
    intros Hstopped. simpl in Hstopped. by destruct Hst as [-> | ->].
  - destruct Hwake as [-> _]. done.
Qed.

Lemma wake_no_synchronous_throw (now : Z) (pool : RequestPool) :
  Forall worker_settled (_workers pool) ->
  no_synchronous_throw (_scheduler pool) ->
  no_synchronous_throw (_scheduler (wake now pool)).
Proof. intros Hsettled Hquiet. by apply wake_spec. Qed.

(** A pool as its constructor leaves it satisfies both. *)
Lemma add_workers_invariants (now : Z) (n : nat) (pool : RequestPool) :
  Forall worker_settled (_workers pool) ->
  no_synchronous_throw (_scheduler pool) ->
  Forall worker_settled (_workers (add_workers now n pool))
  ∧ no_synchronous_throw (_scheduler (add_workers now n pool)).
Proof.
  revert pool. induction n as [|n IH]; intros pool Hsettled Hquiet; [done|].
  simpl.
  destruct (Worker_tryStart_stopped now (length (_workers pool)) new_Worker
              (with_workers (_workers pool ++ [new_Worker]) pool))
    as (st & Hst & _ & Hworkers & _ & _ & _ & Hquiet'); [|done|done|].
  { cbn [_workers with_workers]. by rewrite lookup_app_r, Nat.sub_diag. }
  apply IH; [|done]. rewrite Hworkers. cbn [_workers with_workers].
  apply Forall_insert.
  - apply Forall_app. split; [done|]. constructor; [|done]. by intros _.
  - intros Hstopped. simpl in Hstopped. by destruct Hst as [-> | ->].
Qed.

Lemma new_RequestPool_invariants (now : Z) (opt_workers : option nat)
    (opt_policy : option SuspendPolicy) :
  Forall worker_settled (_workers (new_RequestPool now opt_workers opt_policy))
  ∧ no_synchronous_throw (_scheduler (new_RequestPool now opt_workers opt_policy)).
Proof.
  unfold new_RequestPool, setWorkerLimit. cbn [_workers length].
  rewrite decide_False by lia. apply add_workers_invariants; [done|].
  intros i t d n e Ht. discriminate Ht.
Qed.

Lemma request_no_synchronous_throw (now : Z) (instance : Request) (pool : RequestPool) :
  no_synchronous_throw (_scheduler pool) ->
  no_synchronous_throw (_scheduler (snd (request now instance pool))).
Proof.
  intros Hquiet. unfold request.
  match goal with |- context [match ?h with Some _ => _ | None => _ end] =>
    destruct h end; [done|].
  assert (forall p, no_synchronous_throw (_scheduler p) ->
            no_synchronous_throw
              (_scheduler (if cacheable instance
                           then with_cache (<[key instance := scheduled_handle (_scheduler pool)]> (_cache p)) p
                           else p))) as Hcache
    by (intros p; by destruct (cacheable instance)).
  cbv zeta. apply Hcache. cbn [_scheduler with_scheduler].
  intros i t d n e. unfold exec, schedule. cbn [snd tasks with_emitted with_queue with_counter with_tasks].
  intros [[<- <-]|[_ Ht]]%lookup_insert_Some; [done|]. by eapply Hquiet.
Qed.

(** C9: a signal whose window has not elapsed and that [canThrottle] lets
    through is applied by [doThrottle] with the (possibly limited) [until]:
    that [until] is recorded, no interval is armed any more and the one
    timeout armed is the new one, due at [until], and every worker of the
    pool has been stopped (no loop is to go on; what the workers show is not
    touched).  When the timeout fires it calls [wake], forgets the timeout
    and arms the interval at the rate of the policy, 5000 unless given; each
    tick of the interval calls [wake].  [wake] starts exactly one worker, the
    first that shows STOPPED, and leaves all others and the timers alone; when
    no worker shows STOPPED it clears the interval.  This is for a pool whose
    workers show STOPPED only when no loop of theirs runs and whose tasks do
    not throw synchronously, and [wake] leaves the pool such a pool. *)
Theorem suspend_stops_all_and_wakes_one_per_tick
    (now throttle_until later : Z) (pool waking : RequestPool) :
  throttle_until - now > 0 ->
  canThrottle throttle_until pool = true ->
  Forall worker_settled (_workers waking) ->
  no_synchronous_throw (_scheduler waking) ->
  let recorded :=
    match throttleLimit (_throttlePolicy pool) with
    | Some limit =>
        if bool_decide (throttle_until - now > limit) then now + limit else throttle_until
    | None => throttle_until
    end in
  let stopped := fun f => _state f = WorkerState.STOPPED in
  (throttle now throttle_until pool = doThrottle now recorded pool
   ∧ metadata_throttle (throttle now throttle_until pool)
     = {| until := Some recorded; timer := Some recorded; interval := None |}
   ∧ Forall (fun worker => _running worker = false)
       (_workers (throttle now throttle_until pool))
   ∧ (_state <$> _workers (throttle now throttle_until pool)) = (_state <$> _workers pool))
  ∧ (timer_fires later waking
     = with_throttle
         {| until := until (metadata_throttle (wake later waking));
            timer := None;
            interval := Some (_rate (_throttlePolicy waking)) |}
         (wake later waking)
     ∧ interval_ticks later waking = wake later waking
     ∧ forall limit, _rate (new_SuspendPolicy limit None) = 5000)
  ∧ (forall j worker,
       list_find stopped (_workers waking) = Some (j, worker) ->
       exists st,
         (st = WorkerState.IDLE ∨ st = WorkerState.RUNNING)
         ∧ _workers (wake later waking)
           = <[j := {| _running := true; _stall := None; _state := st |}]> (_workers waking)
         ∧ (forall j', j' ≠ j -> _workers (wake later waking) !! j' = _workers waking !! j')
         ∧ metadata_throttle (wake later waking) = metadata_throttle waking)
  ∧ (list_find stopped (_workers waking) = None ->
       _workers (wake later waking) = _workers waking
       ∧ metadata_throttle (wake later waking)
         = {| until := until (metadata_throttle waking);
              timer := timer (metadata_throttle waking);
              interval := None |})
  ∧ (Forall worker_settled (_workers (wake later waking))
     ∧ no_synchronous_throw (_scheduler (wake later waking))).
Proof.
  intros Hms Hcan Hsettled Hquiet recorded stopped.
  assert (Happlied : throttle now throttle_until pool = doThrottle now recorded pool).
  { unfold throttle. rewrite Hcan, bool_decide_eq_false_2 by lia. done. }
  destruct (wake_spec later waking Hsettled Hquiet) as (Hwake & Hpolicy & _).
  split_and!.
  - done.
  - rewrite Happlied. unfold doThrottle. cbn [metadata_throttle with_throttle].
    do 2 f_equal. lia.
  - rewrite Happlied. apply doThrottle_stops_all.
  - rewrite Happlied. apply doThrottle_stops_all.
  - unfold timer_fires. cbv zeta. by rewrite Hpolicy.
  - done.
  - done.
  - intros j worker Hfind. fold stopped in Hwake. rewrite Hfind in Hwake.
    destruct Hwake as (st & Hst & Hworkers & Hmeta).
    exists st. split_and!; try done.
    intros j' Hne. by rewrite Hworkers, list_lookup_insert_ne.
  - intros Hfind. fold stopped in Hwake. by rewrite Hfind in Hwake.
  - by apply wake_settled.
  - by apply wake_no_synchronous_throw.
Qed.

(** A pool of two workers, one request in its queue, throttled at time 100
    until 10100; both loops have ended by the time the timeout fires. *)
Definition throttled_pool : RequestPool :=
  throttle 100 10100 (snd (request 5 request_a (new_RequestPool 0 (Some 2%nat) None))).

Definition waking_pool : RequestPool :=
  alter_worker Worker_finally 1 (alter_worker Worker_finally 0 throttled_pool).

Lemma suspend_stops_all_and_wakes_one_per_tick_witness :
  metadata_throttle throttled_pool
    = {| until := Some 10100; timer := Some 10100; interval := None |}
  ∧ Forall (fun worker => _running worker = false) (_workers throttled_pool)
  ∧ exists st,
      _workers (wake 10100 waking_pool)
      = <[0%nat := {| _running := true; _stall := None; _state := st |}]>
          (_workers waking_pool).
Proof.
  destruct (suspend_stops_all_and_wakes_one_per_tick 100 10100 10100
              (snd (request 5 request_a (new_RequestPool 0 (Some 2%nat) None)))
              waking_pool)
    as ((_ & Hmeta & Hstopped & _) & _ & Hwake & _ & _).
  - lia.
  - reflexivity.
  - repeat constructor.
  - change (no_synchronous_throw
              (_scheduler (snd (request 5 request_a
                                  (new_RequestPool 0 (Some 2%nat) None))))).
    apply request_no_synchronous_throw. intros i t d n e Ht. discriminate Ht.
  - split; [exact Hmeta|]. split; [exact Hstopped|].
    destruct (Hwake 0%nat new_Worker eq_refl) as (st & _ & Hworkers & _).
    exists st. exact Hworkers.
Defined.

(** ** An outcome nobody was waiting for is lost *)

(** Methods of the task behind [j] leave every other task alone and hand out
    no id. *)
Section Frame.
Variable j : nat.

Definition only_touches {A : Type} (m : M A) : Prop :=
  forall w,
    _ID_COUNTER (snd (m w)) = _ID_COUNTER w
    ∧ forall i, i ≠ j -> tasks (snd (m w)) !! i = tasks w !! i.

Lemma only_touches_ret {A : Type} (a : A) : only_touches (mret a).
Proof. by intros w. Qed.

Lemma only_touches_throw {A : Type} (e : JsError) : only_touches (@throw A e).
Proof. by intros w. Qed.

Lemma only_touches_bind {A B : Type} (m : M A) (k : A -> M B) :
  only_touches m -> (forall a, only_touches (k a)) -> only_touches (m ≫= k).
Proof.
  intros Hm Hk w. rewrite bind_unfold. destruct (Hm w) as [Hc Ht].
  destruct (m w) as [[e|a] w1]; simpl in *; [done|].
  destruct (Hk a w1) as [Hc' Ht']. split; [congruence|].
  intros i Hi. by rewrite Ht', Ht.
Qed.

Lemma only_touches_try_catch {A : Type} (m : M A) (h : JsError -> M A) :
  only_touches m -> (forall e, only_touches (h e)) -> only_touches (try_catch m h).
Proof.
  intros Hm Hh w. unfold try_catch. destruct (Hm w) as [Hc Ht].
  destruct (m w) as [[e|a] w1]; simpl in *; [|done].
  destruct (Hh e w1) as [Hc' Ht']. split; [congruence|].
  intros i Hi. by rewrite Ht', Ht.
Qed.

Lemma only_touches_deref (i : nat) : only_touches (deref i).
Proof. intros w. unfold deref. by destruct (tasks w !! i). Qed.

Lemma only_touches_assign (f : ScheduledTask -> ScheduledTask) :
  only_touches (assign j f).
Proof. intros w. split; [done|]. intros i Hi. simpl. by rewrite lookup_alter_ne. Qed.

Lemma only_touches_update (f : World -> World) :
  (forall w, tasks (f w) = tasks w) ->
  (forall w, _ID_COUNTER (f w) = _ID_COUNTER w) ->
  only_touches (update f).
Proof. intros Ht Hc w. simpl. by rewrite Ht, Hc. Qed.

Ltac frame :=
  repeat first
    [ apply only_touches_ret
    | apply only_touches_throw
    | apply only_touches_deref
    | apply only_touches_assign
    | apply only_touches_update; solve [auto]
    | apply only_touches_bind; [|intros ?]
    | apply only_touches_try_catch; [|intros ?]
    | case_decide
    | case_match ].

Lemma only_touches_call_resolver (o : Outcome) : only_touches (call_resolver j o).
Proof. unfold call_resolver. frame. Qed.

Lemma only_touches_then (k : nat) : only_touches (then_ j k).
Proof. unfold then_. frame. Qed.

Lemma only_touches__finishSuccess (v : Value) : only_touches (_finishSuccess j v).
Proof. unfold _finishSuccess, _resolve. frame; apply only_touches_call_resolver. Qed.

Lemma only_touches__finishError (e : JsError) : only_touches (_finishError j e).
Proof.
  unfold _finishError, _reject, _reschedule, emit.
  frame; apply only_touches_call_resolver.
Qed.

Lemma only_touches_ScheduledTask_cancel : only_touches (ScheduledTask_cancel j).
Proof.
  unfold ScheduledTask_cancel, Scheduler_cancel_with, _reject.
  frame; apply only_touches_call_resolver.
Qed.

Lemma only_touches_Scheduler_cancel : only_touches (Scheduler_cancel j).
Proof.
  unfold Scheduler_cancel, Scheduler_cancel_with.
  frame; apply only_touches_ScheduledTask_cancel.
Qed.

Lemma only_touches_run : only_touches (run j).
Proof.
  unfold run. frame;
    first [apply only_touches__finishSuccess | apply only_touches__finishError].
Qed.

Lemma only_touches_run_callback : only_touches (run_callback j).
Proof.
  unfold run_callback. frame;
    first [apply only_touches__finishSuccess | apply only_touches__finishError].
Qed.

Lemma only_touches_await_run : only_touches (await_run j).
Proof.
  unfold await_run. frame;
    first [apply only_touches_run | apply only_touches_run_callback].
Qed.
End Frame.

(** A task that has come to its end with a promise that is still pending:
    the outcome was given to nobody. *)
Definition outcome_lost (i : nat) (w : World) : Prop :=
  (i < _ID_COUNTER w)%nat
  ∧ exists t p,
      tasks w !! i = Some t
      ∧ (state t = COMPLETED ∨ state t = FAILED ∨ state t = CANCELLED)
      ∧ inflight t = None
      ∧ _promise t = Some p
      ∧ settled p = None.

Lemma outcome_lost_frame (i j : nat) {A : Type} (m : M A) (w : World) :
  only_touches j m -> i ≠ j -> outcome_lost i w -> outcome_lost i (exec m w).
Proof.
  intros Hm Hne [Hc Ht]. destruct (Hm w) as [Hc' Ht']. unfold exec.
  split; [lia|]. by rewrite Ht'.
Qed.

(** Nothing that happens later settles such a promise. *)
Lemma outcome_lost_perform (i : nat) (w : World) (op : Op) :
  outcome_lost i w -> outcome_lost i (perform w op).
Proof.
  intros Hlost. pose proof Hlost as (Hc & t & p & Ht & Hs & Hin & Hp & Hpending).
  assert (Hnq : state t ≠ QUEUED) by (destruct Hs as [-> | [-> | ->]]; discriminate).
  destruct op as [now task options|now|j|j|j|j|j k|now]; simpl.
  - split; [simpl; lia|]. exists t, p. unfold exec, schedule. simpl.
    by rewrite lookup_insert_ne by lia.
  - split; [done|]. by exists t, p.
  - destruct (decide (i = j)) as [<-|Hne].
    + unfold exec, Scheduler_cancel, Scheduler_cancel_with.
      rewrite bind_unfold, (deref_Some _ _ _ Ht). case_decide; [|done].
      by rewrite (ScheduledTask_cancel_not_queued _ _ _ Ht Hnq).
    + apply (outcome_lost_frame i j); [apply only_touches_Scheduler_cancel|done|done].
  - destruct (decide (i = j)) as [<-|Hne].
    + unfold exec. by rewrite (ScheduledTask_cancel_not_queued _ _ _ Ht Hnq).
    + apply (outcome_lost_frame i j); [apply only_touches_ScheduledTask_cancel|done|done].
  - destruct (decide (i = j)) as [<-|Hne].
    + unfold exec. by rewrite (run_not_queued _ _ _ Ht Hnq).
    + apply (outcome_lost_frame i j); [apply only_touches_run|done|done].
  - destruct (decide (i = j)) as [<-|Hne].
    + unfold exec, run_callback. rewrite bind_unfold, (deref_Some _ _ _ Ht), Hin. done.
    + apply (outcome_lost_frame i j); [apply only_touches_run_callback|done|done].
  - destruct (decide (i = j)) as [<-|Hne].
    + unfold exec. rewrite (then__spec _ _ _ _ Ht), Hp. simpl. rewrite Hpending.
      split; [done|]. simpl. eexists _, _. rewrite lookup_insert_eq. done.
    + apply (outcome_lost_frame i j); [apply only_touches_then|done|done].
  - unfold exec, dispatch. rewrite bind_unfold.
    destruct (next now w) as [[e|[j|]] w1] eqn:Hnext.
    + unfold next in Hnext. discriminate.
    + pose proof (next_Some_queued _ _ _ _ Hnext) as (Htasks & _ & tj & Htj & Hsj).
      assert (i ≠ j) as Hne by (intros <-; congruence).
      apply (outcome_lost_frame i j (await_run j) w1);
        [apply only_touches_await_run|done|].
      unfold next in Hnext. injection Hnext as _ <-.
      split; [done|]. by exists t, p.
    + unfold next in Hnext. injection Hnext as _ <-. split; [done|]. by exists t, p.
Qed.

Lemma outcome_lost_history (i : nat) (ops : list Op) (w : World) :
  outcome_lost i w -> outcome_lost i (foldl perform w ops).
Proof.
  revert w. induction ops as [|op ops IH]; intros w Hlost; [done|].
  simpl. by apply IH, outcome_lost_perform.
Qed.

(** A continuation put on a task that came to its end before any promise
    method was called on it waits for ever. *)
Lemma then_too_late (i k : nat) (t : ScheduledTask) (w : World) :
  (i < _ID_COUNTER w)%nat ->
  tasks w !! i = Some t ->
  state t = COMPLETED ∨ state t = FAILED ∨ state t = CANCELLED ->
  inflight t = None ->
  _promise t = None ->
  called (exec (then_ i k) w) = called w
  ∧ forall ops, outcome_lost i (foldl perform (exec (then_ i k) w) ops).
Proof.
  intros Hc Ht Hs Hin Hp. unfold exec. rewrite (then_without_promise _ _ _ _ Ht Hp).
  split; [done|]. intros ops. apply outcome_lost_history.
  split; [done|]. simpl. eexists _, _. rewrite lookup_insert_eq. done.
Qed.

(** A task that returns at once. *)
Definition hello_task : Task :=
  {| executor := fun _ _ => Returns "Hello, world!"; task_priority := None |}.

(** C2 on the code: a task is scheduled and run to completion, to terminal
    failure, or cancelled, before anything was put on it; the continuation 7
    put on it afterwards is not called: the log of calls stays empty, the
    promise made for it is pending, and it stays pending whatever is done
    later. *)
Theorem then_after_settling_is_never_called :
  let completed := exec (schedule 0 hello_task no_options;; dispatch 1) new_Scheduler in
  let failed := exec (schedule 0 failing_task no_options;; dispatch 1) new_Scheduler in
  let cancelled :=
    exec (schedule 0 hello_task no_options;; Scheduler_cancel 0%nat) new_Scheduler in
  ((state <$> tasks completed !! 0%nat) = Some COMPLETED
   ∧ called (exec (then_ 0%nat 7%nat) completed) = []
   ∧ (_promise <$> tasks (exec (then_ 0%nat 7%nat) completed) !! 0%nat)
     = Some (Some {| settled := None; reactions := [7%nat] |})
   ∧ forall ops, outcome_lost 0 (foldl perform (exec (then_ 0%nat 7%nat) completed) ops))
  ∧ ((state <$> tasks failed !! 0%nat) = Some FAILED
     ∧ called (exec (then_ 0%nat 7%nat) failed) = []
     ∧ (_promise <$> tasks (exec (then_ 0%nat 7%nat) failed) !! 0%nat)
       = Some (Some {| settled := None; reactions := [7%nat] |})
     ∧ forall ops, outcome_lost 0 (foldl perform (exec (then_ 0%nat 7%nat) failed) ops))
  ∧ ((state <$> tasks cancelled !! 0%nat) = Some CANCELLED
     ∧ called (exec (then_ 0%nat 7%nat) cancelled) = []
     ∧ (_promise <$> tasks (exec (then_ 0%nat 7%nat) cancelled) !! 0%nat)
       = Some (Some {| settled := None; reactions := [7%nat] |})
     ∧ forall ops, outcome_lost 0 (foldl perform (exec (then_ 0%nat 7%nat) cancelled) ops)).
Proof.
  intros completed failed cancelled.
  split_and!; try reflexivity.
  - eapply then_too_late; [|reflexivity|..]; [vm_compute; lia|auto|done|done].
  - eapply then_too_late; [|reflexivity|..]; [vm_compute; lia|auto|done|done].
  - eapply then_too_late; [|reflexivity|..]; [vm_compute; lia|auto|done|done].
Qed.

(** * Further properties of the scheduler and its tasks *)

(** ** A task that fails a few times and then succeeds *)

(** One turn of the worker on a queue that holds just one task, whose
    executor fails this time while a retry is left. *)
Lemma dispatch_attempt_fails (now : Z) (i : nat) (e : JsError) (t : ScheduledTask) (w : World) :
  _queue w = [i] -> tasks w !! i = Some t -> state t = QUEUED ->
  (executor (_task t) (data t) (invocations t) = Throws e
   ∨ executor (_task t) (data t) (invocations t) = Async (Rejected e)) ->
  0 < _retries t ->
  exists t',
    tasks (exec (dispatch now) w) !! i = Some t'
    ∧ _task t' = _task t ∧ data t' = data t ∧ _promise t' = _promise t
    ∧ state t' = QUEUED
    ∧ _retries t' = _retries t - 1
    ∧ attempt t' = attempt t + 1
    ∧ invocations t' = S (invocations t)
    ∧ _queue (exec (dispatch now) w) = [i]
    ∧ emitted (exec (dispatch now) w) = emitted w ++ [EvSchedule i; EvFailedAttempt i e]
    ∧ called (exec (dispatch now) w) = called w.
Proof.
  intros Hq Ht Hs Hfail Hr. unfold exec, dispatch.
  rewrite bind_unfold, (next_single _ _ _ _ Hq Ht Hs).
  unfold await_run, try_catch. rewrite bind_unfold.
  rewrite (run_queued i t) by done. cbv zeta.
  destruct Hfail as [-> | ->].
  - eexists. simpl.
    erewrite _finishError_retry; [ | apply lookup_insert_eq | simpl; lia ].
    simpl. rewrite insert_insert_eq, lookup_insert_eq. split; [done|].
    simpl. done.
  - eexists. unfold run_callback. repeat step. simpl. repeat step. simpl.
    erewrite _finishError_retry; [ | apply lookup_insert_eq | simpl; lia ].
    simpl. rewrite !insert_insert_eq, lookup_insert_eq. split; [done|].
    simpl. done.
Qed.

(** The same turn when the executor succeeds. *)
Lemma dispatch_attempt_succeeds (now : Z) (i : nat) (v : Value) (t : ScheduledTask) (w : World) :
  _queue w = [i] -> tasks w !! i = Some t -> state t = QUEUED ->
  (executor (_task t) (data t) (invocations t) = Returns v
   ∨ executor (_task t) (data t) (invocations t) = Async (Fulfilled v)) ->
  exists t',
    tasks (exec (dispatch now) w) !! i = Some t'
    ∧ _promise t' = settle_promise (Fulfilled v) (_promise t)
    ∧ state t' = COMPLETED
    ∧ _retries t' = _retries t
    ∧ attempt t' = attempt t
    ∧ invocations t' = S (invocations t)
    ∧ _queue (exec (dispatch now) w) = []
    ∧ emitted (exec (dispatch now) w) = emitted w
    ∧ called (exec (dispatch now) w) = called w ++ notified (Fulfilled v) (_promise t).
Proof.
  intros Hq Ht Hs Hok. unfold exec, dispatch.
  rewrite bind_unfold, (next_single _ _ _ _ Hq Ht Hs).
  unfold await_run, try_catch. rewrite bind_unfold.
  rewrite (run_queued i t) by done. cbv zeta.
  destruct Hok as [-> | ->].
  - eexists. simpl.
    erewrite _finishSuccess_spec; [ | apply lookup_insert_eq ].
    simpl. rewrite insert_insert_eq, lookup_insert_eq. split; [done|].
    simpl. done.
  - eexists. unfold run_callback. repeat step. simpl. repeat step. simpl.
    erewrite _finishSuccess_spec; [ | apply lookup_insert_eq ].
    simpl. rewrite !insert_insert_eq, lookup_insert_eq. split; [done|].
    simpl. done.
Qed.

(** The executor of [task], called with [d], fails with [e] at its calls
    number [c] to [c + k - 1] and gives [v] at call number [c + k]. *)
Definition fails_then_succeeds (c k : nat) (e : JsError) (v : Value)
    (task : Task) (d : option Value) : Prop :=
  (forall n, (c <= n < c + k)%nat ->
     executor task d n = Throws e ∨ executor task d n = Async (Rejected e))
  ∧ (executor task d (c + k)%nat = Returns v
     ∨ executor task d (c + k)%nat = Async (Fulfilled v)).

Section Flaky.
Variables (w : World) (i : nat) (t : ScheduledTask) (k : nat) (e : JsError) (v : Value).
Hypothesis Hqueue : _queue w = [i].
Hypothesis Htask : tasks w !! i = Some t.
Hypothesis Hstate : state t = QUEUED.
Hypothesis Hbudget : Z.of_nat k ≤ _retries t.
Hypothesis Hflaky : fails_then_succeeds (invocations t) k e v (_task t) (data t).

Lemma run_worker_flaky_retrying (nows : list Z) :
  (length nows <= k)%nat ->
  exists t',
    tasks (run_worker nows w) !! i = Some t'
    ∧ _task t' = _task t ∧ data t' = data t ∧ _promise t' = _promise t
    ∧ state t' = QUEUED
    ∧ _retries t' = _retries t - Z.of_nat (length nows)
    ∧ attempt t' = attempt t + Z.of_nat (length nows)
    ∧ invocations t' = (invocations t + length nows)%nat
    ∧ _queue (run_worker nows w) = [i]
    ∧ emitted (run_worker nows w) = emitted w ++ failed_attempts i e (length nows)
    ∧ called (run_worker nows w) = called w.
Proof.
  induction nows as [|now nows IH] using rev_ind; intros Hlen.
  - exists t. simpl. rewrite app_nil_r, Nat.add_0_r.
    split_and!; first [done | lia].
  - rewrite length_app in *. simpl in *.
    destruct IH as (t1 & Ht1 & Htk & Hd & Hp & Hs & Hr & Ha & Hi & Hq & He & Hc); [lia|].
    rewrite run_worker_snoc.
    destruct (dispatch_attempt_fails now i e t1 (run_worker nows w))
      as (t2 & Ht2 & Htk2 & Hd2 & Hp2 & Hs2 & Hr2 & Ha2 & Hi2 & Hq2 & He2 & Hc2);
      [done|done|done| |lia|].
    { rewrite Htk, Hd, Hi. apply Hflaky. lia. }
    exists t2. rewrite Nat.add_1_r, failed_attempts_S.
    split_and!; try congruence; try lia.
    by rewrite He2, He, <- app_assoc.
Qed.

Lemma run_worker_flaky_done (nows : list Z) :
  (k < length nows)%nat ->
  exists t',
    tasks (run_worker nows w) !! i = Some t'
    ∧ _promise t' = settle_promise (Fulfilled v) (_promise t)
    ∧ state t' = COMPLETED
    ∧ _retries t' = _retries t - Z.of_nat k
    ∧ attempt t' = attempt t + Z.of_nat k
    ∧ invocations t' = (invocations t + k + 1)%nat
    ∧ _queue (run_worker nows w) = []
    ∧ emitted (run_worker nows w) = emitted w ++ failed_attempts i e k
    ∧ called (run_worker nows w) = called w ++ notified (Fulfilled v) (_promise t).
Proof.
  induction nows as [|now nows IH] using rev_ind; intros Hlen; [simpl in Hlen; lia|].
  rewrite length_app in Hlen. simpl in Hlen. rewrite run_worker_snoc.
  destruct (decide (k < length nows)%nat) as [Hlt|Hge].
  - destruct (IH Hlt) as (t1 & Ht1 & ? & ? & ? & ? & ? & Hq & ? & ?).
    rewrite dispatch_empty by done. by exists t1.
  - destruct (run_worker_flaky_retrying nows)
      as (t1 & Ht1 & Htk & Hd & Hp & Hs & Hr & Ha & Hi & Hq & He & Hc); [lia|].
    assert (length nows = k) as Hk by lia.
    destruct (dispatch_attempt_succeeds now i v t1 (run_worker nows w))
      as (t2 & Ht2 & Hp2 & Hs2 & Hr2 & Ha2 & Hi2 & Hq2 & He2 & Hc2);
      [done|done|done| |].
    { rewrite Htk, Hd, Hi, Hk. apply Hflaky. }
    exists t2. rewrite Hk in *.
    split_and!; [done|congruence|done|lia|lia|lia|done|congruence|].
    by rewrite Hc2, Hc, Hp.
Qed.
End Flaky.

(** X1: a QUEUED task, alone in the queue, whose executor fails its next [k]
    calls and succeeds at the one after, with at least [k] retries left.  A
    worker taking [k + 1] turns or more calls the executor exactly [k + 1]
    times; the task ends COMPLETED with [k] retries spent on [k] attempts,
    the queue ends empty, failedAttempt was emitted [k] times and failedTask
    never, and the promise of the task, when one has been made, is fulfilled
    with the value and its continuations are called with it. *)
Theorem flaky_task_completes_after_k_failures
    (w : World) (i : nat) (t : ScheduledTask) (k : nat) (e : JsError) (v : Value)
    (nows : list Z) :
  _queue w = [i] ->
  tasks w !! i = Some t ->
  state t = QUEUED ->
  Z.of_nat k ≤ _retries t ->
  fails_then_succeeds (invocations t) k e v (_task t) (data t) ->
  (k < length nows)%nat ->
  let w' := run_worker nows w in
  exists t',
    tasks w' !! i = Some t'
    ∧ state t' = COMPLETED
    ∧ invocations t' = (invocations t + k + 1)%nat
    ∧ _retries t' = _retries t - Z.of_nat k
    ∧ attempt t' = attempt t + Z.of_nat k
    ∧ _queue w' = []
    ∧ emitted w' = emitted w ++ failed_attempts i e k
    ∧ (forall p, _promise t = Some p -> settled p = None ->
         _promise t' = Some {| settled := Some (Fulfilled v); reactions := [] |}
         ∧ called w' = called w ++ map (fun c => (c, Fulfilled v)) (reactions p)).
Proof.
  intros Hq Ht Hs Hb Hflaky Hlen w'. subst w'.
  destruct (run_worker_flaky_done w i t k e v Hq Ht Hs Hb Hflaky nows Hlen)
    as (t' & Ht' & Hp' & Hs' & Hr' & Ha' & Hi' & Hq' & He' & Hc').
  exists t'. split_and!; try done.
  intros p Hp Hpending. rewrite Hp', Hc', Hp. simpl. by rewrite Hpending.
Qed.

(** The task of the example: it fails until its fifth call. *)
Definition flaky_download : Task :=
  {| executor := fun _ n => if (n <? 4)%nat then Async (Rejected (JsErr "Failed."))
                            else Async (Fulfilled "Hello world!");
     task_priority := None |}.

Lemma flaky_task_completes_after_k_failures_witness :
  let w := exec (schedule 0 flaky_download (with_retries 5);; then_ 0%nat 7%nat)
             new_Scheduler in
  exists t',
    tasks (run_worker [1; 2; 3; 4; 5; 6] w) !! 0%nat = Some t'
    ∧ state t' = COMPLETED
    ∧ invocations t' = 5%nat
    ∧ called (run_worker [1; 2; 3; 4; 5; 6] w) = [(7%nat, Fulfilled "Hello world!")].
Proof.
  intros w.
  destruct (flaky_task_completes_after_k_failures w 0%nat
              (with_promise (Some {| settled := None; reactions := [7%nat] |})
                 (new_ScheduledTask flaky_download (with_retries 5) 0 0%nat))
              4%nat (JsErr "Failed.") "Hello world!" [1; 2; 3; 4; 5; 6])
    as (t' & Ht' & Hs & Hi & _ & _ & _ & _ & Hp).
  - reflexivity.
  - reflexivity.
  - reflexivity.
  - simpl. lia.
  - split.
    + intros n Hn. right. simpl in *.
      destruct n as [|[|[|[|n]]]]; try reflexivity. lia.
    + right. reflexivity.
  - simpl. lia.
  - destruct (Hp _ eq_refl eq_refl) as [_ Hcalled].
    exists t'. split; [exact Ht'|]. split; [exact Hs|]. split; [exact Hi|].
    exact Hcalled.
Defined.

(** ** The life cycle of a scheduled task *)

(** What a method call lets the scheduler emit. *)
Inductive Emission : Type :=
  | Quiet
  | Retried (error : JsError)
  | GaveUp (error : JsError).

Definition events_of (j : nat) (em : Emission) : list Event :=
  match em with
  | Quiet => []
  | Retried e => [EvSchedule j; EvFailedAttempt j e]
  | GaveUp e => [EvFailedTask j e]
  end.

Definition requeued (j : nat) (em : Emission) : list nat :=
  match em with
  | Retried _ => [j]
  | _ => []
  end.

(** [_finishSuccess] and [_finishError] on the task itself. *)
Definition finishSuccess_task (v : Value) (t : ScheduledTask) : ScheduledTask :=
  with_promise (settle_promise (Fulfilled v) (_promise t)) (with_state COMPLETED t).

Definition finishError_task (e : JsError) (t : ScheduledTask) : ScheduledTask * Emission :=
  if decide (0 < _retries t) then (consume_retry (with_state QUEUED t), Retried e)
  else (with_promise (settle_promise (Rejected e) (_promise t)) (with_state FAILED t),
        GaveUp e).

(** Everything a method of a task, or a method of the scheduler called with
    it, can do to the task. *)
Inductive task_effect (t : ScheduledTask) : ScheduledTask -> Emission -> Prop :=
  | eff_none : task_effect t t Quiet
  | eff_then (k : nat) :
      _promise t ≫= settled = None ->
      task_effect t
        (with_promise
           (Some {| settled := None;
                    reactions := from_option reactions [] (_promise t) ++ [k] |}) t)
        Quiet
  | eff_cancel :
      state t = QUEUED ->
      task_effect t
        (with_promise (settle_promise (Rejected (JsErr "Event cancelled.")) (_promise t))
           (with_state CANCELLED t))
        Quiet
  | eff_run_async (o : Outcome) :
      state t = QUEUED ->
      executor (_task t) (data t) (invocations t) = Async o ->
      task_effect t (with_inflight (Some o) (started t)) Quiet
  | eff_run_returns (v : Value) :
      state t = QUEUED ->
      executor (_task t) (data t) (invocations t) = Returns v ->
      task_effect t (finishSuccess_task v (started t)) Quiet
  | eff_run_throws (e : JsError) :
      state t = QUEUED ->
      executor (_task t) (data t) (invocations t) = Throws e ->
      task_effect t (fst (finishError_task e (started t))) (snd (finishError_task e (started t)))
  | eff_callback_fulfilled (v : Value) :
      inflight t = Some (Fulfilled v) ->
      task_effect t (finishSuccess_task v (with_inflight None t)) Quiet
  | eff_callback_rejected (e : JsError) :
      inflight t = Some (Rejected e) ->
      task_effect t (fst (finishError_task e (with_inflight None t)))
        (snd (finishError_task e (with_inflight None t))).

(** A world after a call that had the effect [t'], [em] on the task [t]
    behind [j]. *)
Definition affected (j : nat) (t' : ScheduledTask) (em : Emission) (w w' : World) : Prop :=
  tasks w' = <[j := t']> (tasks w)
  ∧ _queue w' = _queue w ++ requeued j em
  ∧ emitted w' = emitted w ++ events_of j em
  ∧ _ID_COUNTER w' = _ID_COUNTER w.

(** A call that works on the task behind [j] alone. *)
Definition acts_on {A : Type} (j : nat) (m : M A) : Prop :=
  forall w,
    match tasks w !! j with
    | None => exec m w = w
    | Some t => exists t' em, task_effect t t' em ∧ affected j t' em w (exec m w)
    end.

Lemma affected_none (j : nat) (t : ScheduledTask) (w w' : World) :
  tasks w !! j = Some t ->
  tasks w' = tasks w -> _queue w' = _queue w -> emitted w' = emitted w ->
  _ID_COUNTER w' = _ID_COUNTER w ->
  affected j t Quiet w w'.
Proof.
  intros Ht Htasks Hq He Hc. unfold affected. simpl.
  by rewrite insert_id, !app_nil_r.
Qed.

Lemma finishError_task_spec (j : nat) (e : JsError) (t : ScheduledTask) (w : World) :
  tasks w !! j = Some t ->
  affected j (fst (finishError_task e t)) (snd (finishError_task e t)) w
    (exec (_finishError j e) w).
Proof.
  intros Ht. unfold exec, finishError_task. case_decide as Hr.
  - by rewrite (_finishError_retry _ _ _ _ Ht Hr).
  - rewrite (_finishError_final _ _ _ _ Ht Hr). unfold affected. simpl.
    by rewrite app_nil_r.
Qed.

Lemma finishSuccess_task_spec (j : nat) (v : Value) (t : ScheduledTask) (w : World) :
  tasks w !! j = Some t ->
  affected j (finishSuccess_task v t) Quiet w (exec (_finishSuccess j v) w).
Proof.
  intros Ht. unfold exec. rewrite (_finishSuccess_spec _ _ _ _ Ht).
  unfold affected. simpl. by rewrite !app_nil_r.
Qed.

(** An effect on the task that an earlier assignment has put behind [j]. *)
Lemma affected_after (j : nat) (t1 t' : ScheduledTask) (em : Emission) (w w' : World) :
  affected j t' em (with_tasks (<[j := t1]> (tasks w)) w) w' ->
  affected j t' em w w'.
Proof.
  unfold affected. simpl. intros (-> & -> & -> & ->). by rewrite insert_insert_eq.
Qed.

Lemma then__acts_on (j k : nat) : acts_on j (then_ j k).
Proof.
  intros w. destruct (tasks w !! j) as [t|] eqn:Ht.
  - unfold exec. rewrite (then__spec _ _ _ _ Ht).
    destruct (_promise t ≫= settled) as [o|] eqn:Hp.
    + exists t, Quiet. split; [constructor|]. by apply affected_none.
    + eexists _, Quiet. split; [by apply (eff_then t k)|].
      unfold affected. simpl. by rewrite !app_nil_r.
  - unfold exec, then_. by rewrite bind_unfold, deref_None.
Qed.

Lemma ScheduledTask_cancel_acts_on (j : nat) : acts_on j (ScheduledTask_cancel j).
Proof.
  intros w. destruct (tasks w !! j) as [t|] eqn:Ht.
  - unfold exec. destruct (decide (state t = QUEUED)) as [Hs|Hs].
    + rewrite (ScheduledTask_cancel_queued _ _ _ Ht Hs).
      eexists _, Quiet. split; [by apply eff_cancel|].
      unfold affected. simpl. by rewrite !app_nil_r.
    + rewrite (ScheduledTask_cancel_not_queued _ _ _ Ht Hs).
      exists t, Quiet. split; [constructor|]. by apply affected_none.
  - unfold exec, ScheduledTask_cancel. by rewrite bind_unfold, deref_None.
Qed.

Lemma Scheduler_cancel_acts_on (j : nat) : acts_on j (Scheduler_cancel j).
Proof.
  intros w. pose proof (ScheduledTask_cancel_acts_on j w) as Hcancel.
  destruct (tasks w !! j) as [t|] eqn:Ht.
  - unfold exec, Scheduler_cancel, Scheduler_cancel_with in *.
    rewrite bind_unfold, (deref_Some _ _ _ Ht). case_decide; [done|].
    exists t, Quiet. split; [constructor|]. by apply affected_none.
  - unfold exec, Scheduler_cancel, Scheduler_cancel_with.
    by rewrite bind_unfold, deref_None.
Qed.

Lemma run_acts_on (j : nat) : acts_on j (run j).
Proof.
  intros w. destruct (tasks w !! j) as [t|] eqn:Ht.
  - unfold exec. destruct (decide (state t = QUEUED)) as [Hs|Hs].
    + rewrite (run_queued _ _ _ Ht Hs). cbv zeta.
      destruct (executor _ _ _) as [v|e|o] eqn:E; cbn [snd].
      * eexists _, Quiet. split; [by apply (eff_run_returns t v)|].
        eapply affected_after, finishSuccess_task_spec. apply lookup_insert_eq.
      * eexists _, _. split; [by apply (eff_run_throws t e)|].
        eapply affected_after, finishError_task_spec. apply lookup_insert_eq.
      * eexists _, Quiet. split; [by apply (eff_run_async t o)|].
        unfold affected. simpl. by rewrite !app_nil_r.
    + rewrite (run_not_queued _ _ _ Ht Hs).
      exists t, Quiet. split; [constructor|]. by apply affected_none.
  - unfold exec, run. by rewrite bind_unfold, deref_None.
Qed.

Lemma run_callback_acts_on (j : nat) : acts_on j (run_callback j).
Proof.
  intros w. destruct (tasks w !! j) as [t|] eqn:Ht.
  - unfold exec, run_callback. rewrite bind_unfold, (deref_Some _ _ _ Ht).
    destruct (inflight t) as [[v|e]|] eqn:Hin.
    + rewrite bind_unfold, (assign_Some _ _ _ _ Ht).
      eexists _, Quiet. split; [by apply (eff_callback_fulfilled t v)|].
      eapply affected_after, finishSuccess_task_spec. apply lookup_insert_eq.
    + rewrite bind_unfold, (assign_Some _ _ _ _ Ht).
      eexists _, _. split; [by apply (eff_callback_rejected t e)|].
      eapply affected_after, finishError_task_spec. apply lookup_insert_eq.
    + exists t, Quiet. split; [constructor|]. by apply affected_none.
  - unfold exec, run_callback. by rewrite bind_unfold, deref_None.
Qed.

(** [await task.run()] is the call of [run], followed by the callback when a
    promise came back. *)
Lemma await_run_exec (j : nat) (w : World) :
  exec (await_run j) w = exec (run j) w
  ∨ exec (await_run j) w = exec (run_callback j) (exec (run j) w).
Proof.
  unfold exec, await_run, try_catch. rewrite bind_unfold.
  destruct (run j w) as [[e|[v|]] w1]; simpl; auto.
  destruct (run_callback j w1) as [[e|[]] w2]; simpl; auto.
Qed.

(** An invariant of the scheduler is kept by every history once it is kept
    by [schedule], by [next] and by each single effect on a task. *)
Section Lifecycle.
Variable Inv : World -> Prop.

Hypothesis Inv_schedule : forall now task options w,
  Inv w -> Inv (exec (schedule now task options) w).
Hypothesis Inv_next : forall now w, Inv w -> Inv (exec (next now) w).
Hypothesis Inv_effect : forall j t t' em w w',
  Inv w -> tasks w !! j = Some t -> task_effect t t' em -> affected j t' em w w' ->
  Inv w'.

Lemma Inv_acts_on {A : Type} (j : nat) (m : M A) (w : World) :
  acts_on j m -> Inv w -> Inv (exec m w).
Proof.
  intros Hm Hinv. specialize (Hm w). destruct (tasks w !! j) as [t|] eqn:Ht.
  - destruct Hm as (t' & em & Heff & Haff). by eapply Inv_effect.
  - by rewrite Hm.
Qed.

Lemma Inv_dispatch (now : Z) (w : World) : Inv w -> Inv (exec (dispatch now) w).
Proof.
  intros Hinv. unfold exec, dispatch. rewrite bind_unfold.
  pose proof (Inv_next now w Hinv) as Hnext. unfold exec in Hnext.
  destruct (next now w) as [[e|[j|]] w1]; simpl in *; try done.
  destruct (await_run_exec j w1) as [Hrun|Hrun]; unfold exec in Hrun; rewrite Hrun.
  - by apply (Inv_acts_on j (run j)); [apply run_acts_on|].
  - apply (Inv_acts_on j (run_callback j)); [apply run_callback_acts_on|].
    by apply (Inv_acts_on j (run j)); [apply run_acts_on|].
Qed.

Lemma Inv_perform (w : World) (op : Op) : Inv w -> Inv (perform w op).
Proof.
  intros Hinv. destruct op as [now task options|now|j|j|j|j|j k|now]; simpl.
  - by apply Inv_schedule.
  - by apply Inv_next.
  - by apply (Inv_acts_on j); [apply Scheduler_cancel_acts_on|].
  - by apply (Inv_acts_on j); [apply ScheduledTask_cancel_acts_on|].
  - by apply (Inv_acts_on j); [apply run_acts_on|].
  - by apply (Inv_acts_on j); [apply run_callback_acts_on|].
  - by apply (Inv_acts_on j); [apply then__acts_on|].
  - by apply Inv_dispatch.
Qed.

Lemma Inv_history (ops : list Op) (w : World) : Inv w -> Inv (foldl perform w ops).
Proof.
  revert w. induction ops as [|op ops IH]; intros w Hinv; [done|].
  simpl. by apply IH, Inv_perform.
Qed.
End Lifecycle.

(** ** A task that has come to its end *)

(** A task that has come to its end with no callback outstanding stays as
    it is through every history. *)
Definition left_alone (t t' : ScheduledTask) : Prop :=
  state t' = state t
  ∧ _retries t' = _retries t
  ∧ attempt t' = attempt t
  ∧ invocations t' = invocations t
  ∧ inflight t' = None
  ∧ _promise t' ≫= settled = _promise t ≫= settled.

Lemma finished_history (w : World) (i : nat) (t : ScheduledTask) (ops : list Op) :
  (i < _ID_COUNTER w)%nat ->
  tasks w !! i = Some t ->
  state t = COMPLETED ∨ state t = FAILED ∨ state t = CANCELLED ->
  inflight t = None ->
  exists t', tasks (foldl perform w ops) !! i = Some t' ∧ left_alone t t'.
Proof.
  intros Hi Ht Hs Hin.
  apply (Inv_history (fun w' =>
    (i < _ID_COUNTER w')%nat
    ∧ exists t', tasks w' !! i = Some t' ∧ left_alone t t')).
  - intros now task options w0 (Hc & t0 & Ht0 & H). split; [simpl; lia|].
    exists t0. unfold exec, schedule. simpl. by rewrite lookup_insert_ne by lia.
  - intros now w0 H. exact H.
  - intros j t1 t' em w0 w' (Hc & t0 & Ht0 & Hs0 & Hr0 & Ha0 & Hi0 & Hin0 & Hp0)
      Ht1 Heff (Htasks & _ & _ & Hc').
    split; [lia|]. rewrite Htasks. destruct (decide (j = i)) as [->|Hne].
    2:{ exists t0. by rewrite lookup_insert_ne. }
    rewrite lookup_insert_eq. eexists. split; [done|].
    assert (t1 = t0) as -> by congruence.
    assert (Hnq : state t0 ≠ QUEUED)
      by (rewrite Hs0; destruct Hs as [-> | [-> | ->]]; discriminate).
    inversion Heff; subst; try congruence.
    + done.
    + unfold left_alone. simpl. split_and!; try done. by rewrite <- Hp0.
  - split; [done|]. exists t. by unfold left_alone.
Qed.

(** X2: a task that is COMPLETED, FAILED or CANCELLED, with no callback of
    its executor outstanding, stays as it is whatever is done afterwards, to
    it or to other tasks: its state, its retries, its attempts and the number
    of calls of its executor never change again, and its promise is settled
    afterwards exactly if it was settled before, with the same outcome.
    [next] never returns it, and [run] on it throws "Attempted to start a
    ... task." and changes nothing. *)
Theorem finished_task_never_changes
    (w : World) (i : nat) (t : ScheduledTask) (ops : list Op) (now : Z) :
  (i < _ID_COUNTER w)%nat ->
  tasks w !! i = Some t ->
  state t = COMPLETED ∨ state t = FAILED ∨ state t = CANCELLED ->
  inflight t = None ->
  let w' := foldl perform w ops in
  (exists t',
     tasks w' !! i = Some t'
     ∧ state t' = state t
     ∧ _retries t' = _retries t
     ∧ attempt t' = attempt t
     ∧ invocations t' = invocations t
     ∧ inflight t' = None
     ∧ _promise t' ≫= settled = _promise t ≫= settled)
  ∧ fst (next now w') ≠ inr (Some i)
  ∧ run i w'
    = (inl (JsErr ("Attempted to start a " +:+ toLowerCase (state t) +:+ " task.")), w').
Proof.
  intros Hi Ht Hs Hin w'.
  destruct (finished_history w i t ops Hi Ht Hs Hin) as (t' & Ht' & Hleft).
  fold w' in Ht'. pose proof Hleft as (Hs' & _).
  assert (Hnq : state t' ≠ QUEUED)
    by (rewrite Hs'; destruct Hs as [-> | [-> | ->]]; discriminate).
  split; [by exists t'|]. split.
  - intros Hnext. destruct (next now w') as [r s] eqn:E. simpl in Hnext. subst r.
    apply next_Some_queued in E as (_ & _ & tq & Htq & Hsq). congruence.
  - by rewrite (run_not_queued _ _ _ Ht' Hnq), Hs'.
Qed.

Lemma finished_task_never_changes_witness :
  exists t',
    tasks (foldl perform
             (exec (schedule 0 hello_task no_options;; dispatch 1) new_Scheduler)
             [OpRun 0%nat; OpSchedulerCancel 0%nat; OpRunCallback 0%nat; OpDispatch 5])
      !! 0%nat = Some t'
    ∧ state t' = COMPLETED
    ∧ invocations t' = 1%nat.
Proof.
  destruct (finished_task_never_changes
              (exec (schedule 0 hello_task no_options;; dispatch 1) new_Scheduler) 0%nat
              (with_state COMPLETED (started (new_ScheduledTask hello_task no_options 0 0%nat)))
              [OpRun 0%nat; OpSchedulerCancel 0%nat; OpRunCallback 0%nat; OpDispatch 5] 9)
    as ((t' & Ht' & Hs & _ & _ & Hi & _) & _).
  - vm_compute. lia.
  - vm_compute. reflexivity.
  - left. reflexivity.
  - reflexivity.
  - exists t'. split; [exact Ht'|]. split; [exact Hs|]. exact Hi.
Defined.

(** ** Cancelling a queued task *)

(** X3: cancelling a QUEUED task, through the scheduler or through the task
    itself, makes it CANCELLED without calling its executor and without
    emitting anything; its promise, if it has been made and is pending, is
    rejected with "Event cancelled." and its continuations are called with
    that.  The entry of the task stays in the queue, but the task is never
    handed to a worker and its executor is never called afterwards, whatever
    is done later. *)
Theorem cancelled_task_is_never_run
    (w : World) (i : nat) (t : ScheduledTask) (ops : list Op) (now : Z) :
  (i < _ID_COUNTER w)%nat ->
  tasks w !! i = Some t ->
  state t = QUEUED ->
  inflight t = None ->
  let cancelled := Rejected (JsErr "Event cancelled.") in
  let w1 := exec (Scheduler_cancel i) w in
  let w' := foldl perform w1 ops in
  Scheduler_cancel i w = (inr tt, w1)
  ∧ ScheduledTask_cancel i w = (inr tt, w1)
  ∧ tasks w1 = <[i := with_promise (settle_promise cancelled (_promise t))
                        (with_state CANCELLED t)]> (tasks w)
  ∧ _queue w1 = _queue w
  ∧ emitted w1 = emitted w
  ∧ called w1 = called w ++ notified cancelled (_promise t)
  ∧ fst (next now w') ≠ inr (Some i)
  ∧ exists t', tasks w' !! i = Some t' ∧ state t' = CANCELLED
               ∧ invocations t' = invocations t.
Proof.
  intros Hi Ht Hs Hin cancelled w1 w'.
  assert (Hcancel : Scheduler_cancel i w = ScheduledTask_cancel i w).
  { unfold Scheduler_cancel, Scheduler_cancel_with.
    rewrite bind_unfold, (deref_Some _ _ _ Ht). rewrite decide_True; [done|].
    rewrite Hs. discriminate. }
  assert (Hw1 : w1 = with_called (called w ++ notified cancelled (_promise t))
                   (with_tasks
                      (<[i := with_promise (settle_promise cancelled (_promise t))
                                (with_state CANCELLED t)]> (tasks w)) w)).
  { unfold w1, exec. by rewrite Hcancel, (ScheduledTask_cancel_queued _ _ _ Ht Hs). }
  assert (Ht1 : tasks w1 !! i
                = Some (with_promise (settle_promise cancelled (_promise t))
                          (with_state CANCELLED t))).
  { rewrite Hw1. apply lookup_insert_eq. }
  destruct (finished_history w1 i
              (with_promise (settle_promise cancelled (_promise t))
                 (with_state CANCELLED t)) ops)
    as (t' & Ht' & Hs' & _ & _ & Hi' & _);
    [by rewrite Hw1|done|by right; right|done|].
  fold w' in Ht'. simpl in Hs', Hi'.
  split_and!.
  - by rewrite Hcancel, (ScheduledTask_cancel_queued _ _ _ Ht Hs), Hw1.
  - by rewrite (ScheduledTask_cancel_queued _ _ _ Ht Hs), Hw1.
  - by rewrite Hw1.
  - by rewrite Hw1.
  - by rewrite Hw1.
  - by rewrite Hw1.
  - intros Hnext. destruct (next now w') as [r s] eqn:E. simpl in Hnext. subst r.
    apply next_Some_queued in E as (_ & _ & tq & Htq & Hsq). congruence.
  - by exists t'.
Qed.

Lemma cancelled_task_is_never_run_witness :
  let w := exec (schedule 0 hello_task no_options;; then_ 0%nat 7%nat) new_Scheduler in
  let w1 := exec (Scheduler_cancel 0%nat) w in
  called w1 = [(7%nat, Rejected (JsErr "Event cancelled."))]
  ∧ _queue w1 = [0%nat]
  ∧ exists t', tasks (foldl perform w1 [OpDispatch 1; OpRun 0%nat; OpDispatch 2]) !! 0%nat
               = Some t'
               ∧ state t' = CANCELLED ∧ invocations t' = 0%nat.
Proof.
  intros w w1.
  destruct (cancelled_task_is_never_run w 0%nat
              (with_promise (Some {| settled := None; reactions := [7%nat] |})
                 (new_ScheduledTask hello_task no_options 0 0%nat))
              [OpDispatch 1; OpRun 0%nat; OpDispatch 2] 3)
    as (_ & _ & _ & Hq & _ & Hcalled & _ & Hnever).
  - vm_compute. lia.
  - vm_compute. reflexivity.
  - reflexivity.
  - reflexivity.
  - split; [exact Hcalled|]. split; [exact Hq|]. exact Hnever.
Defined.

(** ** A promise settles once *)

(** X4: once the promise of a task has settled, nothing that is done later
    settles it again or otherwise: it keeps its outcome through every
    history, and a continuation put on the task at any later time is called
    with that outcome at once. *)
Theorem settled_promise_keeps_its_outcome
    (w : World) (i k : nat) (t : ScheduledTask) (o : Outcome) (ops : list Op) :
  (i < _ID_COUNTER w)%nat ->
  tasks w !! i = Some t ->
  _promise t ≫= settled = Some o ->
  let w' := foldl perform w ops in
  (exists t', tasks w' !! i = Some t' ∧ _promise t' ≫= settled = Some o)
  ∧ called (exec (then_ i k) w') = called w' ++ [(k, o)].
Proof.
  intros Hi Ht Hp w'.
  assert (Hkept : (i < _ID_COUNTER w')%nat
            ∧ exists t', tasks w' !! i = Some t' ∧ _promise t' ≫= settled = Some o).
  { subst w'.
    apply (Inv_history (fun w' =>
      (i < _ID_COUNTER w')%nat
      ∧ exists t', tasks w' !! i = Some t' ∧ _promise t' ≫= settled = Some o)).
    - intros now task options w0 (Hc & t0 & Ht0 & H). split; [simpl; lia|].
      exists t0. unfold exec, schedule. simpl. by rewrite lookup_insert_ne by lia.
    - intros now w0 H. exact H.
    - intros j t1 t' em w0 w1 (Hc & t0 & Ht0 & Hp0) Ht1 Heff (Htasks & _ & _ & Hc').
      split; [lia|]. rewrite Htasks. destruct (decide (j = i)) as [->|Hne].
      2:{ exists t0. by rewrite lookup_insert_ne. }
      rewrite lookup_insert_eq. eexists. split; [done|].
      assert (t1 = t0) as -> by congruence.
      assert (Hkeep : forall o', settle_promise o' (_promise t0) = _promise t0).
      { intros o'. unfold settle_promise. destruct (_promise t0) as [p|]; [|done].
        simpl in Hp0. by rewrite Hp0. }
      inversion Heff; subst; unfold finishSuccess_task, finishError_task; simpl;
        repeat case_decide; simpl; rewrite ?Hkeep; try done.
      congruence.
    - split; [done|]. by exists t. }
  destruct Hkept as (_ & t' & Ht' & Hp'). split; [by exists t'|].
  unfold exec. rewrite (then__spec _ _ _ _ Ht'), Hp'. done.
Qed.

Lemma settled_promise_keeps_its_outcome_witness :
  let w := exec (schedule 0 hello_task no_options;; then_ 0%nat 7%nat;; dispatch 1)
             new_Scheduler in
  let w' := foldl perform w [OpSchedule 2 failing_task no_options; OpDispatch 3;
                             OpCancel 0%nat; OpRun 0%nat] in
  called (exec (then_ 0%nat 8%nat) w')
  = called w' ++ [(8%nat, Fulfilled "Hello, world!")].
Proof.
  intros w w'.
  destruct (settled_promise_keeps_its_outcome w 0%nat 8%nat
              (finishSuccess_task "Hello, world!"
                 (started (with_promise (Some {| settled := None; reactions := [7%nat] |})
                             (new_ScheduledTask hello_task no_options 0 0%nat))))
              (Fulfilled "Hello, world!")
              [OpSchedule 2 failing_task no_options; OpDispatch 3;
               OpCancel 0%nat; OpRun 0%nat])
    as [_ Hcalled].
  - vm_compute. lia.
  - vm_compute. reflexivity.
  - reflexivity.
  - exact Hcalled.
Defined.

(** ** Handles *)

(** The handles a scheduler has given out are the numbers below its counter,
    each task carries its handle as its id, and the queue holds handles
    only. *)
Definition handles_ok (w : World) : Prop :=
  (forall i, is_Some (tasks w !! i) <-> (i < _ID_COUNTER w)%nat)
  ∧ (forall i t, tasks w !! i = Some t -> id t = i)
  ∧ (forall i, i ∈ _queue w -> (i < _ID_COUNTER w)%nat).

Lemma next_queue_subseteq (now : Z) (w : World) (i : nat) :
  i ∈ _queue (exec (next now) w) -> i ∈ _queue w.
Proof.
  unfold exec, next. simpl.
  destruct (next_loop _ _ _) as [[j|] rest] eqn:E; simpl.
  - apply next_loop_Some in E as (_ & d & Hperm & _). rewrite Hperm.
    intros Hi. apply elem_of_app. right. by apply list_elem_of_further.
  - apply next_loop_None in E as [-> _]. by intros ?%elem_of_nil.
Qed.

Lemma task_effect_id (t t' : ScheduledTask) (em : Emission) :
  task_effect t t' em ->
  id t' = id t ∧ _task t' = _task t ∧ data t' = data t
  ∧ priority t' = priority t ∧ scheduled t' = scheduled t.
Proof.
  intros Heff. inversion Heff; subst; unfold finishSuccess_task, finishError_task; simpl;
    repeat case_decide; done.
Qed.

Lemma handles_ok_history (ops : list Op) (w : World) :
  handles_ok w -> handles_ok (foldl perform w ops).
Proof.
  apply (Inv_history handles_ok).
  - intros now task options w0 (Hdom & Hid & Hq). unfold exec, schedule. simpl.
    split; [|split].
    + intros i. simpl. rewrite lookup_insert_is_Some, Hdom. lia.
    + intros i t. simpl.
      intros [[<- <-]|[_ Ht]]%lookup_insert_Some; [done|by apply Hid].
    + intros i. simpl. unfold pq_push. intros [Hi|Hi]%elem_of_app.
      * specialize (Hq i Hi). lia.
      * apply list_elem_of_singleton in Hi. lia.
  - intros now w0 (Hdom & Hid & Hq). split; [done|]. split; [done|].
    intros i Hi%next_queue_subseteq. by apply Hq.
  - intros j t t' em w0 w1 (Hdom & Hid & Hq) Ht Heff (Htasks & Hqueue & _ & Hc).
    unfold handles_ok. rewrite Hc, Htasks, Hqueue. split; [|split].
    + intros i. rewrite lookup_insert_is_Some, <- Hdom.
      split; [intros [<-|[_ H]]; [by eexists|done]|].
      intros H. destruct (decide (j = i)); [by left|by right].
    + intros i ti.
      intros [[<- <-]|[_ Hti]]%lookup_insert_Some; [|by apply Hid].
      apply task_effect_id in Heff as [-> _]. by apply Hid.
    + intros i. intros [Hi|Hi]%elem_of_app; [by apply Hq|].
      destruct em; simpl in Hi; try by apply elem_of_nil in Hi.
      apply list_elem_of_singleton in Hi as ->. apply Hdom. by eexists.
Qed.

Lemma handles_ok_new : handles_ok new_Scheduler.
Proof.
  split; [|split].
  - intros i. simpl. rewrite lookup_empty. split; [by intros []|lia].
  - intros i t Ht. discriminate Ht.
  - intros i Hi. by apply elem_of_nil in Hi.
Qed.

(** X5: in a scheduler that has been used in any way since it was made, the
    tasks are the handles below the counter, every task carries its handle as
    its id (so no two tasks share an id), the queue refers to tasks of the
    scheduler only; the next [schedule] returns the counter as a handle that
    was not in use, for a QUEUED task with the retries and data of the
    options, and leaves every other task as it was. *)
Theorem handles_are_fresh_and_ids_unique
    (ops : list Op) (now : Z) (task : Task) (options : ScheduleOptions) :
  let w := foldl perform new_Scheduler ops in
  (forall i, is_Some (tasks w !! i) <-> (i < _ID_COUNTER w)%nat)
  ∧ (forall i t, tasks w !! i = Some t -> id t = i)
  ∧ (forall i j ti tj,
       tasks w !! i = Some ti -> tasks w !! j = Some tj -> id ti = id tj -> i = j)
  ∧ (forall i, i ∈ _queue w -> is_Some (tasks w !! i))
  ∧ (exists h,
       fst (schedule now task options w) = inr h
       ∧ tasks w !! h = None
       ∧ tasks (exec (schedule now task options) w) !! h
         = Some (new_ScheduledTask task options now h)
       ∧ forall i, i ≠ h ->
           tasks (exec (schedule now task options) w) !! i = tasks w !! i).
Proof.
  intros w.
  destruct (handles_ok_history ops new_Scheduler handles_ok_new) as (Hdom & Hid & Hq).
  fold w in Hdom, Hid, Hq. split; [|split; [|split; [|split]]].
  - done.
  - done.
  - intros i j ti tj Hi Hj Heq. apply Hid in Hi, Hj. congruence.
  - intros i Hi. apply Hdom. by apply Hq.
  - exists (_ID_COUNTER w). split; [done|]. split; [|split].
    + apply eq_None_not_Some. rewrite Hdom. lia.
    + apply lookup_insert_eq.
    + intros i Hne. unfold exec, schedule. simpl. by rewrite lookup_insert_ne.
Qed.

(** ** What the fields of a task tell about each other *)

(** [1] while the executor has been called for the current attempt, that is
    for a task that is RUNNING, COMPLETED or FAILED. *)
Definition attempt_started (s : TaskState) : Z :=
  match s with
  | RUNNING | COMPLETED | FAILED => 1
  | _ => 0
  end.

Definition consistent (t : ScheduledTask) : Prop :=
  0 ≤ attempt t
  ∧ (attempt t = 0 ∨ 0 ≤ _retries t)
  ∧ Z.of_nat (invocations t) = attempt t + attempt_started (state t)
  ∧ (state t = RUNNING <-> inflight t ≠ None)
  ∧ (state t = FAILED -> _retries t ≤ 0)
  ∧ (forall v, _promise t ≫= settled = Some (Fulfilled v) -> state t = COMPLETED)
  ∧ (forall e, _promise t ≫= settled = Some (Rejected e) ->
       state t = FAILED ∨ state t = CANCELLED).

Lemma settle_promise_settled (o o' : Outcome) (p : option JsPromise) :
  settle_promise o p ≫= settled = Some o' ->
  o' = o ∨ p ≫= settled = Some o'.
Proof.
  unfold settle_promise. destruct p as [q|]; [|done]. simpl.
  destruct (settled q) eqn:E; simpl; [rewrite E; by right|].
  intros [= <-]. by left.
Qed.

Lemma consistent_new (task : Task) (options : ScheduleOptions) (now : Z) (i : nat) :
  consistent (new_ScheduledTask task options now i).
Proof.
  unfold consistent. simpl. split_and!; try done; try lia; by left.
Qed.

Ltac settle Hp :=
  first
    [ done
    | lia
    | by left
    | by right
    | by (intros ? [[=]|?%Hp]%settle_promise_settled)
    | by (intros ? ?%Hp)
    | by (intros ? [=]) ].

Lemma consistent_finishSuccess (v : Value) (t : ScheduledTask) :
  0 ≤ attempt t -> (attempt t = 0 ∨ 0 ≤ _retries t) ->
  Z.of_nat (invocations t) = attempt t + 1 ->
  inflight t = None ->
  (forall o, _promise t ≫= settled ≠ Some o) ->
  consistent (finishSuccess_task v t).
Proof.
  intros Ha Hr Hi Hin Hp. unfold consistent, finishSuccess_task. simpl. rewrite Hin.
  split_and!; settle Hp.
Qed.

Lemma consistent_finishError (e : JsError) (t : ScheduledTask) :
  0 ≤ attempt t -> (attempt t = 0 ∨ 0 ≤ _retries t) ->
  Z.of_nat (invocations t) = attempt t + 1 ->
  inflight t = None ->
  (forall o, _promise t ≫= settled ≠ Some o) ->
  consistent (fst (finishError_task e t)).
Proof.
  intros Ha Hr Hi Hin Hp. unfold consistent, finishError_task.
  case_decide as Hretry; simpl; rewrite Hin; split_and!; settle Hp.
Qed.

Lemma consistent_effect (t t' : ScheduledTask) (em : Emission) :
  task_effect t t' em -> consistent t -> consistent t'.
Proof.
  intros Heff (Ha & Hr & Hi & Hrun & Hfail & Hok & Hko).
  assert (Hpending : state t = QUEUED ∨ state t = RUNNING ->
            forall o, _promise t ≫= settled ≠ Some o).
  { intros Hs [v|e] Hp.
    - apply Hok in Hp. destruct Hs; congruence.
    - apply Hko in Hp. destruct Hs, Hp; congruence. }
  assert (Hidle : state t = QUEUED -> inflight t = None).
  { intros Hs. destruct (inflight t) eqn:E; [|done].
    assert (state t = RUNNING) by (apply Hrun; congruence). congruence. }
  assert (Hbusy : forall o, inflight t = Some o -> state t = RUNNING).
  { intros o Hin. apply Hrun. congruence. }
  inversion Heff as [|k Hp|Hs|o Hs Hex|v Hs Hex|e Hs Hex|v Hin|e Hin]; subst.
  - done.
  - unfold consistent. simpl. split_and!; settle Hp.
  - pose proof (Hpending (or_introl Hs)) as Hp.
    unfold consistent. simpl. rewrite Hs in Hi. simpl in Hi.
    rewrite (Hidle Hs). split_and!; settle Hp.
  - pose proof (Hpending (or_introl Hs)) as Hp.
    unfold consistent. simpl. rewrite Hs in Hi. simpl in Hi.
    split_and!; settle Hp.
  - rewrite Hs in Hi. simpl in Hi.
    apply consistent_finishSuccess; simpl; auto; lia.
  - rewrite Hs in Hi. simpl in Hi.
    apply consistent_finishError; simpl; auto; lia.
  - pose proof (Hbusy _ Hin) as Hs. rewrite Hs in Hi. simpl in Hi.
    apply consistent_finishSuccess; simpl; auto.
  - pose proof (Hbusy _ Hin) as Hs. rewrite Hs in Hi. simpl in Hi.
    apply consistent_finishError; simpl; auto.
Qed.

Lemma consistent_history (ops : list Op) (w : World) :
  (forall i t, tasks w !! i = Some t -> consistent t) ->
  forall i t, tasks (foldl perform w ops) !! i = Some t -> consistent t.
Proof.
  apply (Inv_history (fun w => forall i t, tasks w !! i = Some t -> consistent t)).
  - intros now task options w0 H i t. unfold exec, schedule. simpl.
    intros [[<- <-]|[_ Ht]]%lookup_insert_Some; [apply consistent_new|by eapply H].
  - intros now w0 H. exact H.
  - intros j t t' em w0 w1 H Ht Heff (-> & _) i ti.
    intros [[<- <-]|[_ Hti]]%lookup_insert_Some; [|by eapply H].
    eapply consistent_effect; [done|]. by eapply H.
Qed.

(** X6: in a scheduler that has been used in any way since it was made, the
    executor of a task has been called once for each attempt that failed and
    was retried, and once more if the task is RUNNING, COMPLETED or FAILED;
    so it has never been called more than [N + 1] times, where [N] is the
    number of retries the task was scheduled with (the retries left and the
    attempts made add up to it), and at most once when [N] is negative.  A
    FAILED task has no retry left, and a task is RUNNING exactly while a
    callback of its executor is outstanding. *)
Theorem executor_calls_are_bounded (ops : list Op) (i : nat) (t : ScheduledTask) :
  tasks (foldl perform new_Scheduler ops) !! i = Some t ->
  Z.of_nat (invocations t) = attempt t + attempt_started (state t)
  ∧ Z.of_nat (invocations t) ≤ Z.max 0 (_retries t + attempt t) + 1
  ∧ 0 ≤ attempt t
  ∧ (state t = FAILED -> _retries t ≤ 0)
  ∧ (state t = RUNNING <-> inflight t ≠ None).
Proof.
  intros Ht.
  destruct (consistent_history ops new_Scheduler) with (i := i) (t := t)
    as (Ha & Hr & Hi & Hrun & Hfail & _); [|done|].
  { intros j tj Hj. discriminate Hj. }
  split_and!; try done.
  rewrite Hi. destruct (state t); simpl; lia.
Qed.

Lemma executor_calls_are_bounded_witness :
  let t := with_state FAILED
             (started (consume_retry (with_state QUEUED
               (started (new_ScheduledTask failing_task (with_retries 1) 0 0%nat))))) in
  Z.of_nat (invocations t) = attempt t + attempt_started (state t)
  ∧ Z.of_nat (invocations t) ≤ 2.
Proof.
  intros t.
  destruct (executor_calls_are_bounded
              [OpSchedule 0 failing_task (with_retries 1); OpDispatch 1; OpDispatch 2]
              0%nat t)
    as (Hi & Hle & _).
  - vm_compute. reflexivity.
  - split; [exact Hi|]. exact Hle.
Defined.

(** X7: in a scheduler that has been used in any way since it was made, the
    promise of a task is fulfilled only if the task is COMPLETED and
    rejected only if the task is FAILED or CANCELLED; the promise of a task
    that is QUEUED or RUNNING is pending, if it has been made at all. *)
Theorem promise_outcome_matches_state (ops : list Op) (i : nat) (t : ScheduledTask) :
  tasks (foldl perform new_Scheduler ops) !! i = Some t ->
  (forall v, _promise t ≫= settled = Some (Fulfilled v) -> state t = COMPLETED)
  ∧ (forall e, _promise t ≫= settled = Some (Rejected e) ->
       state t = FAILED ∨ state t = CANCELLED)
  ∧ (state t = QUEUED ∨ state t = RUNNING -> _promise t ≫= settled = None).
Proof.
  intros Ht.
  destruct (consistent_history ops new_Scheduler) with (i := i) (t := t)
    as (_ & _ & _ & _ & _ & Hok & Hko); [|done|].
  { intros j tj Hj. discriminate Hj. }
  split_and!; try done.
  intros Hs. destruct (_promise t ≫= settled) as [[v|e]|] eqn:Hp; [| |done].
  - specialize (Hok _ eq_refl). destruct Hs; congruence.
  - destruct (Hko _ eq_refl), Hs; congruence.
Qed.

Lemma promise_outcome_matches_state_witness :
  let t := finishSuccess_task "Hello, world!"
             (started (with_promise (Some {| settled := None; reactions := [7%nat] |})
                         (new_ScheduledTask hello_task no_options 0 0%nat))) in
  _promise t ≫= settled = Some (Fulfilled "Hello, world!") ∧ state t = COMPLETED.
Proof.
  intros t.
  destruct (promise_outcome_matches_state
              [OpSchedule 0 hello_task no_options; OpThen 0%nat 7%nat; OpDispatch 1]
              0%nat t)
    as (Hok & _).
  - vm_compute. reflexivity.
  - split; [reflexivity|]. apply (Hok "Hello, world!"). reflexivity.
Defined.

(** ** One turn of a worker *)

(** What one attempt makes of a QUEUED task: the executor is called once,
    and the task is finished or put back according to what came of it. *)
Definition attempted (t : ScheduledTask) : ScheduledTask * Emission :=
  match executor (_task t) (data t) (invocations t) with
  | Returns v | Async (Fulfilled v) => (finishSuccess_task v (started t), Quiet)
  | Throws e | Async (Rejected e) => finishError_task e (started t)
  end.

Lemma with_inflight_started (o : Outcome) (t : ScheduledTask) :
  inflight t = None -> with_inflight None (with_inflight (Some o) (started t)) = started t.
Proof. intros Hin. destruct t. simpl in *. by subst. Qed.

Lemma await_run_queued (i : nat) (t : ScheduledTask) (w : World) :
  tasks w !! i = Some t -> state t = QUEUED -> inflight t = None ->
  affected i (fst (attempted t)) (snd (attempted t)) w (exec (await_run i) w).
Proof.
  intros Ht Hs Hin. unfold exec, await_run, try_catch, attempted.
  rewrite bind_unfold, (run_queued _ _ _ Ht Hs). cbv zeta.
  destruct (executor _ _ _) as [v|e|[v|e]].
  - pose proof (finishSuccess_task_spec i v (started t)
                  (with_tasks (<[i := started t]> (tasks w)) w)
                  (lookup_insert_eq _ _ _)) as H.
    apply affected_after in H. unfold exec in H.
    by destruct (_finishSuccess _ _ _) as [[?|[]] ?].
  - pose proof (finishError_task_spec i e (started t)
                  (with_tasks (<[i := started t]> (tasks w)) w)
                  (lookup_insert_eq _ _ _)) as H.
    by apply affected_after in H.
  - unfold run_callback.
    rewrite bind_unfold. erewrite deref_Some by apply lookup_insert_eq.
    cbn [inflight with_inflight]. rewrite bind_unfold.
    erewrite assign_Some by apply lookup_insert_eq.
    rewrite (with_inflight_started _ _ Hin).
    pose proof (finishSuccess_task_spec i v (started t)
                  (with_tasks (<[i := started t]> (tasks w)) w)
                  (lookup_insert_eq _ _ _)) as H.
    apply affected_after in H. unfold exec in H.
    cbn [tasks with_tasks]. rewrite insert_insert_eq.
    by destruct (_finishSuccess _ _ _) as [[?|[]] ?].
  - unfold run_callback.
    rewrite bind_unfold. erewrite deref_Some by apply lookup_insert_eq.
    cbn [inflight with_inflight]. rewrite bind_unfold.
    erewrite assign_Some by apply lookup_insert_eq.
    rewrite (with_inflight_started _ _ Hin).
    pose proof (finishError_task_spec i e (started t)
                  (with_tasks (<[i := started t]> (tasks w)) w)
                  (lookup_insert_eq _ _ _)) as H.
    apply affected_after in H. unfold exec in H.
    cbn [tasks with_tasks]. rewrite insert_insert_eq.
    by destruct (_finishError _ _ _) as [[?|[]] ?].
Qed.

(** What a turn of a worker is for a scheduler whose queued tasks have no
    callback outstanding: with no QUEUED task in the queue the queue is
    emptied and nothing else happens; otherwise one QUEUED task leaves the
    queue, together with entries that are no longer QUEUED, and one attempt
    of it is made. *)
Lemma dispatch_turn (now : Z) (w : World) :
  (forall i t, tasks w !! i = Some t -> state t = QUEUED -> inflight t = None) ->
  (Forall (fun j => is_queued (tasks w) j = false) (_queue w)
   ∧ exec (dispatch now) w = with_queue [] w)
  ∨ (exists i t discarded rest,
       tasks w !! i = Some t ∧ state t = QUEUED
       ∧ _queue w ≡ₚ discarded ++ i :: rest
       ∧ Forall (fun j => is_queued (tasks w) j = false) discarded
       ∧ affected i (fst (attempted t)) (snd (attempted t)) (with_queue rest w)
           (exec (dispatch now) w)).
Proof.
  intros Hidle. unfold exec, dispatch. rewrite bind_unfold. unfold next.
  destruct (next_loop _ _ _) as [[i|] rest] eqn:E; cbn [fst snd].
  - right. apply next_loop_Some in E as (Hq & d & Hperm & Hd).
    unfold is_queued in Hq. destruct (tasks w !! i) as [t|] eqn:Ht; [|done].
    apply bool_decide_eq_true in Hq.
    exists i, t, d, rest. split_and!; try done.
    apply (await_run_queued i t (with_queue rest w)); [done|done|by eapply Hidle].
  - left. apply next_loop_None in E as [-> Hd]. done.
Qed.

(** ** No queued task is lost *)

(** [Worker._main] from [next()] to the [await] (scheduler.ts 624-636): the
    worker takes the next task, if there is one, and calls its [run]; what
    [run] throws is swallowed. *)
Definition Worker_take (now : Z) : M unit :=
  task ← next now;
  match task with
  | None => mret tt
  | Some i => try_catch (run i;; mret tt) (fun _ => mret tt)
  end.

(** What happens, one step of the event loop at a time, to a scheduler whose
    tasks are run by workers only: a task is scheduled, cancelled or waited
    for from outside, a worker takes the next task and starts it, or the
    promise that the executor of a running task has returned settles.  The
    steps of several workers may follow each other in any order. *)
Inductive WorkerStep : Type :=
  | StepSchedule (now : Z) (task : Task) (options : ScheduleOptions)
  | StepSchedulerCancel (i : nat)
  | StepCancel (i : nat)
  | StepThen (i k : nat)
  | StepTake (now : Z)
  | StepSettles (i : nat).

Definition worker_step (w : World) (s : WorkerStep) : World :=
  match s with
  | StepSchedule now task options => exec (schedule now task options) w
  | StepSchedulerCancel i => exec (Scheduler_cancel i) w
  | StepCancel i => exec (ScheduledTask_cancel i) w
  | StepThen i k => exec (then_ i k) w
  | StepTake now => exec (Worker_take now) w
  | StepSettles i => exec (run_callback i) w
  end.

(** The same with whole turns of a single worker: a turn is an attempt from
    [next()] to the settling of the executor's promise. *)
Definition worker_driven (op : Op) : bool :=
  match op with
  | OpSchedule _ _ _ | OpSchedulerCancel _ | OpCancel _ | OpThen _ _ | OpDispatch _ => true
  | OpNext _ | OpRun _ | OpRunCallback _ => false
  end.

Definition queue_ok (w : World) : Prop :=
  NoDup (_queue w)
  ∧ (forall i, is_Some (tasks w !! i) -> (i < _ID_COUNTER w)%nat)
  ∧ (forall i t, tasks w !! i = Some t -> state t = QUEUED -> i ∈ _queue w)
  ∧ (forall i, i ∈ _queue w ->
       exists t, tasks w !! i = Some t ∧ (state t = QUEUED ∨ state t = CANCELLED))
  ∧ (forall i t, tasks w !! i = Some t -> (state t = RUNNING <-> inflight t ≠ None)).

(** The same while the task behind [i] is out of the queue, taken by a
    worker. *)
Definition queue_ok_without (i : nat) (w : World) : Prop :=
  NoDup (_queue w)
  ∧ (i ∉ _queue w)
  ∧ (forall j, is_Some (tasks w !! j) -> (j < _ID_COUNTER w)%nat)
  ∧ (forall j t, j ≠ i -> tasks w !! j = Some t -> state t = QUEUED -> j ∈ _queue w)
  ∧ (forall j, j ∈ _queue w ->
       exists t, tasks w !! j = Some t ∧ (state t = QUEUED ∨ state t = CANCELLED))
  ∧ (forall j t, j ≠ i -> tasks w !! j = Some t ->
       (state t = RUNNING <-> inflight t ≠ None)).

Lemma queue_ok_new : queue_ok new_Scheduler.
Proof.
  unfold queue_ok. simpl. split_and!.
  - constructor.
  - intros i [t Ht]. discriminate Ht.
  - intros i t Ht. discriminate Ht.
  - by intros i ?%elem_of_nil.
  - intros i t Ht. discriminate Ht.
Qed.

Lemma queue_ok_idle (w : World) (i : nat) (t : ScheduledTask) :
  queue_ok w -> tasks w !! i = Some t -> state t ≠ RUNNING -> inflight t = None.
Proof.
  intros (_ & _ & _ & _ & Hrun) Ht Hs. destruct (inflight t) eqn:E; [|done].
  destruct Hs. apply (Hrun _ _ Ht). congruence.
Qed.

Lemma queue_ok_schedule (now : Z) (task : Task) (options : ScheduleOptions) (w : World) :
  queue_ok w -> queue_ok (exec (schedule now task options) w).
Proof.
  intros (Hnd & Hlt & Hin & Hst & Hrun). unfold queue_ok, exec, schedule, pq_push.
  cbn [snd tasks _queue _ID_COUNTER with_emitted with_queue with_counter with_tasks].
  assert (Hbound : forall i, i ∈ _queue w -> (i < _ID_COUNTER w)%nat).
  { intros i Hi. destruct (Hst _ Hi) as (t & Ht & _). apply Hlt. by eexists. }
  split_and!.
  - apply NoDup_app. split_and!; [done| |apply NoDup_singleton].
    intros i Hi ->%list_elem_of_singleton. specialize (Hbound _ Hi). lia.
  - intros i [<-|[_ Hi]]%lookup_insert_is_Some; [lia|]. specialize (Hlt _ Hi). lia.
  - intros i t [[<- <-]|[_ Ht]]%lookup_insert_Some Hs; apply elem_of_app.
    + right. by apply list_elem_of_singleton.
    + left. by eapply Hin.
  - intros i [Hi | ->%list_elem_of_singleton]%elem_of_app.
    + destruct (Hst _ Hi) as (t & Ht & Hs). exists t. split; [|done].
      rewrite lookup_insert_ne; [done|]. specialize (Hbound _ Hi). lia.
    + eexists. rewrite lookup_insert_eq. split; [done|]. by left.
  - intros i t [[<- <-]|[_ Ht]]%lookup_insert_Some; [done|by eapply Hrun].
Qed.

(** A change of the task behind [j] that is none of the queue's business:
    its state is as before, or it was QUEUED and is CANCELLED now. *)
Lemma queue_ok_insert (j : nat) (t t' : ScheduledTask) (w w' : World) :
  queue_ok w -> tasks w !! j = Some t ->
  tasks w' = <[j := t']> (tasks w) -> _queue w' = _queue w ->
  _ID_COUNTER w' = _ID_COUNTER w ->
  (state t' = state t ∨ state t = QUEUED ∧ state t' = CANCELLED) ->
  inflight t' = inflight t ->
  queue_ok w'.
Proof.
  intros Hok Ht Htasks Hq Hc Hs Hin'.
  pose proof Hok as (Hnd & Hlt & Hin & Hst & Hrun).
  unfold queue_ok. rewrite Htasks, Hq, Hc. split_and!; try done.
  - intros i [<-|[_ Hi]]%lookup_insert_is_Some; [|by apply Hlt].
    apply Hlt. by eexists.
  - intros i ti [[<- <-]|[_ Hti]]%lookup_insert_Some Hsi; [|by eapply Hin].
    apply (Hin j t Ht). destruct Hs as [<- | [_ ?]]; congruence.
  - intros i Hi. destruct (decide (j = i)) as [<-|Hne].
    + exists t'. rewrite lookup_insert_eq. split; [done|].
      destruct (Hst _ Hi) as (t0 & Ht0 & Hs0).
      assert (t0 = t) as -> by congruence.
      destruct Hs as [-> | [_ ->]]; [done|by right].
    + destruct (Hst _ Hi) as (t0 & Ht0 & Hs0). exists t0.
      by rewrite lookup_insert_ne.
  - intros i ti [[<- <-]|[_ Hti]]%lookup_insert_Some; [|by eapply Hrun].
    rewrite Hin'. destruct Hs as [-> | [Hqueued ->]]; [by eapply Hrun|].
    rewrite (queue_ok_idle w j t) by (done || congruence). done.
Qed.

Lemma queue_ok_then (j k : nat) (w : World) :
  queue_ok w -> queue_ok (exec (then_ j k) w).
Proof.
  intros Hok. destruct (tasks w !! j) as [t|] eqn:Ht.
  - unfold exec. rewrite (then__spec _ _ _ _ Ht).
    destruct (_promise t ≫= settled).
    + by destruct Hok.
    + eapply (queue_ok_insert j t); try done. by left.
  - unfold exec, then_. by rewrite bind_unfold, deref_None.
Qed.

Lemma queue_ok_ScheduledTask_cancel (j : nat) (w : World) :
  queue_ok w -> queue_ok (exec (ScheduledTask_cancel j) w).
Proof.
  intros Hok. destruct (tasks w !! j) as [t|] eqn:Ht.
  - unfold exec. destruct (decide (state t = QUEUED)) as [Hs|Hs].
    + rewrite (ScheduledTask_cancel_queued _ _ _ Ht Hs).
      eapply (queue_ok_insert j t); try done. by right.
    + by rewrite (ScheduledTask_cancel_not_queued _ _ _ Ht Hs).
  - unfold exec, ScheduledTask_cancel. by rewrite bind_unfold, deref_None.
Qed.

Lemma queue_ok_Scheduler_cancel (j : nat) (w : World) :
  queue_ok w -> queue_ok (exec (Scheduler_cancel j) w).
Proof.
  intros Hok. pose proof (queue_ok_ScheduledTask_cancel j w Hok) as Hcancel.
  unfold exec, Scheduler_cancel, Scheduler_cancel_with in *. rewrite bind_unfold.
  destruct (tasks w !! j) as [t|] eqn:Ht.
  - rewrite (deref_Some _ _ _ Ht). by case_decide.
  - by rewrite deref_None.
Qed.

(** [next] takes a task out of the queue, and with it the entries before it
    that are not QUEUED any more. *)
Lemma queue_ok_popped (i : nat) (t : ScheduledTask) (discarded rest : list nat) (w : World) :
  queue_ok w -> tasks w !! i = Some t ->
  _queue w ≡ₚ discarded ++ i :: rest ->
  Forall (fun j => is_queued (tasks w) j = false) discarded ->
  queue_ok_without i (with_queue rest w).
Proof.
  intros (Hnd & Hlt & Hin & Hst & Hrun) Ht Hperm Hd.
  rewrite Hperm in Hnd. apply NoDup_app in Hnd as (_ & _ & Hnd).
  apply NoDup_cons in Hnd as [Hi Hnd].
  assert (Hrest : forall j, j ∈ rest -> j ∈ _queue w).
  { intros j Hj. rewrite Hperm. apply elem_of_app. right.
    by apply list_elem_of_further. }
  unfold queue_ok_without. cbn [_queue tasks _ID_COUNTER with_queue].
  split_and!; try done.
  - intros j tj Hne Htj Hsj. specialize (Hin _ _ Htj Hsj). rewrite Hperm in Hin.
    apply elem_of_app in Hin as [Hj|Hj].
    + rewrite Forall_forall in Hd. specialize (Hd _ Hj).
      unfold is_queued in Hd. rewrite Htj in Hd.
      by apply bool_decide_eq_false in Hd.
    + by apply elem_of_cons in Hj as [-> | Hj].
  - intros j Hj. by apply Hst, Hrest.
  - intros j tj _ Htj. by eapply Hrun.
Qed.

(** With no QUEUED task in it the queue is emptied. *)
Lemma queue_ok_emptied (w : World) :
  queue_ok w -> Forall (fun j => is_queued (tasks w) j = false) (_queue w) ->
  queue_ok (with_queue [] w).
Proof.
  intros (Hnd & Hlt & Hin & Hst & Hrun) Hd. unfold queue_ok.
  cbn [_queue tasks _ID_COUNTER with_queue]. split_and!; try done.
  - constructor.
  - intros i t Ht Hs. specialize (Hin _ _ Ht Hs).
    rewrite Forall_forall in Hd. specialize (Hd _ Hin).
    unfold is_queued in Hd. rewrite Ht in Hd.
    by apply bool_decide_eq_false in Hd.
  - by intros i ?%elem_of_nil.
Qed.

(** A RUNNING task is out of the queue. *)
Lemma queue_ok_running (i : nat) (t : ScheduledTask) (w : World) :
  queue_ok w -> tasks w !! i = Some t -> state t = RUNNING -> queue_ok_without i w.
Proof.
  intros (Hnd & Hlt & Hin & Hst & Hrun) Ht Hs. unfold queue_ok_without.
  split_and!; try done.
  - intros Hi. destruct (Hst _ Hi) as (t0 & Ht0 & Hs0).
    assert (t0 = t) as -> by congruence. destruct Hs0; congruence.
  - intros j tj _. apply Hin.
  - intros j tj _. apply Hrun.
Qed.

(** The task that was out comes back: into the queue if it is QUEUED again,
    and not otherwise. *)
Lemma queue_ok_put (i : nat) (t' : ScheduledTask) (em : Emission) (w w' : World) :
  queue_ok_without i w -> is_Some (tasks w !! i) ->
  affected i t' em w w' ->
  match em with
  | Retried _ => state t' = QUEUED
  | _ => state t' ≠ QUEUED
  end ->
  (state t' = RUNNING <-> inflight t' ≠ None) ->
  queue_ok w'.
Proof.
  intros (Hnd & Hi & Hlt & Hin & Hst & Hrun) Hsome (Htasks & Hq & _ & Hc) Hem Hrun'.
  unfold queue_ok. rewrite Htasks, Hq, Hc. split_and!.
  - apply NoDup_app. split_and!; [done| |].
    + intros j Hj. destruct em; simpl; try by intros ?%elem_of_nil.
      by intros ->%list_elem_of_singleton.
    + destruct em; simpl; try constructor; [by intros ?%elem_of_nil|constructor].
  - intros j [<-|[_ Hj]]%lookup_insert_is_Some; by apply Hlt.
  - intros j tj [[<- <-]|[Hne Htj]]%lookup_insert_Some Hsj; apply elem_of_app.
    + right. destruct em; simpl; try done. by apply list_elem_of_singleton.
    + left. by eapply Hin.
  - intros j [Hj|Hj]%elem_of_app.
    + destruct (Hst _ Hj) as (tj & Htj & Hsj). exists tj.
      rewrite lookup_insert_ne; [done|]. by intros <-.
    + destruct em; simpl in Hj; try by apply elem_of_nil in Hj.
      apply list_elem_of_singleton in Hj as ->. eexists.
      rewrite lookup_insert_eq. split; [done|]. by left.
  - intros j tj [[<- <-]|[Hne Htj]]%lookup_insert_Some; [done|by eapply Hrun].
Qed.

(** What [run] makes of a QUEUED task up to its return, and what the
    settling of the executor's promise makes of a RUNNING one. *)
Definition ran (t : ScheduledTask) : ScheduledTask * Emission :=
  match executor (_task t) (data t) (invocations t) with
  | Returns v => (finishSuccess_task v (started t), Quiet)
  | Throws e => finishError_task e (started t)
  | Async o => (with_inflight (Some o) (started t), Quiet)
  end.

Definition settles (o : Outcome) (t : ScheduledTask) : ScheduledTask * Emission :=
  match o with
  | Fulfilled v => (finishSuccess_task v (with_inflight None t), Quiet)
  | Rejected e => finishError_task e (with_inflight None t)
  end.

Lemma run_queued_affected (i : nat) (t : ScheduledTask) (w : World) :
  tasks w !! i = Some t -> state t = QUEUED ->
  affected i (fst (ran t)) (snd (ran t)) w (exec (run i) w).
Proof.
  intros Ht Hs. unfold exec, ran. rewrite (run_queued _ _ _ Ht Hs). cbv zeta.
  destruct (executor _ _ _) as [v|e|o]; cbn [fst snd].
  - eapply affected_after, finishSuccess_task_spec. apply lookup_insert_eq.
  - eapply affected_after, finishError_task_spec. apply lookup_insert_eq.
  - unfold affected. simpl. by rewrite !app_nil_r.
Qed.

Lemma run_callback_affected (i : nat) (o : Outcome) (t : ScheduledTask) (w : World) :
  tasks w !! i = Some t -> inflight t = Some o ->
  affected i (fst (settles o t)) (snd (settles o t)) w (exec (run_callback i) w).
Proof.
  intros Ht Hin. unfold exec, run_callback, settles.
  rewrite bind_unfold, (deref_Some _ _ _ Ht), Hin, bind_unfold, (assign_Some _ _ _ _ Ht).
  destruct o as [v|e]; cbn [fst snd].
  - eapply affected_after, finishSuccess_task_spec. apply lookup_insert_eq.
  - eapply affected_after, finishError_task_spec. apply lookup_insert_eq.
Qed.

Lemma finishError_task_state (e : JsError) (t : ScheduledTask) :
  inflight (fst (finishError_task e t)) = inflight t
  ∧ state (fst (finishError_task e t))
    = match snd (finishError_task e t) with
      | Retried _ => QUEUED
      | _ => FAILED
      end.
Proof. unfold finishError_task. by case_decide. Qed.

Lemma ran_state (t : ScheduledTask) :
  inflight t = None ->
  match snd (ran t) with
  | Retried _ => state (fst (ran t)) = QUEUED
  | _ => state (fst (ran t)) ≠ QUEUED
  end
  ∧ (state (fst (ran t)) = RUNNING <-> inflight (fst (ran t)) ≠ None).
Proof.
  intros Hin. unfold ran. destruct (executor _ _ _) as [v|e|o]; cbn [fst snd].
  - simpl. by rewrite Hin.
  - destruct (finishError_task_state e (started t)) as (-> & ->).
    simpl. rewrite Hin. by destruct (snd (finishError_task e (started t))).
  - done.
Qed.

Lemma settles_state (o : Outcome) (t : ScheduledTask) :
  match snd (settles o t) with
  | Retried _ => state (fst (settles o t)) = QUEUED
  | _ => state (fst (settles o t)) ≠ QUEUED
  end
  ∧ (state (fst (settles o t)) = RUNNING <-> inflight (fst (settles o t)) ≠ None).
Proof.
  unfold settles. destruct o as [v|e]; cbn [fst snd].
  - done.
  - destruct (finishError_task_state e (with_inflight None t)) as (-> & ->).
    simpl. by destruct (snd (finishError_task e (with_inflight None t))).
Qed.

Lemma queue_ok_take (now : Z) (w : World) :
  queue_ok w -> queue_ok (exec (Worker_take now) w).
Proof.
  intros Hok. unfold exec, Worker_take. rewrite bind_unfold. unfold next.
  destruct (next_loop _ _ _) as [[i|] rest] eqn:E; cbn [fst snd].
  - apply next_loop_Some in E as (Hq & d & Hperm & Hd).
    unfold is_queued in Hq. destruct (tasks w !! i) as [t|] eqn:Ht; [|done].
    apply bool_decide_eq_true in Hq.
    pose proof (queue_ok_popped i t d rest w Hok Ht Hperm Hd) as Hout.
    pose proof (run_queued_affected i t (with_queue rest w) Ht Hq) as Haff.
    assert (Hin : inflight t = None) by (apply (queue_ok_idle w i t Hok Ht); congruence).
    destruct (ran_state t Hin) as [Hem Hrun].
    assert (Hexec : snd (try_catch (run i;; mret tt) (fun _ => mret tt) (with_queue rest w))
                    = exec (run i) (with_queue rest w)).
    { unfold exec, try_catch. rewrite bind_unfold.
      by destruct (run i (with_queue rest w)) as [[?|?] ?]. }
    rewrite Hexec. by eapply queue_ok_put.
  - apply next_loop_None in E as [-> Hd]. by apply queue_ok_emptied.
Qed.

Lemma queue_ok_settles (i : nat) (w : World) :
  queue_ok w -> queue_ok (exec (run_callback i) w).
Proof.
  intros Hok. destruct (tasks w !! i) as [t|] eqn:Ht.
  - destruct (inflight t) as [o|] eqn:Hin.
    + pose proof Hok as (_ & _ & _ & _ & Hrun).
      assert (Hs : state t = RUNNING) by (apply (Hrun _ _ Ht); congruence).
      destruct (settles_state o t) as [Hem Hrun'].
      eapply queue_ok_put; [by eapply queue_ok_running|by eexists| |done|done].
      by apply run_callback_affected.
    + unfold exec, run_callback. by rewrite bind_unfold, (deref_Some _ _ _ Ht), Hin.
  - unfold exec, run_callback. by rewrite bind_unfold, deref_None.
Qed.

Lemma queue_ok_steps (steps : list WorkerStep) (w : World) :
  queue_ok w -> queue_ok (foldl worker_step w steps).
Proof.
  revert w. induction steps as [|s steps IH]; intros w Hok; [done|].
  simpl. apply IH. destruct s; simpl.
  - by apply queue_ok_schedule.
  - by apply queue_ok_Scheduler_cancel.
  - by apply queue_ok_ScheduledTask_cancel.
  - by apply queue_ok_then.
  - by apply queue_ok_take.
  - by apply queue_ok_settles.
Qed.

Lemma attempted_state (t : ScheduledTask) :
  inflight t = None ->
  inflight (fst (attempted t)) = None
  ∧ _retries (fst (attempted t)) ≤ _retries t
  ∧ match snd (attempted t) with
    | Retried _ =>
        state (fst (attempted t)) = QUEUED
        ∧ 0 < _retries t ∧ _retries (fst (attempted t)) = _retries t - 1
    | _ => state (fst (attempted t)) = COMPLETED ∨ state (fst (attempted t)) = FAILED
    end.
Proof.
  intros Hin. unfold attempted, finishError_task, finishSuccess_task.
  destruct (executor _ _ _) as [v|e|[v|e]]; repeat case_decide; simpl in *;
    split_and!; first [done | lia | by left | by right].
Qed.


(** With whole turns no task is RUNNING between the steps. *)
Definition calm (w : World) : Prop :=
  forall i t, tasks w !! i = Some t -> state t ≠ RUNNING.

Lemma queue_ok_dispatch (now : Z) (w : World) :
  queue_ok w -> calm w ->
  queue_ok (exec (dispatch now) w) ∧ calm (exec (dispatch now) w).
Proof.
  intros Hok Hcalm.
  destruct (dispatch_turn now w) as [[Hd ->]|(i & t & d & rest & Ht & Hs & Hperm & Hd & Haff)].
  { intros i t Ht Hs. apply (queue_ok_idle w i t Hok Ht). congruence. }
  - split; [by apply queue_ok_emptied|done].
  - assert (Hin : inflight t = None) by (apply (queue_ok_idle w i t Hok Ht); congruence).
    destruct (attempted_state t Hin) as (Hin' & _ & Hem). split.
    + eapply queue_ok_put; [by eapply queue_ok_popped|by eexists|done| |].
      * destruct (snd (attempted t)); destruct Hem; congruence.
      * rewrite Hin'. destruct (snd (attempted t)); destruct Hem; split; congruence.
    + destruct Haff as (Htasks & _). intros j tj. rewrite Htasks.
      intros [[<- <-]|[_ Htj]]%lookup_insert_Some; [|by eapply Hcalm].
      destruct (snd (attempted t)); destruct Hem; congruence.
Qed.

Lemma calm_insert (j : nat) (t' : ScheduledTask) (w w' : World) :
  calm w -> tasks w' = <[j := t']> (tasks w) -> state t' ≠ RUNNING -> calm w'.
Proof.
  intros Hcalm Htasks Hs i t. rewrite Htasks.
  intros [[<- <-]|[_ Ht]]%lookup_insert_Some; [done|by eapply Hcalm].
Qed.

Lemma calm_then (j k : nat) (w : World) : calm w -> calm (exec (then_ j k) w).
Proof.
  intros Hcalm. destruct (tasks w !! j) as [t|] eqn:Ht.
  - unfold exec. rewrite (then__spec _ _ _ _ Ht).
    destruct (_promise t ≫= settled); [exact Hcalm|].
    eapply calm_insert; [exact Hcalm|reflexivity|]. exact (Hcalm j t Ht).
  - unfold exec, then_. by rewrite bind_unfold, deref_None.
Qed.

Lemma calm_ScheduledTask_cancel (j : nat) (w : World) :
  calm w -> calm (exec (ScheduledTask_cancel j) w).
Proof.
  intros Hcalm. destruct (tasks w !! j) as [t|] eqn:Ht.
  - unfold exec. destruct (decide (state t = QUEUED)) as [Hs|Hs].
    + rewrite (ScheduledTask_cancel_queued _ _ _ Ht Hs).
      eapply calm_insert; [exact Hcalm|reflexivity|done].
    + by rewrite (ScheduledTask_cancel_not_queued _ _ _ Ht Hs).
  - unfold exec, ScheduledTask_cancel. by rewrite bind_unfold, deref_None.
Qed.

Lemma calm_Scheduler_cancel (j : nat) (w : World) :
  calm w -> calm (exec (Scheduler_cancel j) w).
Proof.
  intros Hcalm. pose proof (calm_ScheduledTask_cancel j w Hcalm) as Hcancel.
  unfold exec, Scheduler_cancel, Scheduler_cancel_with in *. rewrite bind_unfold.
  destruct (tasks w !! j) as [t|] eqn:Ht.
  - rewrite (deref_Some _ _ _ Ht). by case_decide.
  - by rewrite deref_None.
Qed.

Lemma queue_ok_history (ops : list Op) (w : World) :
  forallb worker_driven ops = true -> queue_ok w -> calm w ->
  queue_ok (foldl perform w ops) ∧ calm (foldl perform w ops).
Proof.
  revert w. induction ops as [|op ops IH]; intros w Hops Hok Hcalm; [done|].
  simpl in Hops. apply andb_prop in Hops as [Hop Hops]. simpl.
  assert (queue_ok (perform w op) ∧ calm (perform w op)) as [Hok' Hcalm'];
    [|by apply IH].
  destruct op as [now task options|now|j|j|j|j|j k|now]; simpl in *; try done.
  - split; [by apply queue_ok_schedule|].
    eapply calm_insert; [exact Hcalm|reflexivity|done].
  - split; [by apply queue_ok_Scheduler_cancel|by apply calm_Scheduler_cancel].
  - split; [by apply queue_ok_ScheduledTask_cancel|by apply calm_ScheduledTask_cancel].
  - split; [by apply queue_ok_then|by apply calm_then].
  - by apply queue_ok_dispatch.
Qed.

(** X8: in a scheduler whose tasks are run by workers only, with the steps of
    any number of workers following each other in any order (tasks are
    scheduled, cancelled and waited for, a worker takes the next task and
    starts it, the promise of a running task settles), every QUEUED task has
    exactly one entry in the queue, every entry of the queue is a task that is
    QUEUED or CANCELLED, and a task is RUNNING exactly while a callback of its
    executor is outstanding, and is not in the queue then: no queued task is
    lost, and a task that a worker has taken is not there for another. *)
Theorem queued_tasks_are_in_the_queue_once (steps : list WorkerStep) :
  let w := foldl worker_step new_Scheduler steps in
  NoDup (_queue w)
  ∧ (forall i t, tasks w !! i = Some t -> state t = QUEUED -> i ∈ _queue w)
  ∧ (forall i, i ∈ _queue w ->
       exists t, tasks w !! i = Some t ∧ (state t = QUEUED ∨ state t = CANCELLED))
  ∧ (forall i t, tasks w !! i = Some t -> (state t = RUNNING <-> inflight t ≠ None))
  ∧ (forall i t, tasks w !! i = Some t -> state t = RUNNING -> i ∉ _queue w).
Proof.
  intros w.
  destruct (queue_ok_steps steps new_Scheduler queue_ok_new)
    as (Hnd & _ & Hin & Hst & Hrun).
  fold w in Hnd, Hin, Hst, Hrun. split_and!; try done.
  intros i t Ht Hs Hi. destruct (Hst _ Hi) as (t0 & Ht0 & Hs0).
  assert (t0 = t) as -> by congruence. destruct Hs0; congruence.
Qed.

(** ** A worker comes to the end of the queue *)

Lemma queue_weight_pos (w : World) : _queue w ≠ [] -> (0 < queue_weight w)%nat.
Proof.
  unfold queue_weight. destruct (_queue w) as [|i q]; [done|]. intros _.
  simpl. unfold entry_weight. lia.
Qed.

Lemma dispatch_weight (now : Z) (w : World) :
  queue_ok w -> _queue w ≠ [] ->
  (queue_weight (exec (dispatch now) w) < queue_weight w)%nat.
Proof.
  intros Hok Hne.
  destruct (dispatch_turn now w) as [[Hd ->]|(i & t & d & rest & Ht & Hs & Hperm & Hd & Haff)].
  { intros i t Ht Hs. apply (queue_ok_idle w i t Hok Ht). congruence. }
  - by apply queue_weight_pos.
  - assert (Hidle_i : inflight t = None)
      by (apply (queue_ok_idle w i t Hok Ht); congruence).
    destruct (attempted_state t Hidle_i) as (_ & Hle & Hem).
    destruct Haff as (Htasks & Hq & _ & _). simpl in Htasks, Hq.
    unfold queue_weight. rewrite Htasks, Hq, Hperm, !sum_list_with_app.
    cbn [sum_list_with].
    pose proof (queue_weight_insert_le (tasks w) i t (fst (attempted t)) rest Ht Hle).
    rewrite (entry_weight_Some _ _ _ Ht).
    destruct (snd (attempted t)); cbn [requeued sum_list_with]; try lia.
    rewrite (entry_weight_Some _ i _ (lookup_insert_eq _ _ _)).
    destruct Hem as (_ & Hpos & ->). lia.
Qed.

Lemma run_worker_drains (nows : list Z) (w : World) :
  queue_ok w -> calm w -> (queue_weight w <= length nows)%nat ->
  _queue (run_worker nows w) = []
  ∧ queue_ok (run_worker nows w) ∧ calm (run_worker nows w).
Proof.
  revert w. induction nows as [|now nows IH]; intros w Hok Hcalm Hw.
  - split; [|done]. simpl in *. destruct (_queue w) as [|i q] eqn:Hq; [done|].
    assert (0 < queue_weight w)%nat by (apply queue_weight_pos; by rewrite Hq). lia.
  - unfold run_worker. simpl. fold (run_worker nows (exec (dispatch now) w)).
    destruct (queue_ok_dispatch now w Hok Hcalm) as [Hok' Hcalm'].
    apply IH; [done|done|].
    destruct (_queue w) as [|i q] eqn:Hq.
    + rewrite dispatch_empty by done. simpl in Hw. unfold queue_weight in *.
      rewrite Hq in *. simpl in *. lia.
    + pose proof (dispatch_weight now w Hok) as Hlt. rewrite Hq in Hlt.
      specialize (Hlt ltac:(done)). simpl in Hw. lia.
Qed.

Lemma dispatch_keeps_tasks (now : Z) (w : World) (i : nat) :
  is_Some (tasks w !! i) -> is_Some (tasks (exec (dispatch now) w) !! i).
Proof.
  intros Hi.
  apply (Inv_dispatch (fun w => is_Some (tasks w !! i))); [done| |done].
  intros j t t' em w0 w1 H _ _ (-> & _). rewrite lookup_insert_is_Some.
  destruct (decide (j = i)); [by left|by right].
Qed.

Lemma run_worker_keeps_tasks (nows : list Z) (w : World) (i : nat) :
  is_Some (tasks w !! i) -> is_Some (tasks (run_worker nows w) !! i).
Proof.
  revert w. induction nows as [|now nows IH]; intros w Hi; [done|].
  unfold run_worker. simpl. apply IH. by apply dispatch_keeps_tasks.
Qed.

(** X9: in a scheduler whose tasks are run in whole turns of a worker (a turn
    is one attempt, from [next()] to the settling of the promise of the
    executor, which is taken to settle), a worker that goes on taking turns
    comes to the end of the work: after as many turns as the entries of the
    queue and the retries of their tasks add up to, or more, the queue is
    empty and every task of the scheduler is COMPLETED, FAILED or
    CANCELLED. *)
Theorem worker_finishes_every_task (ops : list Op) (nows : list Z) :
  forallb worker_driven ops = true ->
  let w := foldl perform new_Scheduler ops in
  (queue_weight w <= length nows)%nat ->
  let w' := run_worker nows w in
  _queue w' = []
  ∧ (forall i, is_Some (tasks w !! i) -> is_Some (tasks w' !! i))
  ∧ (forall i t, tasks w' !! i = Some t ->
       state t = COMPLETED ∨ state t = FAILED ∨ state t = CANCELLED).
Proof.
  intros Hops w Hw w'.
  destruct (queue_ok_history ops new_Scheduler Hops queue_ok_new) as [Hok Hcalm].
  { intros i t Ht. discriminate Ht. }
  destruct (run_worker_drains nows w Hok Hcalm Hw)
    as (Hq & (_ & _ & Hin & _ & _) & Hcalm').
  fold w' in Hq, Hin, Hcalm'. split; [done|]. split.
  - intros i. apply run_worker_keeps_tasks.
  - intros i t Ht. pose proof (Hcalm' _ _ Ht) as Hrun.
    specialize (Hin _ _ Ht). rewrite Hq in Hin.
    destruct (state t); auto.
    + by apply elem_of_nil in Hin.
    + done.
Qed.

Lemma worker_finishes_every_task_witness :
  let w := foldl perform new_Scheduler
             [OpSchedule 0 failing_task (with_retries 2);
              OpSchedule 1 hello_task no_options;
              OpSchedule 2 flaky_download (with_retries 5);
              OpCancel 1%nat] in
  _queue (run_worker [1; 2; 3; 4; 5; 6; 7; 8; 9; 10] w) = []
  ∧ (state <$> tasks (run_worker [1; 2; 3; 4; 5; 6; 7; 8; 9; 10] w) !! 2%nat)
    = Some COMPLETED.
Proof.
  intros w.
  destruct (worker_finishes_every_task
              [OpSchedule 0 failing_task (with_retries 2);
               OpSchedule 1 hello_task no_options;
               OpSchedule 2 flaky_download (with_retries 5);
               OpCancel 1%nat]
              [1; 2; 3; 4; 5; 6; 7; 8; 9; 10])
    as (Hq & _ & _).
  - reflexivity.
  - vm_compute. lia.
  - split; [exact Hq|]. reflexivity.
Defined.

(** ** What never changes *)

(** X10: the task, the id, the data, the priority and the scheduled time of a
    scheduled task are fixed when it is scheduled and never change
    afterwards, whatever is done to the scheduler and its tasks; in
    particular a task that is retried keeps the time at which it was first
    scheduled and with it its place in the order of the queue. *)
Theorem identity_of_a_task_never_changes
    (w : World) (now : Z) (task : Task) (options : ScheduleOptions) (ops : list Op)
    (later : Z) :
  let i := scheduled_handle w in
  let w' := foldl perform (exec (schedule now task options) w) ops in
  exists t,
    tasks w' !! i = Some t
    ∧ _task t = task
    ∧ id t = i
    ∧ data t = opt_data options
    ∧ priority t = match opt_priority options with
                   | Some p => Some p
                   | None => task_priority task
                   end
    ∧ scheduled t = now
    ∧ summary later t
      = summary later (new_ScheduledTask task options now i).
Proof.
  intros i w'.
  assert (Hkept : (i < _ID_COUNTER w')%nat
            ∧ exists t, tasks w' !! i = Some t
                ∧ id t = i ∧ _task t = task ∧ data t = opt_data options
                ∧ priority t = priority (new_ScheduledTask task options now i)
                ∧ scheduled t = now).
  { apply (Inv_history (fun w' =>
      (i < _ID_COUNTER w')%nat
      ∧ exists t, tasks w' !! i = Some t
          ∧ id t = i ∧ _task t = task ∧ data t = opt_data options
          ∧ priority t = priority (new_ScheduledTask task options now i)
          ∧ scheduled t = now)).
    - intros now' task' options' w0 (Hc & t0 & Ht0 & H). split; [simpl; lia|].
      exists t0. unfold exec, schedule. simpl. by rewrite lookup_insert_ne by lia.
    - intros now' w0 H. exact H.
    - intros j t1 t' em w0 w1 (Hc & t0 & Ht0 & Hid & Htask & Hdata & Hprio & Hsched)
        Ht1 Heff (Htasks & _ & _ & Hc').
      split; [lia|]. rewrite Htasks. destruct (decide (j = i)) as [->|Hne].
      2:{ exists t0. by rewrite lookup_insert_ne. }
      rewrite lookup_insert_eq. exists t'. split; [done|].
      assert (t1 = t0) as -> by congruence.
      apply task_effect_id in Heff as (-> & -> & -> & -> & ->). done.
    - split; [unfold i, scheduled_handle; simpl; lia|].
      eexists. split; [apply lookup_insert_eq|]. done. }
  destruct Hkept as (_ & t & Ht & Hid & Htask & Hdata & Hprio & Hsched).
  exists t. split_and!; try done.
  unfold summary. by rewrite Hprio, Hsched.
Qed.

(** ** The order in which tasks are taken *)



(** ** The events of a task *)

Definition is_schedule_of (i : nat) (e : Event) : bool :=
  match e with
  | EvSchedule j => bool_decide (j = i)
  | _ => false
  end.

Definition is_failedAttempt_of (i : nat) (e : Event) : bool :=
  match e with
  | EvFailedAttempt j _ => bool_decide (j = i)
  | _ => false
  end.

Definition is_failedTask_of (i : nat) (e : Event) : bool :=
  match e with
  | EvFailedTask j _ => bool_decide (j = i)
  | _ => false
  end.

(** How many events of a log satisfy [p]. *)
Definition count_events (p : Event -> bool) (l : list Event) : Z :=
  Z.of_nat (length (List.filter p l)).

Lemma count_events_app (p : Event -> bool) (l l' : list Event) :
  count_events p (l ++ l') = count_events p l + count_events p l'.
Proof. unfold count_events. rewrite List.filter_app, length_app. lia. Qed.

(** The events of a task are counted by its fields. *)
Definition events_counted (i : nat) (t : ScheduledTask) (l : list Event) : Prop :=
  count_events (is_schedule_of i) l = attempt t + 1
  ∧ count_events (is_failedAttempt_of i) l = attempt t
  ∧ count_events (is_failedTask_of i) l = (if decide (state t = FAILED) then 1 else 0).

Definition events_ok (w : World) : Prop :=
  (forall i, is_Some (tasks w !! i) <-> (i < _ID_COUNTER w)%nat)
  ∧ (forall i t, tasks w !! i = Some t -> consistent t ∧ events_counted i t (emitted w))
  ∧ (forall i, tasks w !! i = None ->
       count_events (is_schedule_of i) (emitted w) = 0
       ∧ count_events (is_failedAttempt_of i) (emitted w) = 0
       ∧ count_events (is_failedTask_of i) (emitted w) = 0).

Lemma count_events_of (i j : nat) (em : Emission) :
  count_events (is_schedule_of i) (events_of j em)
  = (if decide (j = i) then match em with Retried _ => 1 | _ => 0 end else 0)
  ∧ count_events (is_failedAttempt_of i) (events_of j em)
    = (if decide (j = i) then match em with Retried _ => 1 | _ => 0 end else 0)
  ∧ count_events (is_failedTask_of i) (events_of j em)
    = (if decide (j = i) then match em with GaveUp _ => 1 | _ => 0 end else 0).
Proof.
  unfold count_events.
  destruct em; simpl; repeat case_bool_decide; repeat case_decide; simpl;
    try done; congruence.
Qed.

Lemma events_counted_effect (i : nat) (t t' : ScheduledTask) (em : Emission)
    (l : list Event) :
  task_effect t t' em -> consistent t -> events_counted i t l ->
  events_counted i t' (l ++ events_of i em).
Proof.
  intros Heff (_ & _ & _ & Hrun & _) (Hs & Ha & Hf).
  assert (Hbusy : forall o, inflight t = Some o -> state t = RUNNING).
  { intros o Hin. apply Hrun. congruence. }
  unfold events_counted. rewrite !count_events_app.
  destruct (count_events_of i i em) as (-> & -> & ->). rewrite decide_True by done.
  inversion Heff as [|k Hp|Hst|o Hst Hex|v Hst Hex|e Hst Hex|v Hin|e Hin]; subst;
    try (apply Hbusy in Hin); unfold finishError_task, finishSuccess_task in *;
    repeat case_decide; simpl in *; split_and!; try lia; try congruence.
Qed.

Lemma events_ok_history (ops : list Op) (w : World) :
  events_ok w -> events_ok (foldl perform w ops).
Proof.
  apply (Inv_history events_ok).
  - intros now task options w0 (Hdom & Hcount & Hnone). unfold events_ok, exec, schedule.
    cbn [snd tasks emitted _ID_COUNTER with_emitted with_queue with_counter with_tasks].
    assert (Hfresh : tasks w0 !! _ID_COUNTER w0 = None).
    { apply eq_None_not_Some. rewrite Hdom. lia. }
    split; [|split].
    + intros i. rewrite lookup_insert_is_Some, Hdom. lia.
    + intros i t [[<- <-]|[Hne Ht]]%lookup_insert_Some.
      * split; [apply consistent_new|].
        destruct (Hnone _ Hfresh) as (Hs & Ha & Hf).
        unfold events_counted. rewrite !count_events_app, Hs, Ha, Hf.
        unfold count_events. simpl. rewrite bool_decide_eq_true_2 by done. done.
      * destruct (Hcount _ _ Ht) as [Hcons (Hs & Ha & Hf)]. split; [done|].
        unfold events_counted. rewrite !count_events_app, Hs, Ha, Hf.
        unfold count_events. simpl. rewrite bool_decide_eq_false_2 by done.
        simpl. by rewrite !Z.add_0_r.
    + intros i [Hi Hne]%lookup_insert_None.
      destruct (Hnone _ Hi) as (Hs & Ha & Hf).
      rewrite !count_events_app, Hs, Ha, Hf.
      unfold count_events. simpl. rewrite bool_decide_eq_false_2 by done. done.
  - intros now w0 H. exact H.
  - intros j t t' em w0 w1 (Hdom & Hcount & Hnone) Ht Heff (Htasks & _ & He & Hc).
    unfold events_ok. rewrite Htasks, He, Hc. split; [|split].
    + intros i. rewrite lookup_insert_is_Some, <- Hdom.
      split; [intros [<-|[_ H]]; [by eexists|done]|].
      intros H. destruct (decide (j = i)); [by left|by right].
    + intros i ti [[<- <-]|[Hne Hti]]%lookup_insert_Some.
      * destruct (Hcount _ _ Ht) as [Hcons Hev]. split.
        -- by eapply consistent_effect.
        -- by eapply events_counted_effect.
      * destruct (Hcount _ _ Hti) as [Hcons (Hs & Ha & Hf)]. split; [done|].
        unfold events_counted. rewrite !count_events_app.
        destruct (count_events_of i j em) as (-> & -> & ->).
        rewrite !decide_False by done. by rewrite !Z.add_0_r.
    + intros i [Hi Hne]%lookup_insert_None.
      destruct (Hnone _ Hi) as (Hs & Ha & Hf). rewrite !count_events_app.
      destruct (count_events_of i j em) as (-> & -> & ->).
      rewrite !decide_False by done. by rewrite !Z.add_0_r.
Qed.

(** X12: in a scheduler that has been used in any way since it was made, the
    events tell the story of each task: 'schedule' has been emitted for it
    once when it was scheduled and once for each retry, 'failedAttempt' once
    for each retry, that is [attempt] times, and 'failedTask' once if the
    task is FAILED and never otherwise. *)
Theorem events_count_the_attempts (ops : list Op) (i : nat) (t : ScheduledTask) :
  let w := foldl perform new_Scheduler ops in
  tasks w !! i = Some t ->
  count_events (is_schedule_of i) (emitted w) = attempt t + 1
  ∧ count_events (is_failedAttempt_of i) (emitted w) = attempt t
  ∧ count_events (is_failedTask_of i) (emitted w)
    = (if decide (state t = FAILED) then 1 else 0).
Proof.
  intros w Ht.
  destruct (events_ok_history ops new_Scheduler) as (_ & Hcount & _).
  - split; [|split].
    + intros j. simpl. rewrite lookup_empty. split; [by intros []|lia].
    + intros j tj Hj. discriminate Hj.
    + intros j _. done.
  - by destruct (Hcount _ _ Ht) as [_ H].
Qed.

Lemma events_count_the_attempts_witness :
  let w := foldl perform new_Scheduler
             [OpSchedule 0 failing_task (with_retries 2); OpDispatch 1;
              OpSchedule 2 hello_task no_options; OpDispatch 3; OpDispatch 4;
              OpDispatch 5] in
  count_events (is_failedAttempt_of 0) (emitted w) = 2
  ∧ count_events (is_failedTask_of 0) (emitted w) = 1.
Proof.
  intros w.
  destruct (events_count_the_attempts
              [OpSchedule 0 failing_task (with_retries 2); OpDispatch 1;
               OpSchedule 2 hello_task no_options; OpDispatch 3; OpDispatch 4;
               OpDispatch 5]
              0%nat
              (with_state FAILED
                 (started (consume_retry (with_state QUEUED
                    (started (consume_retry (with_state QUEUED
                       (started (new_ScheduledTask failing_task (with_retries 2) 0 0%nat))))))))))
    as (_ & Ha & Hf).
  - vm_compute. reflexivity.
  - split; [exact Ha|exact Hf].
Defined.

(** * Further properties of the request pool *)

(** ** What happens to a pool *)

(** What is done to a pool from outside and what the event loop does to it:
    requests, a change of the worker limit, a throttle signal given to the
    policy, the timeout and the interval of the policy, a worker loop that
    goes on after an [await], the callback of a task that was run, the end of
    a worker loop, and the cancelling of a task. *)
Inductive PoolOp : Type :=
  | PoolRequest (now : Z) (instance : Request)
  | PoolSetWorkerLimit (now : Z) (limit : nat)
  | PoolThrottle (now : Z) (throttle_until : Z)
  | PoolTimerFires (now : Z)
  | PoolIntervalTicks (now : Z)
  | PoolWorkerStarts (now : Z) (j : nat)
  | PoolWorkerResumes (now : Z) (j : nat)
  | PoolCallback (now : Z) (i : nat)
  | PoolWorkerEnds (j : nat)
  | PoolCancel (now : Z) (i : nat).

Definition pool_perform (pool : RequestPool) (op : PoolOp) : RequestPool :=
  match op with
  | PoolRequest now instance => snd (request now instance pool)
  | PoolSetWorkerLimit now limit => setWorkerLimit now limit pool
  | PoolThrottle now throttle_until => throttle now throttle_until pool
  | PoolTimerFires now => timer_fires now pool
  | PoolIntervalTicks now => interval_ticks now pool
  | PoolWorkerStarts now j => snd (Worker_tryStart now j pool)
  | PoolWorkerResumes now j => _main_sync now j pool
  | PoolCallback now i => snd (in_pool now (run_callback i) pool)
  | PoolWorkerEnds j => alter_worker Worker_finally j pool
  | PoolCancel now i => snd (in_pool now (Scheduler_cancel i) pool)
  end.

(** ** The recorded [until] is never moved to a later time *)

Definition until_kept (pool pool' : RequestPool) : Prop :=
  forall active, until (metadata_throttle pool) = Some active ->
    exists active', until (metadata_throttle pool') = Some active' ∧ active' ≤ active.

Global Instance until_kept_preorder : PreOrder until_kept.
Proof.
  split.
  - intros pool active H. exists active. split; [done|lia].
  - intros p1 p2 p3 H12 H23 a1 H1.
    destruct (H12 _ H1) as (a2 & H2 & Hle2). destruct (H23 _ H2) as (a3 & H3 & Hle3).
    exists a3. split; [done|lia].
Qed.

Lemma until_kept_same (pool pool' : RequestPool) :
  until (metadata_throttle pool') = until (metadata_throttle pool) ->
  until_kept pool pool'.
Proof. intros H active Ha. exists active. rewrite H. split; [done|lia]. Qed.

Lemma until_kept_throttle (now throttle_until : Z) (pool : RequestPool) :
  until_kept pool (throttle now throttle_until pool).
Proof.
  intros active Hactive. unfold throttle.
  destruct (bool_decide (throttle_until - now ≤ 0)) eqn:Hms; simpl;
    [exists active; split; [done|lia]|].
  destruct (canThrottle throttle_until pool) eqn:Hcan; simpl;
    [|exists active; split; [done|lia]].
  unfold canThrottle in Hcan. rewrite Hactive in Hcan.
  apply bool_decide_eq_true in Hcan. apply bool_decide_eq_false in Hms.
  destruct (throttleLimit (_throttlePolicy pool)) as [limit|]; simpl.
  - case_bool_decide; eexists; (split; [reflexivity|lia]).
  - eexists; (split; [reflexivity|lia]).
Qed.

Lemma until_kept_listeners (now : Z) (l : list Event) (pool : RequestPool) :
  until_kept pool (foldl (listener now) pool l).
Proof.
  revert pool. induction l as [|e l IH]; intros pool; simpl; [reflexivity|].
  etrans; [|apply IH].
  destruct e as [|? [|]|? [|]]; simpl; first [reflexivity | apply until_kept_throttle].
Qed.

Lemma until_kept_in_pool {A : Type} (now : Z) (m : M A) (pool : RequestPool) :
  until_kept pool (snd (in_pool now m pool)).
Proof.
  unfold in_pool. cbn [snd]. etrans; [|apply until_kept_listeners].
  by apply until_kept_same.
Qed.

Definition turn_pool (turn : Turn) : RequestPool :=
  match turn with
  | Exits pool | Awaits pool | Continues pool => pool
  end.

Lemma until_kept__main_turn (now : Z) (j : nat) (pool : RequestPool) :
  until_kept pool (turn_pool (_main_turn now j pool)).
Proof.
  unfold _main_turn. destruct (_workers pool !! j) as [w|]; [|reflexivity].
  destruct (negb (_running w)); [reflexivity|].
  case_bool_decide; [by apply until_kept_same|].
  cbv zeta. rewrite alter_worker_scheduler.
  destruct (next now (_scheduler pool)) as [[e|[i|]] s];
    [by apply until_kept_same| |by apply until_kept_same].
  match goal with |- context [in_pool now (run i) ?p] =>
    pose proof (until_kept_in_pool now (run i) p) as Hrun;
    destruct (in_pool now (run i) p) as [[e|r] p'] end;
    (etrans; [|exact Hrun]); by apply until_kept_same.
Qed.

Lemma until_kept__main_sync (now : Z) (j : nat) (pool : RequestPool) :
  until_kept pool (_main_sync now j pool).
Proof.
  funelim (_main_sync now j pool);
    match goal with Hturn : _main_turn _ _ _ = _ |- _ =>
      pose proof (until_kept__main_turn now j pool) as Hkept;
      rewrite Hturn in Hkept; simpl in Hkept end.
  - done.
  - done.
  - etrans; [exact Hkept|]. done.
Qed.

Lemma until_kept_Worker_tryStart (now : Z) (j : nat) (pool : RequestPool) :
  until_kept pool (snd (Worker_tryStart now j pool)).
Proof.
  unfold Worker_tryStart, Worker_start.
  destruct (_workers pool !! j) as [w|]; [|reflexivity].
  destruct (_running w && bool_decide (_stall w = None)); [reflexivity|].
  cbv zeta. destruct (negb (_running w)); cbn [snd].
  - etrans; [|apply until_kept__main_sync]. by apply until_kept_same.
  - by apply until_kept_same.
Qed.

Lemma until_kept_wake (now : Z) (pool : RequestPool) : until_kept pool (wake now pool).
Proof.
  unfold wake. destruct (list_find _ _) as [[j w]|].
  - apply until_kept_Worker_tryStart.
  - by apply until_kept_same.
Qed.

Lemma until_kept_add_workers (now : Z) (n : nat) (pool : RequestPool) :
  until_kept pool (add_workers now n pool).
Proof.
  revert pool. induction n as [|n IH]; intros pool; simpl; [reflexivity|].
  etrans; [|apply IH]. etrans; [|apply until_kept_Worker_tryStart].
  by apply until_kept_same.
Qed.

Lemma until_kept_perform (pool : RequestPool) (op : PoolOp) :
  until_kept pool (pool_perform pool op).
Proof.
  destruct op; simpl.
  - unfold request.
    match goal with |- context [match ?h with Some _ => _ | None => _ end] =>
      destruct h end; [reflexivity|].
    cbv zeta. cbn [snd]. apply until_kept_same. by destruct (cacheable instance).
  - unfold setWorkerLimit. case_decide; [by apply until_kept_same|].
    apply until_kept_add_workers.
  - apply until_kept_throttle.
  - unfold timer_fires. cbv zeta. etrans; [apply until_kept_wake|].
    apply until_kept_same. cbn [metadata_throttle with_throttle until]. reflexivity.
  - apply until_kept_wake.
  - apply until_kept_Worker_tryStart.
  - apply until_kept__main_sync.
  - apply until_kept_in_pool.
  - by apply until_kept_same.
  - apply until_kept_in_pool.
Qed.

Lemma until_kept_history (ops : list PoolOp) (pool : RequestPool) :
  until_kept pool (foldl pool_perform pool ops).
Proof.
  revert pool. induction ops as [|op ops IH]; intros pool; simpl; [reflexivity|].
  etrans; [apply until_kept_perform|apply IH].
Qed.

(** X13: once a pool has been throttled, the [until] it has recorded is never
    cleared and never moved to a later time, whatever happens to the pool
    afterwards: further signals, the timeout and the interval of the policy,
    workers starting, running tasks and ending, requests.  So a later signal
    whose [until] is not earlier than the recorded one is ignored for good,
    also when the recorded time has long passed: [throttle] leaves the pool as
    it is. *)
Theorem recorded_until_is_never_moved_later
    (pool : RequestPool) (active : Z) (ops : list PoolOp) (now throttle_until : Z) :
  until (metadata_throttle pool) = Some active ->
  let pool' := foldl pool_perform pool ops in
  (exists active', until (metadata_throttle pool') = Some active' ∧ active' ≤ active)
  ∧ (active ≤ throttle_until -> throttle now throttle_until pool' = pool').
Proof.
  intros Hactive pool'.
  destruct (until_kept_history ops pool active Hactive) as (active' & Hactive' & Hle).
  fold pool' in Hactive'. split; [by exists active'|].
  intros Hlater. unfold throttle, canThrottle. rewrite Hactive'.
  rewrite (bool_decide_eq_false_2 (active' > throttle_until)) by lia.
  by rewrite orb_true_r.
Qed.

Lemma recorded_until_is_never_moved_later_witness :
  let pool' := foldl pool_perform throttled_pool
                 [PoolWorkerEnds 0; PoolWorkerEnds 1; PoolTimerFires 10100;
                  PoolIntervalTicks 15100; PoolIntervalTicks 20100] in
  throttle 900000 960000 pool' = pool'.
Proof.
  intros pool'.
  destruct (recorded_until_is_never_moved_later throttled_pool 10100
              [PoolWorkerEnds 0; PoolWorkerEnds 1; PoolTimerFires 10100;
               PoolIntervalTicks 15100; PoolIntervalTicks 20100]
              900000 960000)
    as [_ Hignored].
  - reflexivity.
  - apply Hignored. lia.
Defined.

(** ** A failure that asks for throttling *)

Lemma listeners_events_of (now : Z) (i : nat) (em : Emission) (pool : RequestPool) :
  foldl (listener now) pool (events_of i em)
  = match em with
    | Quiet => pool
    | Retried e | GaveUp e => _tryThrottle now e pool
    end.
Proof. by destruct em. Qed.

Lemma finishError_task_emission (e : JsError) (t : ScheduledTask) :
  snd (finishError_task e t) = Retried e ∨ snd (finishError_task e t) = GaveUp e.
Proof. unfold finishError_task. case_decide; [by left|by right]. Qed.

Lemma run_callback_rejected (i : nat) (e : JsError) (t : ScheduledTask) (w : World) :
  tasks w !! i = Some t -> inflight t = Some (Rejected e) ->
  affected i (fst (finishError_task e (with_inflight None t)))
    (snd (finishError_task e (with_inflight None t))) w (exec (run_callback i) w).
Proof.
  intros Ht Hin. unfold exec, run_callback.
  rewrite bind_unfold, (deref_Some _ _ _ Ht), Hin, bind_unfold, (assign_Some _ _ _ _ Ht).
  eapply affected_after, finishError_task_spec. apply lookup_insert_eq.
Qed.

Lemma in_pool_run_callback_rejected
    (now : Z) (i : nat) (t : ScheduledTask) (e : JsError) (pool : RequestPool) :
  tasks (_scheduler pool) !! i = Some t ->
  inflight t = Some (Rejected e) ->
  snd (in_pool now (run_callback i) pool)
  = _tryThrottle now e (with_scheduler (exec (run_callback i) (_scheduler pool)) pool).
Proof.
  intros Ht Hin. unfold in_pool. cbn [snd].
  destruct (run_callback_rejected i e t (_scheduler pool) Ht Hin) as (_ & _ & He & _).
  unfold exec in He. rewrite He, drop_app_length, listeners_events_of.
  by destruct (finishError_task_emission e (with_inflight None t)) as [-> | ->].
Qed.

(** The [until] that [throttle] records: the one of the signal, cut down to
    the limit of the policy. *)
Definition limited_until (now throttle_until : Z) (policy : SuspendPolicy) : Z :=
  match throttleLimit policy with
  | Some limit =>
      if bool_decide (throttle_until - now > limit) then now + limit else throttle_until
  | None => throttle_until
  end.

Lemma throttle_applied (now throttle_until : Z) (pool : RequestPool) :
  throttle_until - now > 0 -> canThrottle throttle_until pool = true ->
  throttle now throttle_until pool
  = doThrottle now (limited_until now throttle_until (_throttlePolicy pool)) pool.
Proof.
  intros Hms Hcan. unfold throttle. rewrite Hcan.
  by rewrite bool_decide_eq_false_2 by lia.
Qed.


(** A request whose second call is refused with a [ThrottleError]. *)
Definition limited_request : Request :=
  {| key := "limited"; cacheable := false; retries := 1;
     request_run := fun n => if (n =? 0)%nat then Rejected (ThrottleError 5000)
                             else Fulfilled "ok" |}.


(** ** The number of workers *)

Lemma add_workers_spec (now : Z) (n : nat) (pool : RequestPool) :
  no_synchronous_throw (_scheduler pool) ->
  let pool' := add_workers now n pool in
  length (_workers pool') = (length (_workers pool) + n)%nat
  ∧ take (length (_workers pool)) (_workers pool') = _workers pool
  ∧ (forall j, (length (_workers pool) <= j < length (_workers pool) + n)%nat ->
       exists st,
         (st = WorkerState.IDLE ∨ st = WorkerState.RUNNING)
         ∧ _workers pool' !! j = Some {| _running := true; _stall := None; _state := st |})
  ∧ metadata_throttle pool' = metadata_throttle pool
  ∧ _cache pool' = _cache pool
  ∧ no_synchronous_throw (_scheduler pool').
Proof.
  revert pool. induction n as [|n IH]; intros pool Hquiet; cbv zeta.
  - simpl. rewrite Nat.add_0_r, firstn_all. split_and!; try done. intros j Hj. lia.
  - cbn [add_workers].
    destruct (Worker_tryStart_stopped now (length (_workers pool)) new_Worker
                (with_workers (_workers pool ++ [new_Worker]) pool))
      as (st & Hst & _ & Hworkers & Hmeta & _ & Hcache & Hquiet'); [|done|done|].
    { cbn [_workers with_workers]. by rewrite lookup_app_r, Nat.sub_diag. }
    cbn [_workers with_workers] in Hworkers.
    assert (Hstarted : _workers (snd (Worker_tryStart now (length (_workers pool))
                          (with_workers (_workers pool ++ [new_Worker]) pool)))
              = _workers pool ++ [{| _running := true; _stall := None; _state := st |}]).
    { rewrite Hworkers. rewrite insert_app_r_alt by lia. by rewrite Nat.sub_diag. }
    destruct (IH _ Hquiet') as (Hlen & Htake & Hnew & Hmeta' & Hcache' & Hquiet'').
    rewrite Hstarted in Hlen, Htake, Hnew. rewrite length_app in Hlen, Htake, Hnew.
    simpl in Hlen, Htake, Hnew.
    split_and!.
    + lia.
    + apply (f_equal (take (length (_workers pool)))) in Htake.
      rewrite take_take, Nat.min_l in Htake by lia. rewrite Htake.
      by rewrite take_app_length.
    + intros j Hj. destruct (decide (j = length (_workers pool))) as [->|Hne].
      * exists st. split; [done|].
        apply (f_equal (fun l => l !! length (_workers pool))) in Htake.
        rewrite lookup_take_lt in Htake by lia. rewrite Htake.
        by rewrite lookup_app_r, Nat.sub_diag by lia.
      * apply Hnew. lia.
    + by rewrite Hmeta'.
    + by rewrite Hcache'.
    + done.
Qed.

(** X15: in a pool whose tasks do not throw synchronously, [setWorkerLimit]
    leaves the pool with exactly [limit] workers.  With fewer before, the
    workers it had are left as they were and each new one has been started:
    it is running, not stalled, and IDLE or RUNNING a task.  With more
    before, the first [limit] are kept.  The throttle state and the cache are
    not touched. *)
Theorem setWorkerLimit_sets_the_number_of_workers
    (now : Z) (limit : nat) (pool : RequestPool) :
  no_synchronous_throw (_scheduler pool) ->
  let pool' := setWorkerLimit now limit pool in
  length (_workers pool') = limit
  ∧ take (length (_workers pool)) (_workers pool') = take limit (_workers pool)
  ∧ (forall j, (length (_workers pool) <= j < limit)%nat ->
       exists st,
         (st = WorkerState.IDLE ∨ st = WorkerState.RUNNING)
         ∧ _workers pool' !! j = Some {| _running := true; _stall := None; _state := st |})
  ∧ metadata_throttle pool' = metadata_throttle pool
  ∧ _cache pool' = _cache pool.
Proof.
  intros Hquiet pool'. unfold pool', setWorkerLimit. case_decide as Hlt.
  - cbn [_workers with_workers metadata_throttle _cache]. split_and!; try done.
    + rewrite length_take. lia.
    + rewrite take_take. f_equal. lia.
    + intros j Hj. lia.
  - destruct (add_workers_spec now (limit - length (_workers pool)) pool Hquiet)
      as (Hlen & Htake & Hnew & Hmeta & Hcache & _).
    split_and!; try done.
    + lia.
    + rewrite Htake, firstn_all2; [done|lia].
    + intros j Hj. apply Hnew. lia.
Qed.

Lemma setWorkerLimit_sets_the_number_of_workers_witness :
  length (_workers (setWorkerLimit 7 4
                      (snd (request 5 request_a (new_RequestPool 0 (Some 2%nat) None)))))
  = 4%nat.
Proof.
  destruct (setWorkerLimit_sets_the_number_of_workers 7 4
              (snd (request 5 request_a (new_RequestPool 0 (Some 2%nat) None))))
    as (Hlen & _).
  - apply request_no_synchronous_throw. intros i t d n e Ht. discriminate Ht.
  - exact Hlen.
Defined.

(** ** The cache after a cancellation *)

Lemma Scheduler_cancel_reentry (i : nat) (t : ScheduledTask) (w : World) :
  tasks w !! i = Some t -> state t = CANCELLED -> Scheduler_cancel i w = (inr tt, w).
Proof. intros Ht Hs. unfold Scheduler_cancel. by erewrite cancel_reentry. Qed.

(** Cancelling the task that [schedule] has just made. *)
Lemma Scheduler_cancel_scheduled (now : Z) (task : Task) (options : ScheduleOptions)
    (w : World) :
  exists t,
    tasks (exec (Scheduler_cancel (_ID_COUNTER w)) (exec (schedule now task options) w))
      !! _ID_COUNTER w = Some t
    ∧ state t = CANCELLED.
Proof.
  unfold exec at 1, Scheduler_cancel, Scheduler_cancel_with.
  rewrite bind_unfold. erewrite deref_Some by apply lookup_insert_eq.
  rewrite decide_True by done.
  erewrite ScheduledTask_cancel_queued by first [apply lookup_insert_eq | done].
  eexists. cbn [snd tasks with_called with_tasks]. rewrite lookup_insert_eq. done.
Qed.




(** ** Stalling a worker *)

(** X17: a running worker that has been stalled takes no task: when its loop
    comes round it shows STALLED and waits, leaving the scheduler alone.
    [start] on it clears the stall without starting a second loop, and
    [tryStart] returns true; a further [start] throws "Attempted to start a
    ... worker." and [tryStart] returns false, both leaving the pool as it
    is.  A stall of no milliseconds or less does nothing. *)
Theorem stalled_worker_takes_no_task
    (now later ms : Z) (j : nat) (w : Worker) (pool : RequestPool) :
  _workers pool !! j = Some w ->
  _running w = true ->
  0 < ms ->
  let stalled := alter_worker (Worker_stall now ms) j pool in
  let restarted :=
    alter_worker (fun w => {| _running := _running w; _stall := None; _state := _state w |})
      j stalled in
  _workers stalled
  = <[j := {| _running := true; _stall := Some (now + ms); _state := _state w |}]>
      (_workers pool)
  ∧ _main_sync later j stalled
    = alter_worker (with_worker_state WorkerState.STALLED) j stalled
  ∧ _scheduler (_main_sync later j stalled) = _scheduler pool
  ∧ Worker_start later j stalled = (inr tt, restarted)
  ∧ Worker_tryStart later j stalled = (true, restarted)
  ∧ _workers restarted
    = <[j := {| _running := true; _stall := None; _state := _state w |}]> (_workers pool)
  ∧ Worker_start later j restarted
    = (inl (JsErr ("Attempted to start a " +:+ WorkerState.toLowerCase (_state w)
                   +:+ " worker.")), restarted)
  ∧ Worker_tryStart later j restarted = (false, restarted)
  ∧ (forall ms', ms' ≤ 0 -> alter_worker (Worker_stall now ms') j pool = pool).
Proof.
  intros Hw Hrun Hms stalled restarted.
  assert (Hj : (j < length (_workers pool))%nat) by (by eapply lookup_lt_Some).
  assert (Hstalled : _workers stalled
            = <[j := {| _running := true; _stall := Some (now + ms); _state := _state w |}]>
                (_workers pool)).
  { unfold stalled, alter_worker. cbn [_workers with_workers].
    rewrite (list_alter_insert _ _ _ _ Hw). unfold Worker_stall.
    rewrite decide_False by lia. by rewrite Hrun. }
  assert (Hlookup : _workers stalled !! j
            = Some {| _running := true; _stall := Some (now + ms); _state := _state w |}).
  { rewrite Hstalled. by apply list_lookup_insert_eq. }
  assert (Hrestarted : _workers restarted
            = <[j := {| _running := true; _stall := None; _state := _state w |}]>
                (_workers pool)).
  { unfold restarted, alter_worker at 1. cbn [_workers with_workers].
    rewrite (list_alter_insert _ _ _ _ Hlookup), Hstalled.
    by rewrite list_insert_insert_eq. }
  assert (Hlookup' : _workers restarted !! j
            = Some {| _running := true; _stall := None; _state := _state w |}).
  { rewrite Hrestarted. by apply list_lookup_insert_eq. }
  split_and!.
  - done.
  - apply _main_sync_Awaits. unfold _main_turn. rewrite Hlookup.
    cbn [negb _running _stall]. by rewrite bool_decide_eq_true_2.
  - rewrite (_main_sync_Awaits later j stalled
               (alter_worker (with_worker_state WorkerState.STALLED) j stalled)); [done|].
    unfold _main_turn. rewrite Hlookup.
    cbn [negb _running _stall]. by rewrite bool_decide_eq_true_2.
  - unfold Worker_start. by rewrite Hlookup.
  - unfold Worker_tryStart, Worker_start. by rewrite Hlookup.
  - done.
  - unfold Worker_start. by rewrite Hlookup'.
  - unfold Worker_tryStart. by rewrite Hlookup'.
  - intros ms' Hms'. unfold alter_worker, Worker_stall.
    rewrite (list_alter_insert _ _ _ _ Hw), decide_True, list_insert_id by done.
    by destruct pool.
Qed.

Lemma stalled_worker_takes_no_task_witness :
  let pool := snd (request 5 request_a (new_RequestPool 0 (Some 1%nat) None)) in
  _scheduler (_main_sync 7 0%nat (alter_worker (Worker_stall 6 1000) 0 pool))
  = _scheduler pool.
Proof.
  intros pool.
  destruct (stalled_worker_takes_no_task 6 7 1000 0%nat
              {| _running := true; _stall := None; _state := WorkerState.IDLE |} pool)
    as (_ & _ & Hscheduler & _).
  - reflexivity.
  - reflexivity.
  - lia.
  - exact Hscheduler.
Defined.

(** ** Starting a worker twice *)

(** X18: [start] on a worker that is not running starts its loop, which takes
    the next task if there is one: the worker is running and shows IDLE or
    RUNNING.  A second [start] then throws "Attempted to start a idle
    worker." or "Attempted to start a running worker." and leaves everything
    as it is, and [tryStart] returns false.  This is for a scheduler whose
    tasks do not throw synchronously. *)
Theorem starting_a_started_worker_throws
    (now later : Z) (j : nat) (w : Worker) (pool : RequestPool) :
  _workers pool !! j = Some w ->
  _running w = false ->
  no_synchronous_throw (_scheduler pool) ->
  let started := snd (Worker_start now j pool) in
  fst (Worker_start now j pool) = inr tt
  ∧ Worker_tryStart now j pool = (true, started)
  ∧ exists st,
      (st = WorkerState.IDLE ∨ st = WorkerState.RUNNING)
      ∧ _workers started
        = <[j := {| _running := true; _stall := None; _state := st |}]> (_workers pool)
      ∧ Worker_start later j started
        = (inl (JsErr ("Attempted to start a " +:+ WorkerState.toLowerCase st
                       +:+ " worker.")), started)
      ∧ Worker_tryStart later j started = (false, started).
Proof.
  intros Hw Hrun Hquiet started.
  assert (Htry : Worker_tryStart now j pool = (true, started)).
  { unfold started, Worker_tryStart. by rewrite Hw, Hrun. }
  destruct (Worker_tryStart_stopped now j w pool Hw Hrun Hquiet)
    as (st & Hst & _ & Hworkers & _).
  rewrite Htry in Hworkers. cbn [snd] in Hworkers.
  assert (Hlookup : _workers started !! j
            = Some {| _running := true; _stall := None; _state := st |}).
  { rewrite Hworkers. apply list_lookup_insert_eq. by eapply lookup_lt_Some. }
  split_and!.
  - unfold Worker_start. by rewrite Hw, Hrun.
  - done.
  - exists st. split_and!; try done.
    + unfold Worker_start. by rewrite Hlookup.
    + unfold Worker_tryStart. by rewrite Hlookup.
Qed.

Lemma starting_a_started_worker_throws_witness :
  let pool := with_workers [new_Worker] (new_RequestPool 0 (Some 0%nat) None) in
  fst (Worker_start 2 0%nat (snd (Worker_start 1 0%nat pool)))
  = inl (JsErr "Attempted to start a idle worker.").
Proof.
  intros pool.
  destruct (starting_a_started_worker_throws 1 2 0%nat new_Worker pool)
    as (_ & _ & st & Hst & Hworkers & Hthrows & _).
  - reflexivity.
  - reflexivity.
  - intros i t d n e Ht. discriminate Ht.
  - assert (st = WorkerState.IDLE) as ->
      by (vm_compute in Hworkers; congruence).
    exact (f_equal fst Hthrows).
Defined.

(** ** Who is woken up *)

(** The timeout and the interval of the policy. *)
Definition policy_timer (op : PoolOp) : bool :=
  match op with
  | PoolTimerFires _ | PoolIntervalTicks _ => true
  | _ => false
  end.

(** The call of [wake] in a timeout or a tick. *)
Definition wake_of (op : PoolOp) (pool : RequestPool) : RequestPool :=
  match op with
  | PoolTimerFires now | PoolIntervalTicks now => wake now pool
  | _ => pool
  end.

Lemma wake_passes_over (now : Z) (j : nat) (w : Worker) (pool : RequestPool) :
  Forall worker_settled (_workers pool) ->
  no_synchronous_throw (_scheduler pool) ->
  _workers pool !! j = Some w -> _state w ≠ WorkerState.STOPPED ->
  _workers (wake now pool) !! j = Some w.
Proof.
  intros Hsettled Hquiet Hw Hs.
  destruct (wake_spec now pool Hsettled Hquiet) as [Hwake _].
  destruct (list_find _ _) as [[j' w']|] eqn:Hfind.
  - destruct Hwake as (st & _ & -> & _).
    apply list_find_Some in Hfind as (Hw' & Hstopped & _).
    rewrite list_lookup_insert_ne; [done|]. intros ->. congruence.
  - destruct Hwake as [-> _]. done.
Qed.

Lemma policy_timers_pass_over (ops : list PoolOp) (j : nat) (w : Worker)
    (pool : RequestPool) :
  forallb policy_timer ops = true ->
  Forall worker_settled (_workers pool) ->
  no_synchronous_throw (_scheduler pool) ->
  _workers pool !! j = Some w -> _state w ≠ WorkerState.STOPPED ->
  _workers (foldl pool_perform pool ops) !! j = Some w.
Proof.
  revert pool. induction ops as [|op ops IH]; intros pool Hops Hsettled Hquiet Hw Hs;
    [done|].
  simpl in Hops. apply andb_prop in Hops as [Hop Hops]. simpl.
  assert (Forall worker_settled (_workers (wake_of op pool))
          ∧ no_synchronous_throw (_scheduler (wake_of op pool))
          ∧ _workers (wake_of op pool) !! j = Some w
          ∧ _workers (pool_perform pool op) = _workers (wake_of op pool)
          ∧ _scheduler (pool_perform pool op) = _scheduler (wake_of op pool))
    as (Hsettled' & Hquiet' & Hw' & Hworkers & Hscheduler).
  { destruct op; try done; simpl;
      (split_and!;
       [by apply wake_settled|by apply wake_no_synchronous_throw
       |by apply wake_passes_over|done|done]). }
  apply IH; try done.
  - by rewrite Hworkers.
  - by rewrite Hscheduler.
  - by rewrite Hworkers.
Qed.



(** * HTTP requests (atdis-request-http-simple) *)

(** In this part headers.ts and request.ts are the files of the package
    atdis-request-http-simple. *)


(** ** Strings *)

(** [toUpperCase] and [toLowerCase] of a string of ASCII characters: the
    letters a-z and A-Z are mapped, every other character is kept.  For
    characters outside ASCII the methods of the source follow the Unicode
    case mappings, which are not described here; the properties below are
    about ASCII strings. *)
Definition is_upper (c : Ascii.ascii) : bool :=
  (65 <=? Ascii.nat_of_ascii c)%nat && (Ascii.nat_of_ascii c <=? 90)%nat.

Definition is_lower (c : Ascii.ascii) : bool :=
  (97 <=? Ascii.nat_of_ascii c)%nat && (Ascii.nat_of_ascii c <=? 122)%nat.

Definition char_toUpperCase (c : Ascii.ascii) : Ascii.ascii :=
  if is_lower c then Ascii.ascii_of_nat (Ascii.nat_of_ascii c - 32) else c.

Definition char_toLowerCase (c : Ascii.ascii) : Ascii.ascii :=
  if is_upper c then Ascii.ascii_of_nat (Ascii.nat_of_ascii c + 32) else c.

Fixpoint String_toUpperCase (s : string) : string :=
  match s with
  | EmptyString => EmptyString
  | String c s' => String (char_toUpperCase c) (String_toUpperCase s')
  end.

Fixpoint String_toLowerCase (s : string) : string :=
  match s with
  | EmptyString => EmptyString
  | String c s' => String (char_toLowerCase c) (String_toLowerCase s')
  end.

Fixpoint is_ascii (s : string) : bool :=
  match s with
  | EmptyString => true
  | String c s' => (Ascii.nat_of_ascii c <? 128)%nat && is_ascii s'
  end.

(** The character '-'. *)
Definition dash : Ascii.ascii := Ascii.ascii_of_nat 45.

(** [header.split('-')] *)
Fixpoint split_dash (s : string) : list string :=
  match s with
  | EmptyString => [EmptyString]
  | String c s' =>
      if Ascii.eqb c dash then EmptyString :: split_dash s'
      else match split_dash s' with
           | part :: parts => String c part :: parts
           | [] => [String c EmptyString]
           end
  end.

(** ** HttpHeaders *)

(** [part.substring(0, 1).toUpperCase() + part.substring(1).toLowerCase()] *)
Definition capitalize (part : string) : string :=
  String_toUpperCase (String.substring 0 1 part)
  +:+ String_toLowerCase (String.substring 1 (String.length part) part).

(** [HttpHeaders._canonicalize] (headers.ts 19-23). *)
Definition _canonicalize (header : string) : string :=
  String.concat "-" (map capitalize (split_dash header)).

(** An [HttpHeaders] is a map from names to values, [gmap string string]
    here; its order of insertion only shows in [toObject] and is not kept. *)

(** [set], [get], [has] and [delete] (headers.ts 43-57). *)
Definition HttpHeaders_set (key value : string) (headers : gmap string string)
    : gmap string string :=
  <[_canonicalize key := value]> headers.

Definition HttpHeaders_get (key : string) (headers : gmap string string) : option string :=
  headers !! _canonicalize key.

Definition HttpHeaders_has (key : string) (headers : gmap string string) : bool :=
  bool_decide (is_Some (headers !! _canonicalize key)).

Definition HttpHeaders_delete (key : string) (headers : gmap string string)
    : bool * gmap string string :=
  (bool_decide (is_Some (headers !! _canonicalize key)),
   delete (_canonicalize key) headers).

(** The constructor (headers.ts 10-12): the constructor of [Map] adds the
    entries of [Object.entries(headers)] one by one with the [set] of the
    object under construction, which is the one above. *)
Definition new_HttpHeaders (headers : option (list (string * string)))
    : gmap string string :=
  foldl (fun m entry => HttpHeaders_set (fst entry) (snd entry) m) ∅ (default [] headers).

(** What is done to a header map. *)
Inductive HeaderOp : Type :=
  | HSet (key value : string)
  | HDelete (key : string).

Definition header_perform (headers : gmap string string) (op : HeaderOp) : gmap string string :=
  match op with
  | HSet key value => HttpHeaders_set key value headers
  | HDelete key => snd (HttpHeaders_delete key headers)
  end.

(** ** HttpRequest *)

(** [HttpRequest._isLimited] (request.ts 96-109) on the status. *)
Definition _isLimited (status : Z) : bool :=
  if (status =? 404)%Z then false
  else if (status =? 429)%Z then true
  else (Z.rem status 100 =? 4)%Z || (Z.rem status 100 =? 5)%Z.

Definition DEFAULT_DELAY : Z := 5000.

(** A response as [run] looks at it: the status, what [_findDelay] finds in
    the headers (a time, if any), and the response as a value. *)
Record Response : Type := {
  status : Z;
  found_delay : option Z;
  response_value : Value
}.

(** [HttpRequest.run] (request.ts 70-89) for the response that [_fetch] has
    brought; a response that is thrown is the error with its value. *)
Definition HttpRequest_run (now : Z) (response : Response) : Outcome :=
  if (status response =? 200)%Z then Fulfilled (response_value response)
  else
    let delay :=
      match found_delay response with
      | Some date => Some date
      | None => if _isLimited (status response) then Some (now + DEFAULT_DELAY)%Z else None
      end in
    match delay with
    | Some date => Rejected (ThrottleError date)
    | None => Rejected (JsErr (response_value response))
    end.

(** ** Properties of header names *)

(** [_canonicalize] in one pass: a letter at the start and after each dash
    in upper case, every other letter in lower case. *)
Fixpoint canon (start : bool) (s : string) : string :=
  match s with
  | EmptyString => EmptyString
  | String c s' =>
      if Ascii.eqb c dash then String dash (canon true s')
      else String (if start then char_toUpperCase c else char_toLowerCase c)
             (canon false s')
  end.

Lemma concat_String (sep : string) (c : Ascii.ascii) (x : string) (l : list string) :
  String.concat sep (String c x :: l) = String c (String.concat sep (x :: l)).
Proof. by destruct l. Qed.

Lemma concat_dash (x : string) (l : list string) :
  String.concat "-" (EmptyString :: x :: l) = String dash (String.concat "-" (x :: l)).
Proof. done. Qed.

Lemma split_dash_cons (s : string) : exists part parts, split_dash s = part :: parts.
Proof.
  induction s as [|c s (p & ps & IH)]; simpl; [by eauto|].
  destruct (Ascii.eqb c dash); [by eauto|]. rewrite IH. by eauto.
Qed.

Lemma substring_all (s : string) (n : nat) :
  (String.length s <= n)%nat -> String.substring 0 n s = s.
Proof.
  revert n. induction s as [|c s IH]; intros [|n] Hn; simpl in *; try done; try lia.
  f_equal. apply IH. lia.
Qed.

Lemma capitalize_String (c : Ascii.ascii) (s : string) :
  capitalize (String c s) = String (char_toUpperCase c) (String_toLowerCase s).
Proof.
  unfold capitalize. cbn [String.length String.substring].
  rewrite (substring_all s (S (String.length s))) by lia. by destruct s.
Qed.

Lemma _canonicalize_canon_aux (s : string) :
  match split_dash s with
  | part :: parts =>
      String.concat "-" (capitalize part :: map capitalize parts) = canon true s
      ∧ String.concat "-" (String_toLowerCase part :: map capitalize parts)
        = canon false s
  | [] => False
  end.
Proof.
  induction s as [|c s IH]; [done|]. cbn [split_dash canon].
  destruct (split_dash_cons s) as (p & ps & Hs). rewrite Hs in IH |- *.
  destruct IH as [IH1 IH2].
  destruct (Ascii.eqb c dash) eqn:Hc.
  - change (capitalize EmptyString) with EmptyString.
    change (String_toLowerCase EmptyString) with EmptyString.
    cbn [map]. rewrite !concat_dash. by rewrite IH1.
  - rewrite capitalize_String. cbn [String_toLowerCase].
    rewrite !concat_String. by rewrite IH2.
Qed.

Lemma _canonicalize_canon (header : string) : _canonicalize header = canon true header.
Proof.
  unfold _canonicalize. pose proof (_canonicalize_canon_aux header) as H.
  destruct (split_dash header) as [|p ps]; [done|]. apply H.
Qed.

Lemma char_facts (c : Ascii.ascii) :
  char_toUpperCase (char_toUpperCase c) = char_toUpperCase c
  ∧ char_toLowerCase (char_toLowerCase c) = char_toLowerCase c
  ∧ char_toUpperCase (char_toLowerCase c) = char_toUpperCase c
  ∧ char_toLowerCase (char_toUpperCase c) = char_toLowerCase c
  ∧ Ascii.eqb (char_toUpperCase c) dash = Ascii.eqb c dash
  ∧ Ascii.eqb (char_toLowerCase c) dash = Ascii.eqb c dash
  ∧ (Ascii.nat_of_ascii (char_toUpperCase c) <? 128)%nat = (Ascii.nat_of_ascii c <? 128)%nat
  ∧ (Ascii.nat_of_ascii (char_toLowerCase c) <? 128)%nat = (Ascii.nat_of_ascii c <? 128)%nat.
Proof.
  destruct c as [[|] [|] [|] [|] [|] [|] [|] [|]]; vm_compute; done.
Qed.

Lemma canon_idempotent (start : bool) (s : string) :
  canon start (canon start s) = canon start s.
Proof.
  revert start. induction s as [|c s IH]; intros start; [done|]. cbn [canon].
  destruct (char_facts c) as (Huu & Hll & _ & _ & Hu & Hl & _).
  destruct (Ascii.eqb c dash) eqn:Hc; cbn [canon].
  - change (Ascii.eqb dash dash) with true. cbn iota. by rewrite IH.
  - destruct start; cbn [canon].
    + by rewrite Hu, Huu, IH.
    + by rewrite Hl, Hll, IH.
Qed.

Lemma canon_toLowerCase (start : bool) (s : string) :
  canon start (String_toLowerCase s) = canon start s
  ∧ String_toLowerCase (canon start s) = String_toLowerCase s.
Proof.
  revert start. induction s as [|c s IH]; intros start; [done|].
  cbn [canon String_toLowerCase].
  destruct (char_facts c) as (_ & Hll & Hul & Hlu & _ & Hl & _).
  rewrite Hl. destruct (Ascii.eqb c dash) eqn:Hc.
  - apply Ascii.eqb_eq in Hc as ->. destruct (IH true) as [-> H2].
    cbn [String_toLowerCase]. by rewrite H2.
  - destruct (IH false) as [-> H2].
    destruct start; cbn [String_toLowerCase]; by rewrite ?Hul, ?Hll, ?Hlu, H2.
Qed.

Lemma canon_length (start : bool) (s : string) :
  String.length (canon start s) = String.length s.
Proof.
  revert start. induction s as [|c s IH]; intros start; [done|]. cbn [canon].
  destruct (Ascii.eqb c dash); cbn [String.length]; by rewrite IH.
Qed.

(** Two header names that differ in case only. *)
Definition same_header (a b : string) : Prop :=
  String_toLowerCase a = String_toLowerCase b.

Lemma _canonicalize_same (a b : string) :
  _canonicalize a = _canonicalize b <-> same_header a b.
Proof.
  rewrite !_canonicalize_canon. unfold same_header. split; intros H.
  - rewrite <- (proj2 (canon_toLowerCase true a)), <- (proj2 (canon_toLowerCase true b)).
    by rewrite H.
  - rewrite <- (proj1 (canon_toLowerCase true a)), <- (proj1 (canon_toLowerCase true b)).
    by rewrite H.
Qed.

Lemma canon_is_ascii (start : bool) (s : string) :
  is_ascii (canon start s) = is_ascii s.
Proof.
  revert start. induction s as [|c s IH]; intros start; [done|]. cbn [canon is_ascii].
  destruct (char_facts c) as (_ & _ & _ & _ & _ & _ & Hu & Hl).
  destruct (Ascii.eqb c dash) eqn:Hc.
  - apply Ascii.eqb_eq in Hc as ->. cbn [is_ascii]. by rewrite IH.
  - destruct start; cbn [is_ascii]; by rewrite ?Hu, ?Hl, IH.
Qed.

(** X20: on a header name of ASCII characters [_canonicalize] changes the
    case of letters only: the result has the same length and is the same
    name up to case.  It is a normal form: canonicalizing twice is
    canonicalizing once, and two names have the same canonical form exactly
    if they differ in case only. *)
Theorem _canonicalize_is_a_normal_form (header other : string) :
  is_ascii header = true ->
  is_ascii other = true ->
  _canonicalize (_canonicalize header) = _canonicalize header
  ∧ String.length (_canonicalize header) = String.length header
  ∧ same_header (_canonicalize header) header
  ∧ is_ascii (_canonicalize header) = true
  ∧ (_canonicalize header = _canonicalize other <-> same_header header other).
Proof.
  intros Hascii Hother. rewrite !_canonicalize_canon. split_and!.
  - apply canon_idempotent.
  - apply canon_length.
  - apply canon_toLowerCase.
  - by rewrite canon_is_ascii.
  - rewrite <- !_canonicalize_canon. apply _canonicalize_same.
Qed.

Lemma _canonicalize_is_a_normal_form_witness :
  _canonicalize "content-TYPE" = "Content-Type"
  ∧ _canonicalize "content-TYPE" = _canonicalize "CONTENT-type".
Proof.
  destruct (_canonicalize_is_a_normal_form "content-TYPE" "CONTENT-type")
    as (_ & _ & _ & _ & Hsame).
  - reflexivity.
  - reflexivity.
  - split; [reflexivity|]. apply Hsame. reflexivity.
Defined.

(** ** Properties of header maps *)

(** X21: header names are looked up without regard to case.  After
    [set(key, value)], [get] and [has] with any spelling of the name find the
    value, and with a name that differs in more than case they find what they
    found before; after [delete(key)], [get] and [has] with any spelling of
    the name find nothing, and [delete] returns whether there was such a
    header.  This is for names of ASCII characters. *)
Theorem header_lookup_ignores_case (key other value : string) (headers : gmap string string) :
  is_ascii key = true ->
  is_ascii other = true ->
  (same_header key other ->
     HttpHeaders_get other (HttpHeaders_set key value headers) = Some value
     ∧ HttpHeaders_has other (HttpHeaders_set key value headers) = true
     ∧ HttpHeaders_get other (snd (HttpHeaders_delete key headers)) = None
     ∧ HttpHeaders_has other (snd (HttpHeaders_delete key headers)) = false
     ∧ fst (HttpHeaders_delete key headers) = HttpHeaders_has other headers)
  ∧ (¬ same_header key other ->
       HttpHeaders_get other (HttpHeaders_set key value headers)
       = HttpHeaders_get other headers
       ∧ HttpHeaders_has other (HttpHeaders_set key value headers)
         = HttpHeaders_has other headers
       ∧ HttpHeaders_get other (snd (HttpHeaders_delete key headers))
         = HttpHeaders_get other headers
       ∧ HttpHeaders_has other (snd (HttpHeaders_delete key headers))
         = HttpHeaders_has other headers).
Proof.
  intros _ _.
  unfold HttpHeaders_get, HttpHeaders_has, HttpHeaders_set, HttpHeaders_delete.
  cbn [fst snd]. split.
  - intros Hsame. apply (proj2 (_canonicalize_same _ _)) in Hsame. rewrite Hsame.
    rewrite lookup_insert_eq, lookup_delete_eq. split_and!; done.
  - intros Hdiff. assert (_canonicalize key ≠ _canonicalize other) as Hne.
    { intros H. by apply (proj1 (_canonicalize_same _ _)) in H. }
    by rewrite lookup_insert_ne, lookup_delete_ne.
Qed.

Lemma header_lookup_ignores_case_witness :
  HttpHeaders_get "CONTENT-TYPE" (HttpHeaders_set "content-type" "text/plain" ∅)
  = Some "text/plain"
  ∧ HttpHeaders_get "content-length" (HttpHeaders_set "content-type" "text/plain" ∅)
    = None.
Proof.
  destruct (header_lookup_ignores_case "content-type" "CONTENT-TYPE" "text/plain" ∅)
    as [Hsame _]; [reflexivity|reflexivity|].
  destruct (header_lookup_ignores_case "content-type" "content-length" "text/plain" ∅)
    as [_ Hdiff]; [reflexivity|reflexivity|].
  split.
  - apply Hsame. reflexivity.
  - destruct Hdiff as [Hget _]; [discriminate|]. exact Hget.
Defined.

Definition ascii_entry (entry : string * string) : bool := is_ascii (fst entry).

Definition ascii_op (op : HeaderOp) : bool :=
  match op with
  | HSet key _ => is_ascii key
  | HDelete key => is_ascii key
  end.

Lemma canonical_keys_set (key value : string) (headers : gmap string string) :
  (forall k v, headers !! k = Some v -> _canonicalize k = k) ->
  forall k v, HttpHeaders_set key value headers !! k = Some v -> _canonicalize k = k.
Proof.
  intros H k v. unfold HttpHeaders_set.
  intros [[<- _]|[_ Hk]]%lookup_insert_Some; [|by eapply H].
  rewrite !_canonicalize_canon. apply canon_idempotent.
Qed.

Lemma canonical_keys_new (entries : option (list (string * string))) :
  forall k v, new_HttpHeaders entries !! k = Some v -> _canonicalize k = k.
Proof.
  unfold new_HttpHeaders. generalize (default [] entries). intros l.
  induction l as [|entry l IH] using rev_ind; [by intros k v ?|].
  rewrite foldl_app. simpl. by apply canonical_keys_set.
Qed.

Lemma canonical_keys_history (ops : list HeaderOp) (headers : gmap string string) :
  (forall k v, headers !! k = Some v -> _canonicalize k = k) ->
  forall k v, foldl header_perform headers ops !! k = Some v -> _canonicalize k = k.
Proof.
  intros Hm. induction ops as [|op ops IH] using rev_ind; [exact Hm|].
  rewrite foldl_app. simpl. destruct op as [key value|key]; simpl.
  - by apply canonical_keys_set.
  - intros k v [_ Hk]%lookup_delete_Some. by eapply IH.
Qed.

(** X22: in a header map made by the constructor from any entries and
    changed by [set] and [delete] in any way, every name is stored in its
    canonical form, and [get] with any spelling of a stored name finds its
    value.  This is for names of ASCII characters. *)
Theorem stored_header_names_are_canonical
    (entries : option (list (string * string))) (ops : list HeaderOp)
    (name value : string) :
  forallb ascii_entry (default [] entries) = true ->
  forallb ascii_op ops = true ->
  let headers := foldl header_perform (new_HttpHeaders entries) ops in
  headers !! name = Some value ->
  _canonicalize name = name
  ∧ forall spelling, same_header spelling name ->
      HttpHeaders_get spelling headers = Some value.
Proof.
  intros _ _ headers Hname.
  assert (Hcanonical : forall k v, headers !! k = Some v -> _canonicalize k = k)
    by apply canonical_keys_history, canonical_keys_new.
  split; [by eapply Hcanonical|].
  intros spelling Hsame. apply (proj2 (_canonicalize_same _ _)) in Hsame.
  unfold HttpHeaders_get.
  by rewrite Hsame, (Hcanonical _ _ Hname).
Qed.

Lemma stored_header_names_are_canonical_witness :
  HttpHeaders_get "ACCEPT"
    (foldl header_perform
       (new_HttpHeaders (Some [("accept", "text/html"); ("x-api-key", "k")]))
       [HSet "ACCEPT" "*/*"; HDelete "X-Api-KEY"])
  = Some "*/*".
Proof.
  destruct (stored_header_names_are_canonical
              (Some [("accept", "text/html"); ("x-api-key", "k")])
              [HSet "ACCEPT" "*/*"; HDelete "X-Api-KEY"] "Accept" "*/*")
    as [_ Hget].
  - reflexivity.
  - reflexivity.
  - reflexivity.
  - apply Hget. reflexivity.
Defined.

(** ** Which responses throttle *)

Definition limited_statuses : list Z :=
  [104; 105; 204; 205; 304; 305; 405; 429; 504; 505]%Z.

Lemma _isLimited_table (code : Z) :
  (100 ≤ code ≤ 599)%Z ->
  _isLimited code = true <-> code ∈ limited_statuses.
Proof.
  intros Hrange.
  assert (Htable : forallb (fun c => Bool.eqb (_isLimited c)
                                        (bool_decide (c ∈ limited_statuses)))
                     (seqZ 100 500) = true) by (vm_compute; reflexivity).
  rewrite forallb_forall in Htable.
  specialize (Htable code). rewrite <- list_elem_of_In, elem_of_seqZ in Htable.
  specialize (Htable ltac:(lia)). apply Bool.eqb_prop in Htable. rewrite Htable.
  apply bool_decide_eq_true.
Qed.

Lemma throttling_responses_helper (now : Z) (response : Response) :
  (100 ≤ status response ≤ 599)%Z ->
  status response ≠ 200%Z ->
  found_delay response = None ->
  (status response ∈ limited_statuses ->
     HttpRequest_run now response = Rejected (ThrottleError (now + 5000)%Z))
  ∧ (status response ∉ limited_statuses ->
       HttpRequest_run now response = Rejected (JsErr (response_value response))).
Proof.
  intros Hrange H200 Hdelay. pose proof (_isLimited_table _ Hrange) as Hlimited.
  unfold HttpRequest_run. rewrite (proj2 (Z.eqb_neq _ _) H200), Hdelay.
  split; intros H.
  - by rewrite (proj2 Hlimited H).
  - destruct (_isLimited (status response)); [|done]. destruct H. by apply Hlimited.
Qed.



(** ** An HTTP request in a pool *)

(** An [HttpRequest] as a request of a pool; [fetched n] is the time at which
    the response to its call number [n] arrives, and the response. *)
Definition HttpRequest_request (cache_key : string) (may_cache : bool) (budget : Z)
    (fetched : nat -> Z * Response) : Request :=
  {| key := cache_key;
     cacheable := may_cache;
     retries := budget;
     request_run := fun n => HttpRequest_run (fst (fetched n)) (snd (fetched n)) |}.


(** A request that is answered with status 429 first. *)
Definition busy_request : Request :=
  HttpRequest_request "http-simple:busy" false 1
    (fun n => (10, {| status := if (n =? 0)%nat then 429 else 200;
                      found_delay := None; response_value := "body" |})).

